(** * fastmail-agent: conversation grouping and body normalisation

    A shallow embedding of the conversation-reconstruction and
    content-normalisation code of the repository:

    - [tui/threadlist.go]: [NormalizeSubject], [GroupEmailsBySubject];
    - [export/quotes.go]: [StripQuotes], [StripSignature],
      [StripQuotesFromHTML];
    - [export/html.go]: [extractText], [stripHTMLRegex], [cleanWhitespace],
      [htmlToTextWithOptions];
    - [export/export.go]: [CleanBody];
    - [jmap/email.go]: [GetBodyText];
    - [tui/threadlist.go]: the cursor of [threadListModel] ([SetItems],
      [SetHeight], [MoveUp], [MoveDown], [Selected]);
    - [export/export.go]: [sanitizeFilename], [deduplicateFilename],
      [formatSize], [FormatAttachmentInfo];
    - [main.go]: [truncate], [groupEmailsBySubject];
    - [jmap/types.go]: [ParseMethodResponse].

    A Go string is modelled by the list of the code points it decodes to
    (what [range], [regexp], [strings.TrimSpace] and [strings.ToLower] see);
    a byte that is not valid UTF-8 is one more item, distinct from every
    code point the program names. *)

From Stdlib Require Import NArith ZArith String Ascii List Sorting.Sorted
  DecimalString DecimalZ.

From stdpp Require Import gmap list sorting.

Local Open Scope N_scope.

(** ** Runes and string literals *)

Abbreviation rune := N (only parsing).

Abbreviation gostring := (list N) (only parsing).

Definition nl : rune := 10.

Definition sp : rune := 32.

(** Go string literals, with the escapes the sources use. *)
Fixpoint unescape (l : list ascii) : gostring :=
  match l with
  | [] => []
  | "\"%char :: "n"%char :: l' => 10 :: unescape l'
  | "\"%char :: "t"%char :: l' => 9 :: unescape l'
  | "\"%char :: "v"%char :: l' => 11 :: unescape l'
  | "\"%char :: "f"%char :: l' => 12 :: unescape l'
  | "\"%char :: "r"%char :: l' => 13 :: unescape l'
  | c :: l' => N_of_ascii c :: unescape l'
  end.

Definition str (s : string) : gostring := unescape (list_ascii_of_string s).

(** ** Package unicode and strings *)

(** [unicode.IsSpace]: the White_Space property. *)
Definition IsSpace (r : rune) : bool :=
  ((9 <=? r) && (r <=? 13)) || (r =? 32) || (r =? 0x85) || (r =? 0xA0)
  || (r =? 0x1680) || ((0x2000 <=? r) && (r <=? 0x200A))
  || (r =? 0x2028) || (r =? 0x2029) || (r =? 0x202F) || (r =? 0x205F)
  || (r =? 0x3000).

Fixpoint dropWhile {A} (p : A -> bool) (l : list A) : list A :=
  match l with
  | [] => []
  | x :: l' => if p x then dropWhile p l' else l
  end.

Fixpoint takeWhile {A} (p : A -> bool) (l : list A) : list A :=
  match l with
  | [] => []
  | x :: l' => if p x then x :: takeWhile p l' else []
  end.

Definition TrimLeft (s : gostring) : gostring := dropWhile IsSpace s.

Fixpoint TrimRight (s : gostring) : gostring :=
  match s with
  | [] => []
  | c :: s' =>
      match TrimRight s' with
      | [] => if IsSpace c then [] else [c]
      | t => c :: t
      end
  end.

(** [strings.TrimSpace] *)
Definition TrimSpace (s : gostring) : gostring := TrimRight (TrimLeft s).

(** [strings.Split(s, sep)] for a separator of one rune: never empty. *)
Fixpoint Split (s : gostring) (sep : rune) : list gostring :=
  match s with
  | [] => [[]]
  | c :: s' =>
      if c =? sep then [] :: Split s' sep
      else match Split s' sep with
           | [] => [[c]]
           | l :: ls => (c :: l) :: ls
           end
  end.

(** [strings.Join] *)
Fixpoint Join (ls : list gostring) (sep : gostring) : gostring :=
  match ls with
  | [] => []
  | [l] => l
  | l :: ls' => l ++ sep ++ Join ls' sep
  end.

(** [strings.Contains(s, c)] for a one-rune substring. *)
Definition Contains (s : gostring) (c : rune) : bool := existsb (N.eqb c) s.

Fixpoint hasPrefix (p s : gostring) : bool :=
  match p, s with
  | [], _ => true
  | a :: p', b :: s' => (a =? b) && hasPrefix p' s'
  | _ :: _, [] => false
  end.

(** [strings.ReplaceAll(s, old, new)] for a non-empty [old]. *)
Fixpoint ReplaceAll_go (fuel : nat) (s old new : gostring) : gostring :=
  match fuel, s with
  | O, _ => s
  | _, [] => []
  | S fuel', c :: s' =>
      if hasPrefix old s
      then new ++ ReplaceAll_go fuel' (drop (length old) s) old new
      else c :: ReplaceAll_go fuel' s' old new
  end.

Definition ReplaceAll (s old new : gostring) : gostring :=
  ReplaceAll_go (length s) s old new.

(** ASCII lower-casing; above U+007F the case tables of package unicode,
    which are not part of this repository, are a parameter [tbl]. *)
Definition ToLowerRune (tbl : rune -> rune) (r : rune) : rune :=
  if r <? 128 then (if (65 <=? r) && (r <=? 90) then r + 32 else r)
  else tbl r.

(** [strings.ToLower] *)
Definition ToLower (tbl : rune -> rune) (s : gostring) : gostring :=
  map (ToLowerRune tbl) s.

(** ** Package regexp

    Patterns are kept as syntax trees; [run] is a backtracking matcher with
    the leftmost-first preference order of Go's regexp (alternatives left to
    right, greedy repetition longest first, lazy repetition shortest
    first). *)

Inductive regex :=
| Empty
| Char (p : rune -> bool)
| BeginText
| BeginLine
| EndLine
| Cat (r1 r2 : regex)
| Alt (r1 r2 : regex)
| Star (greedy : bool) (r : regex).

Definition at_bol (prev : option rune) : bool :=
  match prev with None => true | Some c => c =? nl end.

Definition at_eol (s : gostring) : bool :=
  match s with [] => true | c :: _ => c =? nl end.

Definition orElse {A} (x : option A) (y : unit -> option A) : option A :=
  match x with Some a => Some a | None => y tt end.

(** [run r prev s k]: match [r] at the input [s] whose preceding rune is
    [prev] (none at the start of the text), then continue with [k]. *)
Fixpoint run {A} (r : regex) (prev : option rune) (s : gostring)
    (k : option rune -> gostring -> option A) : option A :=
  match r with
  | Empty => k prev s
  | Char p =>
      match s with
      | c :: s' => if p c then k (Some c) s' else None
      | [] => None
      end
  | BeginText => match prev with None => k prev s | Some _ => None end
  | BeginLine => if at_bol prev then k prev s else None
  | EndLine => if at_eol s then k prev s else None
  | Cat r1 r2 => run r1 prev s (fun p' s' => run r2 p' s' k)
  | Alt r1 r2 => orElse (run r1 prev s k) (fun _ => run r2 prev s k)
  | Star g r' =>
      (fix loop (fuel : nat) (prev : option rune) (s : gostring) : option A :=
         let iter (_ : unit) :=
           match fuel with
           | O => None
           | S fuel' =>
               run r' prev s (fun p' s' =>
                 if (length s' <? length s)%nat then loop fuel' p' s' else None)
           end in
         if g then orElse (iter tt) (fun _ => k prev s)
         else orElse (k prev s) iter) (length s) prev s
  end.

(** The match of [r] that starts exactly here, as (last rune, rest). *)
Definition matchHere (r : regex) (prev : option rune) (s : gostring)
  : option (option rune * gostring) :=
  run r prev s (fun p s' => Some (p, s')).

(** Leftmost match at or after the current position [i]. *)
Fixpoint findFrom (r : regex) (prev : option rune) (s : gostring) (i : nat)
  : option (nat * nat) :=
  match matchHere r prev s with
  | Some (_, s') => Some (i, (i + (length s - length s'))%nat)
  | None =>
      match s with
      | [] => None
      | c :: s' => findFrom r (Some c) s' (S i)
      end
  end.

(** [Regexp.FindStringIndex] *)
Definition FindStringIndex (r : regex) (s : gostring) : option (nat * nat) :=
  findFrom r None s 0.

(** [Regexp.MatchString] *)
Definition MatchString (r : regex) (s : gostring) : bool :=
  match FindStringIndex r s with Some _ => true | None => false end.

(** [Regexp.ReplaceAllString] with a replacement free of [$]: matches
    are replaced left to right; an empty match directly after another
    match is not replaced ([adj]). *)
Fixpoint replaceFrom (fuel : nat) (r : regex) (repl : gostring)
    (prev : option rune) (s : gostring) (adj : bool) : gostring :=
  match fuel with
  | O => s
  | S fuel' =>
      let step (_ : unit) :=
        match s with
        | [] => []
        | c :: t => c :: replaceFrom fuel' r repl (Some c) t false
        end in
      match matchHere r prev s with
      | Some (p', s') =>
          if (length s' <? length s)%nat
          then repl ++ replaceFrom fuel' r repl p' s' true
          else (if adj then [] else repl) ++ step tt
      | None => step tt
      end
  end.

Definition ReplaceAllString (r : regex) (s repl : gostring) : gostring :=
  replaceFrom (S (length s)) r repl None s false.

(** *** Pattern syntax *)

Definition only (c : rune) : rune -> bool := N.eqb c.

Definition upperOf (c : rune) : rune :=
  if (97 <=? c) && (c <=? 122) then c - 32 else c.

Definition lowerOf (c : rune) : rune :=
  if (65 <=? c) && (c <=? 90) then c + 32 else c.

(** A literal rune under flag [i]: the rune's simple case-folding orbit
    (K also folds to the Kelvin sign, S to the long s). *)
Definition foldIs (c : rune) (r : rune) : bool :=
  (r =? lowerOf c) || (r =? upperOf c)
  || ((lowerOf c =? 107) && (r =? 0x212A))
  || ((lowerOf c =? 115) && (r =? 0x17F)).

(** [\s] *)
Definition cls_s (r : rune) : bool :=
  (r =? 9) || (r =? 10) || (r =? 12) || (r =? 13) || (r =? 32).

(** [.] without flag [s] *)
Definition cls_dot (r : rune) : bool := negb (r =? nl).

(** [[^>]] *)
Definition cls_not (c : rune) (r : rune) : bool := negb (r =? c).

(** [[\s\S]] *)
Definition cls_any (r : rune) : bool := true.

(** [[ \t]] *)
Definition cls_blank (r : rune) : bool := (r =? 32) || (r =? 9).

Fixpoint Seq (rs : list regex) : regex :=
  match rs with
  | [] => Empty
  | [r] => r
  | r :: rs' => Cat r (Seq rs')
  end.

(** A literal, and a literal under flag [i]. *)
Definition Lit (s : string) : regex := Seq (map (fun c => Char (only c)) (str s)).

Definition LitI (s : string) : regex :=
  Seq (map (fun c => Char (foldIs c)) (str s)).

Fixpoint Alts (rs : list regex) : regex :=
  match rs with
  | [] => Empty
  | [r] => r
  | r :: rs' => Alt r (Alts rs')
  end.

Definition Plus (r : regex) : regex := Cat r (Star true r).

Definition Many (r : regex) : regex := Star true r.

Definition Lazy (r : regex) : regex := Star false r.

Definition Opt (r : regex) : regex := Alt r Empty.

Fixpoint Times (n : nat) (r : regex) : regex :=
  match n with
  | O => Empty
  | 1%nat => r
  | S n' => Cat r (Times n' r)
  end.

(** [r{n,}] *)
Definition AtLeast (n : nat) (r : regex) : regex :=
  Cat (Times n r) (Star true r).

(** ** Package jmap: the data model ([jmap/types.go]) *)

Module EmailAddress.

Record t := { Name : gostring; Email : gostring }.

End EmailAddress.

Module BodyPart.

Record t := { PartID : gostring; Type_ : gostring }.

End BodyPart.

Module BodyValue.

Record t := { Value : gostring }.

End BodyValue.

Module Attachment.

Record t := {
  BlobID : gostring; Type_ : gostring; Name : gostring;
  Size : Z; CID : gostring; IsInline : bool }.

End Attachment.

Module Email.

Record t := {
  ID : gostring;
  ThreadID : gostring;
  MailboxIDs : gmap (list N) bool;
  From : list EmailAddress.t;
  To : list EmailAddress.t;
  CC : list EmailAddress.t;
  Subject : gostring;
  ReceivedAt : gostring;
  Preview : gostring;
  TextBody : list BodyPart.t;
  HTMLBody : list BodyPart.t;
  BodyValues : gmap (list N) BodyValue.t;
  Attachments : list Attachment.t;
  HasAttachment : bool;
  MessageID : list gostring;
  InReplyTo : list gostring;
  References : list gostring }.

End Email.

(** The loop [for _, part := range parts] of [GetBodyText]: the value of
    the first part that has an entry in [BodyValues]. *)
Fixpoint firstBodyValue (parts : list BodyPart.t)
    (vals : gmap (list N) BodyValue.t) : option gostring :=
  match parts with
  | [] => None
  | part :: parts' =>
      match vals !! BodyPart.PartID part with
      | Some val => Some (BodyValue.Value val)
      | None => firstBodyValue parts' vals
      end
  end.

(** [jmap/email.go]: [(e *Email) GetBodyText] *)
Definition GetBodyText (e : Email.t) : gostring :=
  match firstBodyValue (Email.TextBody e) (Email.BodyValues e) with
  | Some v => v
  | None =>
      match firstBodyValue (Email.HTMLBody e) (Email.BodyValues e) with
      | Some v => v
      | None => Email.Preview e
      end
  end.

(** ** Package export: quotes and signatures ([export/quotes.go]) *)

Definition s_ : regex := Char cls_s.

Definition dot : regex := Char cls_dot.

Definition quot : rune := 34.

(** [(?im)^On .+wrote:\s*$] *)
Definition attributionPattern : regex :=
  Seq [BeginLine; LitI "On "; Plus dot; LitI "wrote:"; Many s_; EndLine].

(** [(?m)^>+.*$] *)
Definition quotedLinePattern : regex :=
  Seq [BeginLine; Plus (Lit ">"); Many dot; EndLine].

(** [(?im)^-{5,}\s*Forwarded message\s*-{5,}] *)
Definition forwardedPattern : regex :=
  Seq [BeginLine; AtLeast 5 (Lit "-"); Many s_; LitI "Forwarded message";
       Many s_; AtLeast 5 (Lit "-")].

(** [(?im)^-{5,}\s*Original Message\s*-{5,}] *)
Definition originalMsgPattern : regex :=
  Seq [BeginLine; AtLeast 5 (Lit "-"); Many s_; LitI "Original Message";
       Many s_; AtLeast 5 (Lit "-")].

(** [(?im)^From:\s*.+\n(Sent|Date):\s*.+\nTo:\s*.+\n(Cc:\s*.+\n)?Subject:\s*.+$] *)
Definition outlookHeaderPattern : regex :=
  Seq [BeginLine; LitI "From:"; Many s_; Plus dot; Lit "\n";
       Alts [LitI "Sent"; LitI "Date"]; LitI ":"; Many s_; Plus dot; Lit "\n";
       LitI "To:"; Many s_; Plus dot; Lit "\n";
       Opt (Seq [LitI "Cc:"; Many s_; Plus dot; Lit "\n"]);
       LitI "Subject:"; Many s_; Plus dot; EndLine].

(** [(?m)^--\s*$] *)
Definition sigDelimiterPattern : regex :=
  Seq [BeginLine; Lit "--"; Many s_; EndLine].

Definition sigPhrasePatterns : list regex :=
  [ (* (?im)^sent from my (iphone|ipad|android|mobile|galaxy|pixel).*$ *)
    Seq [BeginLine; LitI "sent from my ";
         Alts [LitI "iphone"; LitI "ipad"; LitI "android"; LitI "mobile";
               LitI "galaxy"; LitI "pixel"];
         Many dot; EndLine];
    (* (?im)^get outlook for .*$ *)
    Seq [BeginLine; LitI "get outlook for "; Many dot; EndLine];
    (* (?im)^sent from mail for windows.*$ *)
    Seq [BeginLine; LitI "sent from mail for windows"; Many dot; EndLine];
    (* (?im)^sent from yahoo mail.*$ *)
    Seq [BeginLine; LitI "sent from yahoo mail"; Many dot; EndLine];
    (* (?im)^sent via .*$ *)
    Seq [BeginLine; LitI "sent via "; Many dot; EndLine] ].

(** [\n{3,}] *)
Definition reNewlines : regex := AtLeast 3 (Lit "\n").

(** [if loc := pattern.FindStringIndex(body); loc != nil
     { body = strings.TrimSpace(body[:loc[0]]) }] *)
Definition truncateAt (pattern : regex) (body : gostring) : gostring :=
  match FindStringIndex pattern body with
  | Some loc => TrimSpace (take (fst loc) body)
  | None => body
  end.

(** [StripQuotes] *)
Definition StripQuotes (body : gostring) : gostring :=
  (* Step 1 *)
  let body := truncateAt attributionPattern body in
  (* Step 2 *)
  let body :=
    fold_left (fun body pattern => truncateAt pattern body)
              [forwardedPattern; originalMsgPattern] body in
  (* Step 3 *)
  let body := truncateAt outlookHeaderPattern body in
  (* Step 4 *)
  let body := ReplaceAllString quotedLinePattern body [] in
  (* Step 5 *)
  let body := ReplaceAllString reNewlines body (str "\n\n") in
  TrimSpace body.

(** The body of the loop
    [for i := len(lines) - 1; i >= 0 && i >= len(lines)-5; i--]
    of [StripSignature]; [fuel] bounds the number of iterations. *)
Fixpoint sigScan (fuel : nat) (lines : list gostring) (i : Z)
    (body : gostring) : gostring :=
  match fuel with
  | O => body
  | S fuel' =>
      if ((0 <=? i) && (Z.of_nat (length lines) - 5 <=? i))%Z then
        let line := TrimSpace (nth (Z.to_nat i) lines []) in
        if bool_decide (line = []) then sigScan fuel' lines (i - 1)%Z body
        else if existsb (fun pattern => MatchString pattern line)
                        sigPhrasePatterns
        then TrimSpace (Join (take (Z.to_nat i) lines) (str "\n"))
        else sigScan fuel' lines (i - 1)%Z body
      else body
  end.

(** [StripSignature] *)
Definition StripSignature (body : gostring) : gostring :=
  (* Method 1 *)
  let body := truncateAt sigDelimiterPattern body in
  (* Method 2 *)
  let lines := Split body nl in
  sigScan (length lines) lines (Z.of_nat (length lines) - 1)%Z body.

Definition notQuot : regex := Char (cls_not quot).

Definition notGt : regex := Char (cls_not 62).

Definition anyS : regex := Char cls_any.

(** [(?is)<blockquote[^>]*>.*?</blockquote>] *)
Definition blockquotePattern : regex :=
  Seq [LitI "<blockquote"; Many notGt; LitI ">"; Lazy anyS;
       LitI "</blockquote>"].

(** [(?is)<div[^>]*class="[^"]*gmail_quote[^"]*"[^>]*>.*?</div>] *)
Definition gmailQuotePattern : regex :=
  Seq [LitI "<div"; Many notGt; LitI "class="; Char (only quot);
       Many notQuot; LitI "gmail_quote"; Many notQuot; Char (only quot);
       Many notGt; LitI ">"; Lazy anyS; LitI "</div>"].

(** [(?is)<div[^>]*id="(appendonsend|divRplyFwdMsg)"[^>]*>.*?</div>] *)
Definition outlookQuotePattern : regex :=
  Seq [LitI "<div"; Many notGt; LitI "id="; Char (only quot);
       Alts [LitI "appendonsend"; LitI "divRplyFwdMsg"]; Char (only quot);
       Many notGt; LitI ">"; Lazy anyS; LitI "</div>"].

(** [StripQuotesFromHTML] *)
Definition StripQuotesFromHTML (html : gostring) : gostring :=
  let html := ReplaceAllString blockquotePattern html [] in
  let html := ReplaceAllString gmailQuotePattern html [] in
  let html := ReplaceAllString outlookQuotePattern html [] in
  html.

(** ** Package export: HTML to text ([export/html.go]) *)

(** [html.Node] of golang.org/x/net/html: the node type, its data (the tag
    name of an element, the content of a text node) and the children that
    [FirstChild]/[NextSibling] enumerate. *)
Inductive NodeType :=
| ErrorNode | TextNode | DocumentNode | ElementNode | CommentNode
| DoctypeNode | RawNode.

Inductive Node := MkNode (ty : NodeType) (data : gostring) (kids : list Node).

Definition isElement (ty : NodeType) : bool :=
  match ty with ElementNode => true | _ => false end.

Definition isText (ty : NodeType) : bool :=
  match ty with TextNode => true | _ => false end.

Definition tagIn (data : gostring) (tags : list string) : bool :=
  existsb (fun t => bool_decide (data = str t)) tags.

(** The cases of the two [switch n.Data] statements of [extractText]. *)
Definition lineBreakTags : list string := ["br"%string].

Definition leadingNewlineTags : list string :=
  ["p"; "div"; "h1"; "h2"; "h3"; "h4"; "h5"; "h6"; "li"; "tr"]%string.

Definition skippedTags : list string := ["script"; "style"; "head"]%string.

Definition trailingNewlineTags : list string :=
  ["p"; "div"; "h1"; "h2"; "h3"; "h4"; "h5"; "h6"; "ul"; "ol"; "table"]%string.

(** [extractText(n, sb)]: the builder [sb] is threaded through as the text
    written so far. *)
Fixpoint extractText (n : Node) (sb : gostring) : gostring :=
  match n with
  | MkNode ty data kids =>
      let sb := if isText ty then sb ++ data else sb in
      if isElement ty && tagIn data skippedTags then sb
      else
        let sb :=
          if isElement ty then
            if tagIn data lineBreakTags then sb ++ str "\n"
            else if tagIn data leadingNewlineTags then sb ++ str "\n"
            else sb
          else sb in
        let sb := fold_left (fun sb c => extractText c sb) kids sb in
        if isElement ty && tagIn data trailingNewlineTags
        then sb ++ str "\n" else sb
  end.

(** [[ \t]+] *)
Definition reSpaces : regex := Plus (Char cls_blank).

(** [cleanWhitespace] *)
Definition cleanWhitespace (s : gostring) : gostring :=
  let s := ReplaceAllString reSpaces s (str " ") in
  let s := ReplaceAllString reNewlines s (str "\n\n") in
  let lines := Split s nl in
  let lines := map TrimSpace lines in
  let s := Join lines (str "\n") in
  TrimSpace s.

(** [(?i)<script[^>]*>[\s\S]*?</script>] *)
Definition reScript : regex :=
  Seq [LitI "<script"; Many notGt; LitI ">"; Lazy anyS; LitI "</script>"].

(** [(?i)<style[^>]*>[\s\S]*?</style>] *)
Definition reStyle : regex :=
  Seq [LitI "<style"; Many notGt; LitI ">"; Lazy anyS; LitI "</style>"].

(** [(?i)<br\s*/?>] *)
Definition reBr : regex := Seq [LitI "<br"; Many s_; Opt (Lit "/"); Lit ">"].

(** [(?i)</(p|div|h[1-6]|li|tr)>] *)
Definition reBlock : regex :=
  Seq [Lit "</";
       Alts [LitI "p"; LitI "div";
             Seq [LitI "h"; Char (fun r => (49 <=? r) && (r <=? 54))];
             LitI "li"; LitI "tr"];
       Lit ">"].

(** [<[^>]*>] *)
Definition reTags : regex := Seq [Lit "<"; Many notGt; Lit ">"].

(** [stripHTMLRegex] *)
Definition stripHTMLRegex (s : gostring) : gostring :=
  let s := ReplaceAllString reScript s [] in
  let s := ReplaceAllString reStyle s [] in
  let s := ReplaceAllString reBr s (str "\n") in
  let s := ReplaceAllString reBlock s (str "\n") in
  let s := ReplaceAllString reTags s [] in
  let s := ReplaceAll s (str "&nbsp;") (str " ") in
  let s := ReplaceAll s (str "&amp;") (str "&") in
  let s := ReplaceAll s (str "&lt;") (str "<") in
  let s := ReplaceAll s (str "&gt;") (str ">") in
  let s := ReplaceAll s (str "&quot;") [quot] in
  let s := ReplaceAll s (str "&#39;") (str "'") in
  cleanWhitespace s.

Module ExportOptions.

Record t := { StripQuotes : bool; StripSignatures : bool }.

End ExportOptions.

(** [DefaultLLMOptions] *)
Definition DefaultLLMOptions : ExportOptions.t :=
  {| ExportOptions.StripQuotes := true; ExportOptions.StripSignatures := true |}.

Section Cleaning.

(** [html.Parse] of golang.org/x/net/html, which is not part of this
    repository: the document tree, or nothing when it reports an error. *)
Variable html_Parse : gostring -> option Node.

(** [htmlToTextWithOptions] *)
Definition htmlToTextWithOptions (htmlStr : gostring) (stripQuotes : bool)
  : gostring :=
  let htmlStr := if stripQuotes then StripQuotesFromHTML htmlStr else htmlStr in
  match html_Parse htmlStr with
  | None => stripHTMLRegex htmlStr
  | Some doc =>
      let text := extractText doc [] in
      cleanWhitespace text
  end.

(** [HTMLToText] and [HTMLToTextStripQuotes] *)
Definition HTMLToText (htmlStr : gostring) : gostring :=
  htmlToTextWithOptions htmlStr false.

Definition HTMLToTextStripQuotes (htmlStr : gostring) : gostring :=
  htmlToTextWithOptions htmlStr true.

(** [strings.Contains(body, "<") && strings.Contains(body, ">")] *)
Definition looksLikeHTML (body : gostring) : bool :=
  Contains body 60 && Contains body 62.

(** [CleanBody] *)
Definition CleanBody (body : gostring) (opts : ExportOptions.t) : gostring :=
  let body :=
    if looksLikeHTML body then
      if ExportOptions.StripQuotes opts then HTMLToTextStripQuotes body
      else HTMLToText body
    else body in
  let body := if ExportOptions.StripQuotes opts then StripQuotes body else body in
  let body :=
    if ExportOptions.StripSignatures opts then StripSignature body else body in
  body.

(** [getCleanBody] *)
Definition getCleanBody (email : Email.t) (opts : ExportOptions.t) : gostring :=
  CleanBody (GetBodyText email) opts.

End Cleaning.

(** ** Package tui: conversations ([tui/threadlist.go]) *)

Module ThreadItem.

Record t := {
  NormalizedSubject : gostring;
  Subject : gostring;
  From : gostring;
  Date : Z;
  Preview : gostring;
  EmailCount : Z;
  Emails : list Email.t }.

End ThreadItem.

(** [(?i)^(re|fwd|fw):\s*] *)
Definition rePrefix : regex :=
  Seq [BeginText; Alts [LitI "re"; LitI "fwd"; LitI "fw"]; LitI ":"; Many s_].

(** [\s+] *)
Definition reWhitespace : regex := Plus s_.

(** The [for] loop of [NormalizeSubject]: strip one prefix per round until
    a round changes nothing; [fuel] bounds the number of rounds. *)
Fixpoint stripPrefixes (fuel : nat) (normalized : gostring) : gostring :=
  match fuel with
  | O => normalized
  | S fuel' =>
      let stripped := ReplaceAllString rePrefix normalized [] in
      if bool_decide (stripped = normalized) then normalized
      else stripPrefixes fuel' stripped
  end.

Section Tui.

(** The case tables of package unicode above U+007F. *)
Variable tbl : rune -> rune.

(** [time.Parse(time.RFC3339, value)]: the instant, in nanoseconds since
    the zero [time.Time] (January 1, year 1, 00:00 UTC), or nothing when
    it reports an error. *)
Variable time_Parse : gostring -> option Z.

(** [sort.Slice], with the order given on elements. *)
Variable sort_Slice : forall A : Type, list A -> (A -> A -> bool) -> list A.

(** [NormalizeSubject] *)
Definition NormalizeSubject (subject : gostring) : gostring :=
  let normalized := stripPrefixes (S (length subject)) subject in
  let normalized := TrimSpace normalized in
  let normalized := ReplaceAllString reWhitespace normalized (str " ") in
  ToLower tbl normalized.

(** [t, _ := time.Parse(time.RFC3339, s)]: the zero time on error. *)
Definition parseOrZero (s : gostring) : Z :=
  match time_Parse s with Some t => t | None => 0%Z end.

(** The first loop of [GroupEmailsBySubject]: one message into
    [groups] and [order]. *)
Definition groupStep (st : gmap (list N) (list Email.t) * list gostring)
    (email : Email.t) : gmap (list N) (list Email.t) * list gostring :=
  let '(groups, order) := st in
  let key := NormalizeSubject (Email.Subject email) in
  let order :=
    match groups !! key with
    | None => order ++ [key]
    | Some _ => order
    end in
  (<[key := default [] (groups !! key) ++ [email]]> groups, order).

(** [less] of the [sort.Slice] call. *)
Definition receivedBefore (a b : Email.t) : bool :=
  (parseOrZero (Email.ReceivedAt a) <? parseOrZero (Email.ReceivedAt b))%Z.

(** The display name of the sender. *)
Definition displayFrom (newest : Email.t) : gostring :=
  match Email.From newest with
  | [] => []
  | a :: _ =>
      if bool_decide (EmailAddress.Name a <> [])
      then EmailAddress.Name a else EmailAddress.Email a
  end.

(** The body of the second loop: the thread item of one key; nothing
    stands for the run-time panic of indexing an empty slice at
    [len(groupEmails)-1]. *)
Definition buildItem (groups : gmap (list N) (list Email.t)) (key : gostring)
  : option ThreadItem.t :=
  let groupEmails := default [] (groups !! key) in
  let groupEmails := sort_Slice _ groupEmails receivedBefore in
  match last groupEmails with
  | None => None
  | Some newest =>
      Some {| ThreadItem.NormalizedSubject := key;
              ThreadItem.Subject := Email.Subject newest;
              ThreadItem.From := displayFrom newest;
              ThreadItem.Date := parseOrZero (Email.ReceivedAt newest);
              ThreadItem.Preview := Email.Preview newest;
              ThreadItem.EmailCount := Z.of_nat (length groupEmails);
              ThreadItem.Emails := groupEmails |}
  end.

Fixpoint buildItems (groups : gmap (list N) (list Email.t))
    (order : list gostring) : option (list ThreadItem.t) :=
  match order with
  | [] => Some []
  | key :: order' =>
      match buildItem groups key with
      | None => None
      | Some item =>
          match buildItems groups order' with
          | None => None
          | Some items => Some (item :: items)
          end
      end
  end.

(** [GroupEmailsBySubject] *)
Definition GroupEmailsBySubject (emails : list Email.t)
  : option (list ThreadItem.t) :=
  let '(groups, order) := fold_left groupStep emails (∅, []) in
  buildItems groups order.

End Tui.

(** * Reading the program

    What the replacements, the loops and the scans of the program compute,
    stated on the text itself; the theorems below relate each of these to
    the function of the program it describes. *)

(** ** Runs of runes *)

Definition startsWith (p : N -> bool) (s : list N) : bool :=
  match s with c :: _ => p c | [] => false end.

Definition endsWith (p : N -> bool) (s : list N) : bool :=
  match last s with Some c => p c | None => false end.

(** Every run of runes of the class [p] replaced by [repl]. *)
Fixpoint squeeze (p : N -> bool) (repl : list N) (s : list N) : list N :=
  match s with
  | [] => []
  | c :: s' =>
      if p c then
        if startsWith p s' then squeeze p repl s'
        else repl ++ squeeze p repl s'
      else c :: squeeze p repl s'
  end.

Definition isNewline : N -> bool := only nl.

(** Every newline that two more newlines follow dropped: a run of three
    or more newlines becomes two. *)
Fixpoint squeezeNewlines (s : list N) : list N :=
  match s with
  | [] => []
  | c :: s' =>
      if isNewline c && startsWith isNewline s'
         && startsWith isNewline (tail s')
      then squeezeNewlines s'
      else c :: squeezeNewlines s'
  end.

(** Three newlines in a row somewhere in the text. *)
Fixpoint hasBlankRun (s : list N) : bool :=
  match s with
  | [] => false
  | c :: s' =>
      isNewline c && startsWith isNewline s' && startsWith isNewline (tail s')
      || hasBlankRun s'
  end.

(** Every rune of the class [p] is [c], and no two of them are adjacent. *)
Fixpoint squeezed (p : N -> bool) (c : N) (s : list N) : bool :=
  match s with
  | [] => true
  | x :: s' =>
      (negb (p x) || ((x =? c) && negb (startsWith p s'))) && squeezed p c s'
  end.

Definition isEmpty (l : list N) : bool :=
  match l with [] => true | _ :: _ => false end.

(** No line of the text is made of whitespace only, unless it is empty. *)
Definition blankLinesEmpty (s : list N) : bool :=
  forallb (fun l => negb (forallb IsSpace l) || isEmpty l) (Split s nl).

(** ** The loops of the matcher *)

(** The continuation of a whole match. *)
Definition whole (p : option N) (s : list N) : option (option N * list N) :=
  Some (p, s).

Definition lastRune (prev : option N) (l : list N) : option N :=
  match last l with Some c => Some c | None => prev end.

(** The loop of [run (Star true (Char p))], on its own. *)
Definition classLoop (p : N -> bool) :=
  fix loop (fuel : nat) (prev : option N) (s : list N)
    : option (option N * list N) :=
    orElse
      (match fuel with
       | O => None
       | S fuel' =>
           run (Char p) prev s (fun p' s' =>
             if (length s' <? length s)%nat then loop fuel' p' s' else None)
       end)
      (fun _ => whole prev s).

(** The loop of a greedy repetition of a class, with its continuation. *)
Definition starLoop {A} (p : N -> bool) (k : option N -> list N -> option A) :=
  fix loop (fuel : nat) (prev : option N) (s : list N) : option A :=
    orElse
      (match fuel with
       | O => None
       | S fuel' =>
           run (Char p) prev s (fun p' s' =>
             if (length s' <? length s)%nat then loop fuel' p' s' else None)
       end)
      (fun _ => k prev s).

(** The match of [r] that starts at offset [k] of [s], if any. *)
Definition matchAt (r : regex) (s : list N) (k : nat)
  : option (option N * list N) :=
  matchHere r (match k with O => None | S k' => s !! k' end) (drop k s).

(** ** Trimmed text and lines *)

Definition trimmed (s : list N) : Prop := TrimLeft s = s /\ TrimRight s = s.

Definition lineBreak : list N := str "\n".

Definition noNewline (l : list N) : Prop := nl ∉ l.

Definition blanksSqueezed (s : list N) : bool := squeezed cls_blank sp s.

(** The text before the last trim. *)
Definition cleanedLines (s : list N) : list (list N) :=
  map TrimSpace (Split (squeezeNewlines (squeeze cls_blank [sp] s)) nl).

(** Two empty lines in a row, with a line before and a line after. *)
Fixpoint blankPair (ls : list (list N)) : bool :=
  match ls with
  | [] => false
  | _ :: ls' =>
      match ls' with
      | l1 :: l2 :: _ :: _ => isEmpty l1 && isEmpty l2
      | _ => false
      end || blankPair ls'
  end.

Definition emptyIfBlank (l : list N) : Prop := TrimSpace l = [] -> l = [].

(** The shape of what [StripQuotes] returns. *)
Definition tidy (s : list N) : Prop := trimmed s /\ hasBlankRun s = false.

(** ** Reply and forward prefixes *)

(** The text begins with a rune of each class, in turn. *)
Fixpoint startsWithClasses (ps : list (N -> bool)) (s : list N) : bool :=
  match ps, s with
  | [], _ => true
  | p :: ps', c :: s' => p c && startsWithClasses ps' s'
  | _ :: _, [] => false
  end.

Definition classesOf (w : string) : list (N -> bool) := map foldIs (str w).

(** The subject begins with [re:], [fwd:] or [fw:], in any case: the length
    of that prefix. *)
Definition prefixLength (s : list N) : option nat :=
  if startsWithClasses (classesOf "re:") s then Some 3%nat
  else if startsWithClasses (classesOf "fwd:") s then Some 4%nat
  else if startsWithClasses (classesOf "fw:") s then Some 3%nat
  else None.

(** One round of the loop of [NormalizeSubject]. *)
Definition stripOnce (s : list N) : list N :=
  match prefixLength s with
  | Some n => dropWhile cls_s (drop n s)
  | None => s
  end.

(** ** Quoted lines and signatures *)

Definition isQuoteMark : N -> bool := only 62.

(** [StripQuotes], step 4, rune by rune: where we are in the line. *)
Inductive lineState := LineStart | Kept | Quoted.

Fixpoint unquote (st : lineState) (s : list N) : list N :=
  match s with
  | [] => []
  | c :: s' =>
      if c =? nl then nl :: unquote LineStart s'
      else match st with
           | LineStart =>
               if isQuoteMark c then unquote Quoted s' else c :: unquote Kept s'
           | Kept => c :: unquote Kept s'
           | Quoted => unquote Quoted s'
           end
  end.

(** The same step line by line: a line that starts with [>] is emptied,
    its line break stays. *)
Definition emptyIfQuoted (l : list N) : list N :=
  if startsWith isQuoteMark l then [] else l.

Definition emptyQuotedLines (s : list N) : list N :=
  Join (map emptyIfQuoted (Split s nl)) (str "\n").

Definition keptHead (st : lineState) (l : list N) : list N :=
  match st with
  | LineStart => emptyIfQuoted l
  | Kept => l
  | Quoted => []
  end.

Definition otherLines (ls : list (list N)) : list N :=
  match ls with
  | [] => []
  | _ :: _ => str "\n" ++ Join (map emptyIfQuoted ls) (str "\n")
  end.

Definition truncationPatterns : list regex :=
  [attributionPattern; forwardedPattern; originalMsgPattern; outlookHeaderPattern].

(** [StripSignature], the test of one line in the loop. *)
Definition isSignaturePhrase (line : list N) : bool :=
  existsb (fun pattern => MatchString pattern line) sigPhrasePatterns.

Definition isSignatureLine (l : list N) : bool :=
  let line := TrimSpace l in negb (isEmpty line) && isSignaturePhrase line.

(** The indices the loop of [StripSignature] visits, in ascending order:
    those of the last five lines. *)
Definition lastFive (lines : list (list N)) : list nat :=
  seq (length lines - 5) (length lines - (length lines - 5)).

Definition lastSignatureLine (lines : list (list N)) : option nat :=
  last (List.filter (fun i => isSignatureLine (nth i lines [])) (lastFive lines)).

(** Nothing is left in the text for [StripQuotes] to cut or to empty. *)
Definition noQuoteMarker (out : list N) : bool :=
  forallb (fun pattern => negb (MatchString pattern out))
          (truncationPatterns ++ [quotedLinePattern]).

(** Nothing is left in the text for [StripSignature] to cut. *)
Definition noSignatureMarker (out : list N) : bool :=
  negb (MatchString sigDelimiterPattern out)
  && bool_decide (lastSignatureLine (Split out nl) = None).

(** ** The text of a tree and the body of a message *)

(** The text of a node with the two tag lists of the code: a newline
    before the children of [br], [p], [div], [h1]-[h6], [li], [tr], and one
    after the children of [p], [div], [h1]-[h6], [ul], [ol], [table]. *)
Definition leadingNewline (ty : NodeType) (data : list N) : list N :=
  if isElement ty && (tagIn data lineBreakTags || tagIn data leadingNewlineTags)
  then str "\n" else [].

Definition trailingNewline (ty : NodeType) (data : list N) : list N :=
  if isElement ty && tagIn data trailingNewlineTags then str "\n" else [].

Fixpoint textOf (n : Node) : list N :=
  match n with
  | MkNode ty data kids =>
      (if isText ty then data else []) ++
      (if isElement ty && tagIn data skippedTags then []
       else leadingNewline ty data ++ concat (map textOf kids)
            ++ trailingNewline ty data)
  end.

(** No listed body part of the message has a fetched body value. *)
Definition noBodyValue (e : Email.t) : Prop :=
  Forall (fun part => Email.BodyValues e !! BodyPart.PartID part = None)
         (Email.TextBody e ++ Email.HTMLBody e).

(** ** Conversations *)

(** Keys in the order of their first occurrence. *)
Fixpoint first_seen (keys : list (list N)) : list (list N) :=
  match keys with
  | [] => []
  | k :: keys' => k :: filter (fun k' => k' <> k) (first_seen keys')
  end.

Section Conversations.
Variable tbl : N -> N.
Variable time_Parse : list N -> option Z.
Variable sort_Slice : forall A : Type, list A -> (A -> A -> bool) -> list A.

(** The key of a message, the messages of a key, and the time a message
    is sorted by. *)
Definition keyOf (e : Email.t) : list N :=
  NormalizeSubject tbl (Email.Subject e).

Definition membersOf (k : list N) (emails : list Email.t) : list Email.t :=
  filter (fun e => keyOf e = k) emails.

Definition receivedKey (e : Email.t) : Z :=
  parseOrZero time_Parse (Email.ReceivedAt e).

(** What [groups] and [order] hold after the messages [emails]. *)
Definition grouped (emails : list Email.t)
    (st : gmap (list N) (list Email.t) * list (list N)) : Prop :=
  st.2 = first_seen (keyOf <$> emails) /\
  forall k, st.1 !! k =
    if decide (k ∈ keyOf <$> emails) then Some (membersOf k emails) else None.

(** The thread item of key [k] among [emails]. *)
Definition itemFor (emails : list Email.t) (k : list N)
    (item : ThreadItem.t) : Prop :=
  ThreadItem.NormalizedSubject item = k /\
  ThreadItem.Emails item =
    sort_Slice _ (membersOf k emails) (receivedBefore time_Parse) /\
  ThreadItem.EmailCount item = Z.of_nat (length (ThreadItem.Emails item)) /\
  exists newest,
    last (ThreadItem.Emails item) = Some newest /\
    ThreadItem.Subject item = Email.Subject newest /\
    ThreadItem.From item = displayFrom newest /\
    ThreadItem.Date item = receivedKey newest /\
    ThreadItem.Preview item = Email.Preview newest.

End Conversations.

(** ** The wording of the specification

    Definitions that follow the words of the specification where these
    differ from the program, to compare the two. *)

(** The block-level tags as the specification lists them, and the text of
    a node as the specification words it: a newline on entry into and
    after the children of every block-level element. *)
Definition blockTags_spec : list string :=
  ["p"; "div"; "h1"; "h2"; "h3"; "h4"; "h5"; "h6"; "li"; "tr"]%string.

Fixpoint textOf_spec (n : Node) : list N :=
  match n with
  | MkNode ty data kids =>
      if isText ty then data
      else if isElement ty && tagIn data skippedTags then []
      else if isElement ty && tagIn data lineBreakTags
           then str "\n" ++ concat (map textOf_spec kids)
      else if isElement ty && tagIn data blockTags_spec
           then str "\n" ++ concat (map textOf_spec kids) ++ str "\n"
      else concat (map textOf_spec kids)
  end.

(** [StripQuotes] as the specification words it: the text before the
    first match of each pattern in turn (trimmed, as its example has it),
    the lines that start with [>] removed, and three or more blank lines
    in a row made two. *)
Definition truncateBefore_spec (pattern : regex) (body : list N) : list N :=
  match FindStringIndex pattern body with
  | Some loc => TrimSpace (take (fst loc) body)
  | None => body
  end.

Definition isBlankLine (l : list N) : bool := forallb IsSpace l.

Fixpoint collapseBlankLines_spec (ls : list (list N)) : list (list N) :=
  match ls with
  | [] => []
  | l :: ls' =>
      if isBlankLine l
         && match ls' with
            | l1 :: l2 :: _ => isBlankLine l1 && isBlankLine l2
            | _ => false
            end
      then collapseBlankLines_spec ls'
      else l :: collapseBlankLines_spec ls'
  end.

Definition StripQuotes_spec (body : list N) : list N :=
  let body :=
    fold_left (fun body pattern => truncateBefore_spec pattern body)
              truncationPatterns body in
  let lines :=
    List.filter (fun l => negb (startsWith isQuoteMark l)) (Split body nl) in
  Join (collapseBlankLines_spec lines) (str "\n").

(** [StripSignature] as the specification words it: the text before the
    first delimiter line if there is one; otherwise the text before the
    first of the last five non-empty lines, from the end, that carries a
    signature phrase (both trimmed, as its examples have it). *)
Definition isDelimiterLine_spec (l : list N) : bool :=
  hasPrefix (str "--") l && forallb IsSpace (drop 2 l).

Fixpoint findIndex {A} (p : A -> bool) (l : list A) : option nat :=
  match l with
  | [] => None
  | x :: l' => if p x then Some O else S <$> findIndex p l'
  end.

Definition textBefore (lines : list (list N)) (i : nat) : list N :=
  TrimSpace (Join (take i lines) (str "\n")).

Definition StripSignature_spec (body : list N) : list N :=
  let lines := Split body nl in
  match findIndex isDelimiterLine_spec lines with
  | Some i => textBefore lines i
  | None =>
      let fromEnd := rev (imap (fun i l => (i, l)) lines) in
      let nonEmpty :=
        List.filter (fun il => negb (isBlankLine (snd il))) fromEnd in
      match List.find (fun il => isSignaturePhrase (TrimSpace (snd il)))
                      (take 5 nonEmpty) with
      | Some il => textBefore lines (fst il)
      | None => body
      end
  end.

(** ** Instances for the examples *)

(** Insertion sort, which is how [sort.Slice] orders a short slice. *)
Fixpoint insertSorted {A} (less : A -> A -> bool) (x : A) (l : list A)
  : list A :=
  match l with
  | [] => [x]
  | y :: l' => if less x y then x :: l else y :: insertSorted less x l'
  end.

Definition insertionSort (A : Type) (l : list A) (less : A -> A -> bool)
  : list A :=
  fold_left (fun sorted x => insertSorted less x sorted) l [].

(** Lower case of the Latin-1 letters, other runes unchanged. *)
Definition latin1Lower (r : N) : N :=
  if (0xC0 <=? r) && (r <=? 0xDE) && negb (r =? 0xD7) then r + 32 else r.

Definition digitOf (c : N) : option Z :=
  if (48 <=? c) && (c <=? 57) then Some (Z.of_N (c - 48)) else None.

Fixpoint numberOf (acc : Z) (s : list N) : option Z :=
  match s with
  | [] => Some acc
  | c :: s' =>
      match digitOf c with
      | Some d => numberOf (10 * acc + d)%Z s'
      | None => None
      end
  end.

Definition isLeap (y : Z) : bool :=
  ((y mod 4 =? 0) && negb (y mod 100 =? 0) || (y mod 400 =? 0))%Z.

Definition daysBeforeMonth (y m : Z) : Z :=
  (nth (Z.to_nat (m - 1)) [0; 31; 59; 90; 120; 151; 181; 212; 243; 273; 304; 334] 0
   + (if isLeap y && (2 <? m) then 1 else 0))%Z.

(** Timestamps of the form [YYYY-MM-DDThh:mm:ssZ], the only ones the
    examples use: nanoseconds since January 1, year 1, 00:00 UTC. *)
Definition parseUTC (value : list N) : option Z :=
  if bool_decide (length value = 20%nat /\
                  value !! 4%nat = Some 45 /\ value !! 7%nat = Some 45 /\
                  value !! 10%nat = Some 84 /\ value !! 13%nat = Some 58 /\
                  value !! 16%nat = Some 58 /\ value !! 19%nat = Some 90)
  then
    match numberOf 0 (take 4 value), numberOf 0 (take 2 (drop 5 value)),
          numberOf 0 (take 2 (drop 8 value)), numberOf 0 (take 2 (drop 11 value)),
          numberOf 0 (take 2 (drop 14 value)), numberOf 0 (take 2 (drop 17 value))
    with
    | Some y, Some m, Some d, Some h, Some mi, Some s =>
        let y' := (y - 1)%Z in
        let days := (365 * y' + y' / 4 - y' / 100 + y' / 400
                     + daysBeforeMonth y m + (d - 1))%Z in
        Some ((((days * 24 + h) * 60 + mi) * 60 + s) * 1000000000)%Z
    | _, _, _, _, _, _ => None
    end
  else None.

(** A message with the given subject, timestamp and preview, from one
    sender, and no body part. *)
Definition message (subject receivedAt preview : string) : Email.t :=
  {| Email.ID := []; Email.ThreadID := []; Email.MailboxIDs := ∅;
     Email.From := [ {| EmailAddress.Name := [];
                        EmailAddress.Email := str "a@example.com" |} ];
     Email.To := []; Email.CC := [];
     Email.Subject := str subject; Email.ReceivedAt := str receivedAt;
     Email.Preview := str preview;
     Email.TextBody := []; Email.HTMLBody := []; Email.BodyValues := ∅;
     Email.Attachments := []; Email.HasAttachment := false;
     Email.MessageID := []; Email.InReplyTo := []; Email.References := [] |}.

Definition inbox : list Email.t :=
  [ message "A" "2024-01-03T10:00:00Z" "third";
    message "B" "2024-01-02T10:00:00Z" "second";
    message "Re: A" "2024-01-01T10:00:00Z" "first" ].

Definition element (tag : string) (kids : list Node) : Node :=
  MkNode ElementNode (str tag) kids.

Definition text (s : string) : Node := MkNode TextNode (str s) [].

Definition unfetched : Email.t :=
  {| Email.ID := str "M1"; Email.ThreadID := str "T1"; Email.MailboxIDs := ∅;
     Email.From := []; Email.To := []; Email.CC := [];
     Email.Subject := str "Hello"; Email.ReceivedAt := str "2024-01-01T10:00:00Z";
     Email.Preview := str "Hello there";
     Email.TextBody := [ {| BodyPart.PartID := str "1"; BodyPart.Type_ := str "text/plain" |} ];
     Email.HTMLBody := [ {| BodyPart.PartID := str "2"; BodyPart.Type_ := str "text/html" |} ];
     Email.BodyValues := ∅;
     Email.Attachments := []; Email.HasAttachment := false;
     Email.MessageID := []; Email.InReplyTo := []; Email.References := [] |}.

(** A parser for the examples: the whole input as one text node. *)
Definition parseAsText (s : list N) : option Node :=
  Some (MkNode DocumentNode [] [MkNode TextNode s []]).

(** * More of the program *)

(** ** Package tui: the list of conversations ([tui/threadlist.go]) *)

(** Go's [int] on a 64-bit platform: the result of an operation, wrapped
    around. *)
Definition wrap64 (z : Z) : Z := ((z + 2 ^ 63) mod 2 ^ 64 - 2 ^ 63)%Z.

Module threadListModel.
Record t := {
  items : list ThreadItem.t;
  cursor : Z;
  height : Z;
  offset : Z }.
End threadListModel.

(** [newThreadListModel] *)
Definition newThreadListModel : threadListModel.t :=
  {| threadListModel.items := [];
     threadListModel.cursor := 0;
     threadListModel.height := 10;
     threadListModel.offset := 0 |}.

(** [(m *threadListModel) SetItems] *)
Definition SetItems (m : threadListModel.t) (items : list ThreadItem.t)
  : threadListModel.t :=
  {| threadListModel.items := items;
     threadListModel.cursor := 0;
     threadListModel.height := threadListModel.height m;
     threadListModel.offset := 0 |}.

(** [(m *threadListModel) SetHeight] *)
Definition SetHeight (m : threadListModel.t) (h : Z) : threadListModel.t :=
  let height := wrap64 (h - 4) in
  let height := if (height <? 3)%Z then 3%Z else height in
  {| threadListModel.items := threadListModel.items m;
     threadListModel.cursor := threadListModel.cursor m;
     threadListModel.height := height;
     threadListModel.offset := threadListModel.offset m |}.

(** [(m *threadListModel) MoveUp] *)
Definition MoveUp (m : threadListModel.t) : threadListModel.t :=
  if (0 <? threadListModel.cursor m)%Z then
    let cursor := wrap64 (threadListModel.cursor m - 1) in
    let offset :=
      if (cursor <? threadListModel.offset m)%Z then cursor
      else threadListModel.offset m in
    {| threadListModel.items := threadListModel.items m;
       threadListModel.cursor := cursor;
       threadListModel.height := threadListModel.height m;
       threadListModel.offset := offset |}
  else m.

(** [(m *threadListModel) MoveDown] *)
Definition MoveDown (m : threadListModel.t) : threadListModel.t :=
  if (threadListModel.cursor m
      <? Z.of_nat (length (threadListModel.items m)) - 1)%Z then
    let cursor := wrap64 (threadListModel.cursor m + 1) in
    let offset :=
      if (wrap64 (threadListModel.offset m + threadListModel.height m)
          <=? cursor)%Z
      then wrap64 (wrap64 (cursor - threadListModel.height m) + 1)
      else threadListModel.offset m in
    {| threadListModel.items := threadListModel.items m;
       threadListModel.cursor := cursor;
       threadListModel.height := threadListModel.height m;
       threadListModel.offset := offset |}
  else m.

(** [(m *threadListModel) Selected]: [Some None] for the nil pointer,
    nothing for the run-time panic of an index out of range. *)
Definition Selected (m : threadListModel.t) : option (option ThreadItem.t) :=
  if (length (threadListModel.items m) =? 0)%nat then Some None
  else if (0 <=? threadListModel.cursor m)%Z
          && (threadListModel.cursor m
              <? Z.of_nat (length (threadListModel.items m)))%Z
  then Some (threadListModel.items m !! Z.to_nat (threadListModel.cursor m))
  else None.

(** The calls a client makes on the list, and a run of them. *)
Inductive listCall :=
| CallSetItems (items : list ThreadItem.t)
| CallSetHeight (h : Z)
| CallMoveUp
| CallMoveDown.

Definition call (m : threadListModel.t) (c : listCall) : threadListModel.t :=
  match c with
  | CallSetItems items => SetItems m items
  | CallSetHeight h => SetHeight m h
  | CallMoveUp => MoveUp m
  | CallMoveDown => MoveDown m
  end.

Definition calls (m : threadListModel.t) (cs : list listCall)
  : threadListModel.t :=
  fold_left call cs m.

(** Sizes far from the ends of [int]. *)
Definition modest (c : listCall) : Prop :=
  match c with
  | CallSetItems items => (Z.of_nat (length items) <= 2 ^ 62)%Z
  | CallSetHeight h => (- 2 ^ 62 <= h <= 2 ^ 62)%Z
  | CallMoveUp | CallMoveDown => True
  end.

Definition isMove (c : listCall) : Prop :=
  match c with
  | CallMoveUp | CallMoveDown => True
  | CallSetItems _ | CallSetHeight _ => False
  end.

(** The cursor is on an item (or at 0 over no item) at or below the
    offset, and the sizes are modest. *)
Definition cursorOnItem (m : threadListModel.t) : Prop :=
  (0 <= threadListModel.offset m <= threadListModel.cursor m
   /\ threadListModel.cursor m
      < Z.max 1 (Z.of_nat (length (threadListModel.items m)))
   /\ Z.of_nat (length (threadListModel.items m)) <= 2 ^ 62
   /\ 3 <= threadListModel.height m <= 2 ^ 62)%Z.

(** The cursor is among the rows [View] draws. *)
Definition cursorVisible (m : threadListModel.t) : Prop :=
  (threadListModel.offset m <= threadListModel.cursor m
   < threadListModel.offset m + threadListModel.height m)%Z.

(** ** Strings as bytes

    [len(s)] and [s[:n]] count and cut bytes, not runes. [bytes s] is the
    UTF-8 encoding of [s]; an item above U+10FFFF stands for one stray byte
    of the string, between 0x80 and 0xFF. *)
Definition utf8 (r : rune) : list N :=
  if r <? 0x80 then [r]
  else if r <? 0x800 then [0xC0 + r / 0x40; 0x80 + r mod 0x40]
  else if r <? 0x10000 then
    [0xE0 + r / 0x1000; 0x80 + (r / 0x40) mod 0x40; 0x80 + r mod 0x40]
  else if r <? 0x110000 then
    [0xF0 + r / 0x40000; 0x80 + (r / 0x1000) mod 0x40;
     0x80 + (r / 0x40) mod 0x40; 0x80 + r mod 0x40]
  else [0x80 + (r - 0x110000) mod 0x80].

Definition bytes (s : gostring) : list N := concat (map utf8 s).

(** ** Package export: file names ([export/export.go]) *)

(** The characters of the class of [sanitizeFilename]: [<], [>], [:], the
    double quote, [/], the backslash, [|], [?] and [*]. *)
Definition invalidChars : list rune := [60; 62; 58; 34; 47; 92; 124; 63; 42].
Definition cls_invalid (r : rune) : bool := existsb (N.eqb r) invalidChars.
Definition reInvalid : regex := Char cls_invalid.

(** [sanitizeFilename]: the bytes of the name it returns. *)
Definition sanitizeFilename (name : gostring) : list N :=
  let name := ReplaceAllString reInvalid name (str "_") in
  let name := TrimSpace name in
  let name := bytes name in
  let name := if (50 <? length name)%nat then take 50 name else name in
  if bool_decide (name = []) then bytes (str "email") else name.

(** Every rune of the class [p] replaced by [repl]. *)
Definition replaceEach (p : N -> bool) (repl : list N) (s : list N) : list N :=
  concat (map (fun c => if p c then repl else [c]) s).

(** [strconv.Itoa] and the verb [%d]: the decimal digits, after a minus sign
    for a negative number. *)
Definition Itoa (z : Z) : gostring :=
  map N_of_ascii (list_ascii_of_string (NilZero.string_of_int (Z.to_int z))).

(** [strings.HasSuffix] and [strings.TrimSuffix] *)
Definition HasSuffix (s suffix : gostring) : bool :=
  (length suffix <=? length s)%nat
  && bool_decide (drop (length s - length suffix) s = suffix).

Definition TrimSuffix (s suffix : gostring) : gostring :=
  if HasSuffix s suffix then take (length s - length suffix) s else s.

(** [filepath.Ext] where the path separator is the slash: the text from the
    last dot of the last element of the path, empty if there is none. *)
Fixpoint extFrom (rev_path acc : gostring) : gostring :=
  match rev_path with
  | [] => []
  | c :: rest =>
      if c =? 47 then []
      else if c =? 46 then c :: acc
      else extFrom rest (c :: acc)
  end.

Definition unixExt (path : gostring) : gostring := extFrom (rev path) [].

Section Filenames.
Variable filepath_Ext : gostring -> gostring.

(** [deduplicateFilename]: the name it returns and the map it leaves. *)
Definition deduplicateFilename (name : gostring) (usedNames : gmap gostring Z)
  : gostring * gmap gostring Z :=
  match usedNames !! name with
  | None => (name, <[name := 1%Z]> usedNames)
  | Some count =>
      let usedNames := <[name := wrap64 (count + 1)]> usedNames in
      let ext := filepath_Ext name in
      let base := TrimSuffix name ext in
      (base ++ str "_" ++ Itoa count ++ ext, usedNames)
  end.

(** The loop of [ExportToFolder] over the attachments it saves: the file
    names it writes, in order, and the map at the end. *)
Fixpoint savedNames (names : list gostring) (usedNames : gmap gostring Z)
  : list gostring * gmap gostring Z :=
  match names with
  | [] => ([], usedNames)
  | name :: names =>
      let '(filename, usedNames) := deduplicateFilename name usedNames in
      let '(filenames, usedNames) := savedNames names usedNames in
      (filename :: filenames, usedNames)
  end.

(** How often [name] occurs in [names]. *)
Definition occurrences (name : gostring) (names : list gostring) : nat :=
  length (List.filter (fun n => bool_decide (n = name)) names).

(** The file name of an attachment called [name] that has [k] attachments of
    the same name before it. *)
Definition numbered (name : gostring) (k : nat) : gostring :=
  match k with
  | O => name
  | S _ =>
      TrimSuffix name (filepath_Ext name) ++ str "_" ++ Itoa (Z.of_nat k)
        ++ filepath_Ext name
  end.

(** The map after the attachments [names]: each name with its number of
    occurrences. *)
Definition counted (names : list gostring) (usedNames : gmap gostring Z) : Prop :=
  forall name,
    usedNames !! name =
    match occurrences name names with
    | O => None
    | S k => Some (Z.of_nat (S k))
    end.

End Filenames.

(** ** The command line ([main.go]) *)

(** [truncate], on the bytes of [s]; nothing stands for the run-time panic
    of a slice bound out of range. *)
Definition truncate (s : list N) (max : Z) : option (list N) :=
  if (Z.of_nat (length s) <=? max)%Z then Some s
  else
    let hi := wrap64 (max - 3) in
    if (0 <=? hi)%Z && (hi <=? Z.of_nat (length s))%Z
    then Some (take (Z.to_nat hi) s ++ bytes (str "..."))
    else None.

Module ThreadInfo.

Record t := {
  ID : Z;
  Subject : gostring;
  From : gostring;
  Date : gostring;
  EmailCount : Z;
  Preview : list N;
  EmailIDs : list gostring }.

End ThreadInfo.

Section Main.
Variable tbl : rune -> rune.
Variable time_Parse : gostring -> option Z.
Variable sort_Slice : forall A : Type, list A -> (A -> A -> bool) -> list A.

(** [t.Format("2006-01-02 15:04")] *)
Variable time_Format : Z -> gostring.

(** The body of the loop of [groupEmailsBySubject]. *)
Definition threadInfo (i : nat) (t : ThreadItem.t) : option ThreadInfo.t :=
  let emailIDs := map Email.ID (ThreadItem.Emails t) in
  let from := ThreadItem.From t in
  let from :=
    match ThreadItem.Emails t with
    | e0 :: _ =>
        match Email.From e0 with
        | a :: _ => if bool_decide (from = []) then EmailAddress.Email a else from
        | [] => from
        end
    | [] => from
    end in
  match truncate (bytes (ThreadItem.Preview t)) 100 with
  | None => None
  | Some preview =>
      Some {| ThreadInfo.ID := wrap64 (Z.of_nat i + 1);
              ThreadInfo.Subject := ThreadItem.Subject t;
              ThreadInfo.From := from;
              ThreadInfo.Date := time_Format (ThreadItem.Date t);
              ThreadInfo.EmailCount := ThreadItem.EmailCount t;
              ThreadInfo.Preview := preview;
              ThreadInfo.EmailIDs := emailIDs |}
  end.

Fixpoint threadInfos (i : nat) (threads : list ThreadItem.t)
  : option (list ThreadInfo.t) :=
  match threads with
  | [] => Some []
  | t :: threads =>
      match threadInfo i t with
      | None => None
      | Some info =>
          match threadInfos (S i) threads with
          | None => None
          | Some infos => Some (info :: infos)
          end
      end
  end.

(** [groupEmailsBySubject] of package main *)
Definition groupEmailsBySubject (emails : list Email.t)
  : option (list ThreadInfo.t) :=
  match GroupEmailsBySubject tbl time_Parse sort_Slice emails with
  | None => None
  | Some threads => threadInfos 0 threads
  end.

End Main.

(** ** Package export: the attachment list ([export/export.go]) *)

Section Attachments.

(** [fmt.Sprintf("%.1f", float64(bytes)/unit)] *)
Variable fmt_1f : Z -> Z -> gostring.







End Attachments.

(** ** Package jmap: method responses ([jmap/types.go]) *)

Module MethodResponse.

Record t := { Method : gostring; Args : list N; CallID : gostring }.

End MethodResponse.

(** How a call that can fail ends: with a value, with an error, or in a
    run-time panic. *)
Inductive outcome (A : Type) : Type :=
  | Returned (a : A)
  | Failed
  | Panicked.

Arguments Returned {A} a.
Arguments Failed {A}.
Arguments Panicked {A}.

Section Responses.

(** [json.Unmarshal(raw, &arr)] for [arr []json.RawMessage], and
    [json.Unmarshal(raw, &s)] for [s string]: the value decoded, or nothing
    on error. *)
Variable unmarshalArray : list N -> option (list (list N)).
Variable unmarshalString : list N -> option gostring.

(** [ParseMethodResponse] *)
Definition ParseMethodResponse (raw : list N) : outcome MethodResponse.t :=
  match unmarshalArray raw with
  | None => Failed
  | Some arr =>
      match arr !! 0%nat with
      | None => Panicked
      | Some arr0 =>
          match unmarshalString arr0 with
          | None => Failed
          | Some method =>
              match arr !! 2%nat with
              | None => Panicked
              | Some arr2 =>
                  match unmarshalString arr2 with
                  | None => Failed
                  | Some callID =>
                      match arr !! 1%nat with
                      | None => Panicked
                      | Some arr1 =>
                          Returned {| MethodResponse.Method := method;
                                      MethodResponse.Args := arr1;
                                      MethodResponse.CallID := callID |}
                      end
                  end
              end
          end
      end
  end.

End Responses.

(** ** More examples *)

(** A message whose second text part is the only one with a fetched
    value. *)
Definition fetched : Email.t :=
  {| Email.ID := str "M2"; Email.ThreadID := str "T1"; Email.MailboxIDs := ∅;
     Email.From := []; Email.To := []; Email.CC := [];
     Email.Subject := str "Hello"; Email.ReceivedAt := str "2024-01-01T10:00:00Z";
     Email.Preview := str "Hello there";
     Email.TextBody :=
       [ {| BodyPart.PartID := str "1"; BodyPart.Type_ := str "text/plain" |};
         {| BodyPart.PartID := str "2"; BodyPart.Type_ := str "text/plain" |} ];
     Email.HTMLBody :=
       [ {| BodyPart.PartID := str "3"; BodyPart.Type_ := str "text/html" |} ];
     Email.BodyValues :=
       {[ str "2" := {| BodyValue.Value := str "Hello there, Bob" |};
          str "3" := {| BodyValue.Value := str "<p>Hello there, Bob</p>" |} ]};
     Email.Attachments := []; Email.HasAttachment := false;
     Email.MessageID := []; Email.InReplyTo := []; Email.References := [] |}.

(** A row of the list of conversations. *)
Definition row (subject : string) : ThreadItem.t :=
  {| ThreadItem.NormalizedSubject := str subject;
     ThreadItem.Subject := str subject;
     ThreadItem.From := str "a@example.com";
     ThreadItem.Date := 0%Z;
     ThreadItem.Preview := [];
     ThreadItem.EmailCount := 1%Z;
     ThreadItem.Emails := [] |}.

(** A session on the list: a window of three rows over five conversations,
    the cursor moved down four times and up once. *)
Definition resized : list listCall := [CallSetHeight 7].

Definition rows : list ThreadItem.t :=
  [row "a"; row "b"; row "c"; row "d"; row "e"].

Definition moves : list listCall :=
  [CallMoveDown; CallMoveDown; CallMoveDown; CallMoveDown; CallMoveUp].

Definition session : list listCall := resized ++ CallSetItems rows :: moves.




(** The names of the attachments of an export. *)
Definition downloads : list gostring :=
  [str "a.txt"; str "b"; str "a.txt"; str "a.txt"].


(** [Format] for the examples: the instant as a number. *)
Definition instant (t : Z) : gostring := Itoa t.

(** Decoders for the examples: the elements of an array are separated by
    commas, and a string stands between two double quotes. *)
Definition commaArray (raw : list N) : option (list (list N)) :=
  Some (Split raw 44).

Definition quotedString (raw : list N) : option gostring :=
  match raw with
  | 34 :: rest =>
      match last rest with
      | Some 34 => Some (take (length rest - 1) rest)
      | _ => None
      end
  | _ => None
  end.

Definition quoted (s : string) : list N := 34 :: str s ++ [34].

(** * Theorems *)

(** ** The matcher on a class of runes *)

Section Engine.
Local Open Scope nat_scope.

Lemma lastRune_cons prev c l : lastRune prev (c :: l) = lastRune (Some c) l.
Proof.
  unfold lastRune. destruct l as [|d l]; [done|].
  change (last (c :: d :: l)) with (last (d :: l)).
  destruct (last (d :: l)) eqn:H; [done|]. by apply last_None in H.
Qed.

Lemma length_dropWhile {A} (p : A -> bool) (l : list A) :
  length (dropWhile p l) <= length l.
Proof. induction l as [|x l IH]; simpl; [lia|]. destruct (p x); simpl; lia. Qed.

Lemma takeWhile_dropWhile {A} (p : A -> bool) (l : list A) :
  takeWhile p l ++ dropWhile p l = l.
Proof. induction l as [|x l IH]; simpl; [done|]. destruct (p x); simpl; by rewrite ?IH. Qed.

Lemma run_Star_class p prev s :
  run (Star true (Char p)) prev s whole = classLoop p (length s) prev s.
Proof. reflexivity. Qed.

(** A greedy class repetition takes the longest run. *)
Lemma classLoop_longest p fuel : forall prev s,
  length s <= fuel ->
  classLoop p fuel prev s
  = Some (lastRune prev (takeWhile p s), dropWhile p s).
Proof.
  induction fuel as [|fuel IH]; intros prev s Hlen.
  - destruct s; [done|simpl in Hlen; lia].
  - destruct s as [|c s]; [done|]. simpl in Hlen.
    cbn [classLoop run takeWhile dropWhile]. fold (classLoop p).
    destruct (p c) eqn:Hc; [|done].
    replace (length s <? length (c :: s)) with true
      by (symmetry; apply Nat.ltb_lt; simpl; lia).
    rewrite IH by lia. cbn [orElse]. by rewrite lastRune_cons.
Qed.

Lemma matchHere_Plus p prev s :
  matchHere (Plus (Char p)) prev s =
  match s with
  | c :: s' =>
      if p c then Some (lastRune (Some c) (takeWhile p s'), dropWhile p s')
      else None
  | [] => None
  end.
Proof.
  change (matchHere (Plus (Char p)) prev s)
    with (run (Char p) prev s (fun p' s' => classLoop p (length s') p' s')).
  destruct s as [|c s]; [done|]. cbn [run].
  destruct (p c); [|done]. by apply classLoop_longest.
Qed.

Lemma matchHere_AtLeast3 p prev s :
  matchHere (AtLeast 3 (Char p)) prev s =
  match s with
  | a :: b :: c :: s' =>
      if p a && p b && p c
      then Some (lastRune (Some c) (takeWhile p s'), dropWhile p s')
      else None
  | _ => None
  end.
Proof.
  change (matchHere (AtLeast 3 (Char p)) prev s)
    with (run (Char p) prev s (fun p1 s1 =>
            run (Char p) p1 s1 (fun p2 s2 =>
              run (Char p) p2 s2 (fun p' s' =>
                classLoop p (length s') p' s')))).
  destruct s as [|a [|b [|c s]]]; cbn [run]; try done.
  - by destruct (p a).
  - by destruct (p a), (p b).
  - destruct (p a), (p b), (p c); try done. by apply classLoop_longest.
Qed.

End Engine.

Section Replace.
Local Open Scope nat_scope.

(** Where nothing matches, nothing is replaced. *)
Lemma replaceFrom_no_match r repl s : forall prev i fuel adj,
  findFrom r prev s i = None -> replaceFrom fuel r repl prev s adj = s.
Proof.
  induction s as [|c s IH]; intros prev i fuel adj Hfind;
    destruct fuel as [|fuel]; try done; cbn [findFrom replaceFrom] in *;
    destruct (matchHere r prev _) as [[p' s']|]; try done.
  f_equal. by apply (IH _ (S i)).
Qed.

Lemma ReplaceAllString_no_match r s repl :
  FindStringIndex r s = None -> ReplaceAllString r s repl = s.
Proof. apply replaceFrom_no_match. Qed.

Lemma squeeze_cons p repl c s :
  squeeze p repl (c :: s) =
  if p c then
    if startsWith p s then squeeze p repl s else repl ++ squeeze p repl s
  else c :: squeeze p repl s.
Proof. reflexivity. Qed.

Lemma squeezeNewlines_cons c s :
  squeezeNewlines (c :: s) =
  if isNewline c && startsWith isNewline s && startsWith isNewline (tail s)
  then squeezeNewlines s else c :: squeezeNewlines s.
Proof. reflexivity. Qed.

Lemma squeeze_run p repl c s :
  p c = true ->
  squeeze p repl (c :: s) = repl ++ squeeze p repl (dropWhile p s).
Proof.
  revert c. induction s as [|d s IH]; intros c Hc; rewrite squeeze_cons, Hc.
  - done.
  - cbn [startsWith dropWhile]. destruct (p d) eqn:Hd; [by apply IH|].
    done.
Qed.

Lemma replaceFrom_Plus p repl fuel : forall prev s adj,
  length s < fuel ->
  replaceFrom fuel (Plus (Char p)) repl prev s adj = squeeze p repl s.
Proof.
  induction fuel as [|fuel IH]; intros prev s adj Hlen; [lia|].
  cbn [replaceFrom]. rewrite matchHere_Plus.
  destruct s as [|c s]; [done|]. simpl in Hlen.
  destruct (p c) eqn:Hc.
  - pose proof (length_dropWhile p s).
    replace (length (dropWhile p s) <? length (c :: s)) with true
      by (symmetry; apply Nat.ltb_lt; simpl; lia).
    rewrite IH by lia. by rewrite squeeze_run.
  - rewrite IH by lia. by rewrite squeeze_cons, Hc.
Qed.

Lemma ReplaceAllString_Plus p s repl :
  ReplaceAllString (Plus (Char p)) s repl = squeeze p repl s.
Proof. apply replaceFrom_Plus. lia. Qed.

Lemma squeezeNewlines_run s :
  squeezeNewlines (nl :: nl :: s)
  = nl :: nl :: squeezeNewlines (dropWhile isNewline s).
Proof.
  induction s as [|c s IH]; [done|].
  cbn [dropWhile]. destruct (isNewline c) eqn:Hc.
  - apply N.eqb_eq in Hc as <-. rewrite <- IH.
    by rewrite (squeezeNewlines_cons nl (nl :: nl :: s)).
  - rewrite (squeezeNewlines_cons nl (nl :: c :: s)).
    cbn [startsWith tail]. rewrite Hc, andb_false_r.
    rewrite (squeezeNewlines_cons nl (c :: s)).
    cbn [startsWith tail]. by rewrite Hc, andb_false_r.
Qed.

Lemma replaceFrom_newlines fuel : forall prev s adj,
  length s < fuel ->
  replaceFrom fuel reNewlines (str "\n\n") prev s adj = squeezeNewlines s.
Proof.
  induction fuel as [|fuel IH]; intros prev s adj Hlen; [lia|].
  cbn [replaceFrom].
  change reNewlines with (AtLeast 3 (Char isNewline)) at 1.
  rewrite matchHere_AtLeast3.
  destruct s as [|a s]; [done|]. simpl in Hlen.
  rewrite squeezeNewlines_cons.
  destruct s as [|b s].
  { rewrite IH by (simpl in *; lia). cbn [startsWith]. by rewrite andb_false_r. }
  destruct s as [|c s].
  { rewrite IH by (simpl in *; lia). cbn [startsWith tail]. by rewrite andb_false_r. }
  cbn [startsWith tail].
  destruct (isNewline a && isNewline b && isNewline c) eqn:Habc.
  - pose proof (length_dropWhile isNewline s).
    replace (length (dropWhile isNewline s) <? length (a :: b :: c :: s))
      with true by (symmetry; apply Nat.ltb_lt; simpl; lia).
    rewrite IH by (simpl in *; lia).
    apply andb_prop in Habc as [Hab Hc]. apply andb_prop in Hab as [Ha Hb].
    apply N.eqb_eq in Ha, Hb, Hc. subst a b c.
    rewrite squeezeNewlines_run.
    change (dropWhile isNewline (nl :: s)) with (dropWhile isNewline s).
    done.
  - by rewrite IH by (simpl in *; lia).
Qed.

Lemma ReplaceAllString_newlines s :
  ReplaceAllString reNewlines s (str "\n\n") = squeezeNewlines s.
Proof. apply replaceFrom_newlines. lia. Qed.

End Replace.

(** ** Trimming *)

Section Trim.
Local Open Scope nat_scope.

Lemma TrimRight_cons c s :
  TrimRight (c :: s) =
  match TrimRight s with
  | [] => if IsSpace c then [] else [c]
  | t => c :: t
  end.
Proof. reflexivity. Qed.

Lemma dropWhile_fix {A} (p : A -> bool) (l : list A) :
  dropWhile p l = l <-> match l with x :: _ => p x = false | [] => True end.
Proof.
  destruct l as [|x l]; [done|]. simpl. destruct (p x) eqn:Hx.
  - split; [|done]. intros H. pose proof (length_dropWhile p l) as Hlen.
    rewrite H in Hlen. simpl in Hlen. lia.
  - done.
Qed.

Lemma TrimLeft_fix s : TrimLeft s = s <-> startsWith IsSpace s = false.
Proof.
  unfold TrimLeft. rewrite dropWhile_fix. destruct s; simpl; [|done].
  split; done.
Qed.

Lemma dropWhile_idem {A} (p : A -> bool) (l : list A) :
  dropWhile p (dropWhile p l) = dropWhile p l.
Proof.
  induction l as [|x l IH]; [done|]. simpl. destruct (p x) eqn:Hx; [done|].
  simpl. by rewrite Hx.
Qed.

Lemma TrimLeft_idem s : TrimLeft (TrimLeft s) = TrimLeft s.
Proof. apply dropWhile_idem. Qed.

Lemma TrimRight_nil_iff s : TrimRight s = [] <-> forallb IsSpace s = true.
Proof.
  induction s as [|c s IH]; [done|]. rewrite TrimRight_cons. simpl.
  destruct (TrimRight s) as [|d t] eqn:Ht.
  - destruct (IsSpace c); simpl; [|done]. split; [intros _; by apply IH|done].
  - split; [done|]. intros [_ H]%andb_prop. apply IH in H. done.
Qed.

Lemma TrimRight_idem s : TrimRight (TrimRight s) = TrimRight s.
Proof.
  induction s as [|c s IH]; [done|]. rewrite TrimRight_cons.
  destruct (TrimRight s) as [|d t] eqn:Ht.
  - destruct (IsSpace c) eqn:Hc; [done|]. cbn. by rewrite Hc.
  - rewrite TrimRight_cons, IH. done.
Qed.

Lemma TrimRight_prefix s : exists post, s = TrimRight s ++ post.
Proof.
  induction s as [|c s [post IH]]; [by exists []|]. rewrite TrimRight_cons.
  destruct (TrimRight s) as [|d t].
  - destruct (IsSpace c); [by exists (c :: s)|]. exists post. simpl. by f_equal.
  - exists post. simpl. by f_equal.
Qed.

Lemma TrimLeft_suffix s : exists pre, s = pre ++ TrimLeft s.
Proof.
  exists (takeWhile IsSpace s). symmetry. apply takeWhile_dropWhile.
Qed.

Lemma startsWith_TrimRight s :
  startsWith IsSpace s = false -> startsWith IsSpace (TrimRight s) = false.
Proof.
  destruct s as [|c s]; [done|]. rewrite TrimRight_cons. simpl. intros Hc.
  destruct (TrimRight s); [by rewrite Hc|done].
Qed.

Lemma trimmed_TrimSpace s : trimmed (TrimSpace s).
Proof.
  unfold TrimSpace. split; [|apply TrimRight_idem].
  apply TrimLeft_fix, startsWith_TrimRight, TrimLeft_fix, TrimLeft_idem.
Qed.

Lemma TrimSpace_trimmed s : trimmed s -> TrimSpace s = s.
Proof. intros [Hl Hr]. unfold TrimSpace. by rewrite Hl, Hr. Qed.

Lemma TrimSpace_idem s : TrimSpace (TrimSpace s) = TrimSpace s.
Proof. apply TrimSpace_trimmed, trimmed_TrimSpace. Qed.

Lemma trimmed_nil : trimmed [].
Proof. done. Qed.

Lemma length_TrimRight s : length (TrimRight s) <= length s.
Proof.
  destruct (TrimRight_prefix s) as [post H]. rewrite H at 2.
  rewrite length_app. lia.
Qed.

Lemma length_TrimSpace s : length (TrimSpace s) <= length s.
Proof.
  unfold TrimSpace, TrimLeft. pose proof (length_TrimRight (dropWhile IsSpace s)).
  pose proof (length_dropWhile IsSpace s). lia.
Qed.

(** The trimmed text sits inside the text. *)
Lemma TrimSpace_infix s : exists pre post, s = pre ++ TrimSpace s ++ post.
Proof.
  destruct (TrimLeft_suffix s) as [pre Hpre].
  destruct (TrimRight_prefix (TrimLeft s)) as [post Hpost].
  exists pre, post. unfold TrimSpace. by rewrite <- Hpost.
Qed.

End Trim.

(** ** Lines *)

Section Lines.
Local Open Scope nat_scope.

Lemma Split_cons c s :
  Split (c :: s) nl =
  if (c =? nl)%N then [] :: Split s nl
  else match Split s nl with
       | [] => [[c]]
       | l :: ls => (c :: l) :: ls
       end.
Proof. reflexivity. Qed.

Lemma Split_not_nil s : Split s nl <> [].
Proof.
  destruct s as [|c s]; [done|]. rewrite Split_cons.
  destruct (c =? nl)%N; [done|]. by destruct (Split s nl).
Qed.

Lemma Join_cons l l' ls :
  Join (l :: l' :: ls) lineBreak = l ++ nl :: Join (l' :: ls) lineBreak.
Proof. reflexivity. Qed.

Lemma Join_Split s : Join (Split s nl) lineBreak = s.
Proof.
  induction s as [|c s IH]; [done|]. rewrite Split_cons.
  pose proof (Split_not_nil s) as Hne.
  destruct (N.eqb_spec c nl) as [->|Hc].
  - destruct (Split s nl) as [|l ls]; [done|]. rewrite Join_cons. by rewrite IH.
  - destruct (Split s nl) as [|l ls]; [done|].
    destruct ls as [|l' ls]; simpl in *; by rewrite <- IH.
Qed.

Lemma Split_noNewline s : Forall noNewline (Split s nl).
Proof.
  induction s as [|c s IH].
  - constructor; [|done]. apply not_elem_of_nil.
  - rewrite Split_cons. destruct (N.eqb_spec c nl) as [->|Hc].
    + constructor; [apply not_elem_of_nil|done].
    + destruct (Split s nl) as [|l ls].
      * constructor; [|done]. unfold noNewline. rewrite elem_of_cons.
        intros [?|?%elem_of_nil]; congruence.
      * inversion IH as [|? ? Hl Hls]; subst. constructor; [|done].
        unfold noNewline in *. rewrite elem_of_cons. naive_solver.
Qed.

Lemma Split_line l : noNewline l -> Split l nl = [l].
Proof.
  induction l as [|c l IH]; intros Hl; [done|].
  unfold noNewline in *. rewrite not_elem_of_cons in Hl. destruct Hl as [Hc Hl].
  rewrite Split_cons. destruct (N.eqb_spec c nl); [congruence|].
  by rewrite IH.
Qed.

Lemma Split_app_line l s :
  noNewline l -> Split (l ++ nl :: s) nl = l :: Split s nl.
Proof.
  induction l as [|c l IH]; intros Hl; [done|].
  unfold noNewline in *. rewrite not_elem_of_cons in Hl. destruct Hl as [Hc Hl].
  rewrite <- app_comm_cons, Split_cons.
  destruct (N.eqb_spec c nl); [congruence|]. by rewrite IH.
Qed.

Lemma Split_Join ls :
  ls <> [] -> Forall noNewline ls -> Split (Join ls lineBreak) nl = ls.
Proof.
  induction ls as [|l ls IH]; intros Hne Hls; [done|].
  inversion Hls as [|? ? Hl Hls']; subst.
  destruct ls as [|l' ls]; [by apply Split_line|].
  rewrite Join_cons, Split_app_line by done. by rewrite IH.
Qed.

Lemma noNewline_infix l pre post :
  noNewline (pre ++ l ++ post) -> noNewline l.
Proof. unfold noNewline. rewrite !elem_of_app. naive_solver. Qed.

Lemma noNewline_TrimSpace l : noNewline l -> noNewline (TrimSpace l).
Proof.
  destruct (TrimSpace_infix l) as (pre & post & H). intros Hl.
  rewrite H in Hl. by apply noNewline_infix in Hl.
Qed.

Lemma length_Join_le (ls1 ls2 : list (list N)) :
  Forall2 (fun a b => length a <= length b) ls1 ls2 ->
  length (Join ls1 lineBreak) <= length (Join ls2 lineBreak).
Proof.
  induction 1 as [|a b ls1 ls2 Hab Hls IH]; [done|].
  destruct Hls as [|a' b' ls1 ls2 Hab' Hls]; [done|].
  rewrite (Join_cons a), (Join_cons b), !length_app. cbn [length]. lia.
Qed.

End Lines.

(** ** Squeezed runs and blank runs *)

Section Squeezed.
Local Open Scope nat_scope.
Variable p : N -> bool.
Variable c : N.

Lemma squeezed_cons x s :
  squeezed p c (x :: s) =
  (negb (p x) || ((x =? c)%N && negb (startsWith p s))) && squeezed p c s.
Proof. reflexivity. Qed.

Lemma startsWith_squeeze s :
  p c = true -> startsWith p (squeeze p [c] s) = startsWith p s.
Proof.
  intros Hc. induction s as [|x s IH]; [done|].
  rewrite squeeze_cons. cbn [startsWith].
  destruct (p x) eqn:Hx; [|by cbn; rewrite Hx].
  destruct (startsWith p s); [done|]. cbn. done.
Qed.

Lemma squeezed_squeeze s : p c = true -> squeezed p c (squeeze p [c] s) = true.
Proof.
  intros Hc. induction s as [|x s IH]; [done|].
  rewrite squeeze_cons. destruct (p x) eqn:Hx.
  - destruct (startsWith p s) eqn:Hs; [done|].
    cbn [app]. rewrite squeezed_cons, IH, startsWith_squeeze, Hs, N.eqb_refl by done.
    by rewrite orb_true_r.
  - by rewrite squeezed_cons, Hx, IH.
Qed.

Lemma squeeze_squeezed s : squeezed p c s = true -> squeeze p [c] s = s.
Proof.
  induction s as [|x s IH]; [done|]. rewrite squeezed_cons, squeeze_cons.
  intros [Hx Hs]%andb_prop. rewrite (IH Hs).
  destruct (p x); [|done]. cbn in Hx.
  apply andb_prop in Hx as [->%N.eqb_eq Hn]. apply negb_true_iff in Hn.
  by rewrite Hn.
Qed.

Lemma squeezed_suffix a b : squeezed p c (a ++ b) = true -> squeezed p c b = true.
Proof.
  induction a as [|x a IH]; [done|]. rewrite <- app_comm_cons, squeezed_cons.
  intros [_ H]%andb_prop. by apply IH.
Qed.

Lemma squeezed_prefix a b : squeezed p c (a ++ b) = true -> squeezed p c a = true.
Proof.
  induction a as [|x a IH]; [done|]. rewrite <- app_comm_cons, !squeezed_cons.
  intros [Hx H]%andb_prop. rewrite (IH H), andb_true_r.
  destruct a as [|y a]; [|exact Hx]. cbn [startsWith negb].
  destruct (p x); [|done]. cbn in *. apply andb_prop in Hx as [-> _]. done.
Qed.

Lemma squeezed_infix a s b :
  squeezed p c (a ++ s ++ b) = true -> squeezed p c s = true.
Proof. intros H. by apply squeezed_suffix, squeezed_prefix in H. Qed.

Lemma squeezed_TrimSpace s : squeezed p c s = true -> squeezed p c (TrimSpace s) = true.
Proof.
  destruct (TrimSpace_infix s) as (pre & post & H). intros Hs.
  rewrite H in Hs. by apply squeezed_infix in Hs.
Qed.

Hypothesis p_newline : p nl = false.

Lemma squeezed_app_line a b :
  squeezed p c a = true -> squeezed p c b = true ->
  squeezed p c (a ++ nl :: b) = true.
Proof using p_newline.
  intros Ha Hb. induction a as [|x a IH].
  - cbn [app]. by rewrite squeezed_cons, p_newline, Hb.
  - rewrite <- app_comm_cons, squeezed_cons.
    rewrite squeezed_cons in Ha. apply andb_prop in Ha as [Hx Ha].
    rewrite (IH Ha), andb_true_r.
    destruct a as [|y a]; [|exact Hx]. cbn [app startsWith].
    rewrite p_newline. cbn [startsWith] in Hx. exact Hx.
Qed.

Lemma squeezed_Join ls :
  Forall (fun l => squeezed p c l = true) ls ->
  squeezed p c (Join ls lineBreak) = true.
Proof using p_newline.
  induction 1 as [|l ls Hl Hls IH]; [done|].
  destruct ls as [|l' ls]; [done|]. rewrite Join_cons.
  by apply squeezed_app_line.
Qed.

Lemma squeezed_lines ls :
  squeezed p c (Join ls lineBreak) = true ->
  Forall (fun l => squeezed p c l = true) ls.
Proof.
  induction ls as [|l ls IH]; [done|]. destruct ls as [|l' ls].
  - intros H. by constructor.
  - rewrite Join_cons. intros H. constructor.
    + by apply squeezed_prefix in H.
    + apply IH. apply squeezed_suffix in H.
      by apply (squeezed_suffix [nl]) in H.
Qed.

Lemma squeezed_Split s :
  squeezed p c s = true -> Forall (fun l => squeezed p c l = true) (Split s nl).
Proof. intros H. apply squeezed_lines. by rewrite Join_Split. Qed.

Lemma startsWith_squeezeNewlines (q : N -> bool) s :
  startsWith q (squeezeNewlines s) = startsWith q s /\
  startsWith q (tail (squeezeNewlines s)) = startsWith q (tail s).
Proof.
  induction s as [|x s [IH1 IH2]]; [done|]. rewrite squeezeNewlines_cons.
  destruct (isNewline x && startsWith isNewline s
            && startsWith isNewline (tail s)) eqn:Hrun.
  - apply andb_prop in Hrun as [Hrun H2]. apply andb_prop in Hrun as [Hx H1].
    apply N.eqb_eq in Hx as <-.
    destruct s as [|y s]; [done|]. cbn [startsWith tail] in *.
    apply N.eqb_eq in H1 as <-.
    destruct s as [|z s]; [done|]. cbn [startsWith tail] in *.
    apply N.eqb_eq in H2 as <-.
    rewrite IH1, IH2. done.
  - cbn [startsWith tail]. done.
Qed.

Lemma squeezed_squeezeNewlines s :
  squeezed p c s = true -> squeezed p c (squeezeNewlines s) = true.
Proof.
  induction s as [|x s IH]; [done|]. rewrite squeezed_cons, squeezeNewlines_cons.
  intros [Hx Hs]%andb_prop.
  destruct (isNewline x && startsWith isNewline s
            && startsWith isNewline (tail s)); [by apply IH|].
  rewrite squeezed_cons, (IH Hs), andb_true_r.
  by rewrite (proj1 (startsWith_squeezeNewlines p s)).
Qed.

End Squeezed.

Section BlankRuns.
Local Open Scope nat_scope.

Lemma hasBlankRun_cons x s :
  hasBlankRun (x :: s) =
  isNewline x && startsWith isNewline s && startsWith isNewline (tail s)
  || hasBlankRun s.
Proof. reflexivity. Qed.

Lemma hasBlankRun_squeezeNewlines s : hasBlankRun (squeezeNewlines s) = false.
Proof.
  induction s as [|x s IH]; [done|]. rewrite squeezeNewlines_cons.
  destruct (isNewline x && startsWith isNewline s
            && startsWith isNewline (tail s)) eqn:Hrun; [done|].
  rewrite hasBlankRun_cons, IH, orb_false_r.
  destruct (startsWith_squeezeNewlines isNewline s) as [-> ->]. done.
Qed.

Lemma squeezeNewlines_fix s : hasBlankRun s = false -> squeezeNewlines s = s.
Proof.
  induction s as [|x s IH]; [done|]. rewrite hasBlankRun_cons, squeezeNewlines_cons.
  intros [-> Hs]%orb_false_elim. by rewrite IH.
Qed.

Lemma length_squeezeNewlines s : length (squeezeNewlines s) <= length s.
Proof.
  induction s as [|x s IH]; [done|]. rewrite squeezeNewlines_cons.
  destruct (_ && _); simpl; lia.
Qed.

Lemma squeezeNewlines_shorter s :
  hasBlankRun s = true -> length (squeezeNewlines s) < length s.
Proof.
  induction s as [|x s IH]; [done|]. rewrite hasBlankRun_cons, squeezeNewlines_cons.
  pose proof (length_squeezeNewlines s).
  destruct (isNewline x && startsWith isNewline s
            && startsWith isNewline (tail s)); simpl.
  - intros _. lia.
  - intros Hs. apply IH in Hs. lia.
Qed.

Lemma hasBlankRun_suffix a b :
  hasBlankRun b = true -> hasBlankRun (a ++ b) = true.
Proof.
  intros Hb. induction a as [|x a IH]; [done|].
  rewrite <- app_comm_cons, hasBlankRun_cons, IH. apply orb_true_r.
Qed.

Lemma hasBlankRun_prefix a b :
  hasBlankRun a = true -> hasBlankRun (a ++ b) = true.
Proof.
  induction a as [|x a IH]; [done|].
  rewrite <- app_comm_cons, !hasBlankRun_cons.
  intros [Hrun|Ha]%orb_prop; [|by rewrite IH, orb_true_r].
  apply andb_prop in Hrun as [Hrun H2]. apply andb_prop in Hrun as [Hx H1].
  destruct a as [|y [|z a]]; try done. cbn [app startsWith tail] in *.
  by rewrite Hx, H1, H2.
Qed.

Lemma hasBlankRun_infix a s b :
  hasBlankRun (a ++ s ++ b) = false -> hasBlankRun s = false.
Proof.
  intros H. destruct (hasBlankRun s) eqn:Hs; [|done].
  rewrite hasBlankRun_suffix in H; [done|]. by apply hasBlankRun_prefix.
Qed.

Lemma hasBlankRun_TrimSpace s :
  hasBlankRun s = false -> hasBlankRun (TrimSpace s) = false.
Proof.
  destruct (TrimSpace_infix s) as (pre & post & H). intros Hs.
  rewrite H in Hs. by apply hasBlankRun_infix in Hs.
Qed.

End BlankRuns.

(** ** [cleanWhitespace] *)

Section TrimmedLines.
Local Open Scope nat_scope.

Lemma TrimRight_app a b :
  TrimRight (a ++ b) =
  match TrimRight b with [] => TrimRight a | t => a ++ t end.
Proof.
  induction a as [|x a IH]; cbn [app].
  - by destruct (TrimRight b).
  - rewrite !TrimRight_cons, IH. destruct (TrimRight b) as [|y t]; [done|].
    by destruct a.
Qed.

Lemma TrimLeft_lines ls :
  ls <> [] -> Forall trimmed ls ->
  exists ls', ls' <> [] /\ ls' ⊆ ls /\
              TrimLeft (Join ls lineBreak) = Join ls' lineBreak.
Proof.
  induction ls as [|l ls IH]; intros Hne Hls; [done|].
  inversion Hls as [|? ? [Hl _] Hls']; subst.
  destruct ls as [|l' ls].
  - exists [l]. by repeat split.
  - rewrite Join_cons. destruct l as [|x l].
    + destruct IH as (ls2 & Hne2 & Hsub & Heq); [done|done|].
      exists ls2. split; [done|]. split; [set_solver|]. exact Heq.
    + exists ((x :: l) :: l' :: ls). split; [done|]. split; [done|].
      rewrite Join_cons. apply TrimLeft_fix. apply TrimLeft_fix in Hl. exact Hl.
Qed.

Lemma TrimRight_lines ls :
  ls <> [] -> Forall trimmed ls ->
  exists ls', ls' <> [] /\ ls' ⊆ ls /\
              TrimRight (Join ls lineBreak) = Join ls' lineBreak.
Proof.
  induction ls as [|l ls IH]; intros Hne Hls; [done|].
  inversion Hls as [|? ? [_ Hr] Hls']; subst.
  destruct ls as [|l' ls].
  - exists [l]. by repeat split.
  - rewrite Join_cons, TrimRight_app, TrimRight_cons.
    destruct IH as (ls2 & Hne2 & Hsub & ->); [done|done|].
    destruct (Join ls2 lineBreak) as [|y t] eqn:Hj.
    + change (IsSpace nl) with true. cbn iota. rewrite Hr.
      exists [l]. split; [done|]. split; [set_solver|done].
    + exists (l :: ls2). split; [done|]. split; [set_solver|].
      destruct ls2 as [|l2 ls2]; [done|]. by rewrite Join_cons, Hj.
Qed.

(** Trimming a text whose lines are trimmed leaves trimmed lines. *)
Lemma TrimSpace_lines ls :
  ls <> [] -> Forall trimmed ls -> Forall noNewline ls ->
  exists ls', ls' <> [] /\ ls' ⊆ ls /\
              TrimSpace (Join ls lineBreak) = Join ls' lineBreak.
Proof.
  intros Hne Ht Hn.
  destruct (TrimLeft_lines ls Hne Ht) as (ls1 & Hne1 & Hsub1 & Heq1).
  assert (Forall trimmed ls1) as Ht1.
  { apply Forall_forall. intros l Hl. rewrite Forall_forall in Ht. apply Ht. set_solver. }
  destruct (TrimRight_lines ls1 Hne1 Ht1) as (ls2 & Hne2 & Hsub2 & Heq2).
  exists ls2. split; [done|]. split; [set_solver|].
  unfold TrimSpace. by rewrite Heq1, Heq2.
Qed.

End TrimmedLines.

Section CleanWhitespace.
Local Open Scope nat_scope.

Lemma cleanWhitespace_eq s :
  cleanWhitespace s = TrimSpace (Join (cleanedLines s) lineBreak).
Proof.
  unfold cleanWhitespace, cleanedLines, reSpaces.
  by rewrite ReplaceAllString_Plus, ReplaceAllString_newlines.
Qed.

Lemma cleanedLines_facts s :
  cleanedLines s <> [] /\ Forall trimmed (cleanedLines s) /\
  Forall noNewline (cleanedLines s) /\
  Forall (fun l => blanksSqueezed l = true) (cleanedLines s).
Proof.
  unfold cleanedLines.
  set (t := squeezeNewlines (squeeze cls_blank [sp] s)).
  assert (blanksSqueezed t = true) as Ht.
  { apply squeezed_squeezeNewlines. by apply squeezed_squeeze. }
  repeat split.
  - intros H%map_eq_nil. by apply Split_not_nil in H.
  - apply Forall_map, Forall_forall. intros l _. apply trimmed_TrimSpace.
  - apply Forall_map. eapply Forall_impl; [apply Split_noNewline|].
    intros l. apply noNewline_TrimSpace.
  - apply Forall_map. eapply Forall_impl; [by apply squeezed_Split|].
    intros l. apply squeezed_TrimSpace.
Qed.

(** What the cleaned text looks like. *)
Lemma cleanWhitespace_shape s :
  let t := cleanWhitespace s in
  blanksSqueezed t = true /\ Forall trimmed (Split t nl) /\ trimmed t.
Proof.
  intros t. subst t. rewrite cleanWhitespace_eq.
  destruct (cleanedLines_facts s) as (Hne & Ht & Hn & Hb).
  destruct (TrimSpace_lines _ Hne Ht Hn) as (ls & Hne' & Hsub & Heq).
  split; [|split].
  - apply squeezed_TrimSpace. by apply squeezed_Join.
  - rewrite Heq, Split_Join; [| done |].
    + apply Forall_forall. intros l Hl. rewrite Forall_forall in Ht. apply Ht. set_solver.
    + apply Forall_forall. intros l Hl. rewrite Forall_forall in Hn. apply Hn. set_solver.
  - apply trimmed_TrimSpace.
Qed.

Lemma cleanWhitespace_fix t :
  blanksSqueezed t = true -> Forall trimmed (Split t nl) -> trimmed t ->
  hasBlankRun t = false -> cleanWhitespace t = t.
Proof.
  intros Hb Hl Ht Hr. rewrite cleanWhitespace_eq. unfold cleanedLines.
  rewrite (squeeze_squeezed _ _ _ Hb), (squeezeNewlines_fix _ Hr).
  replace (map TrimSpace (Split t nl)) with (Split t nl).
  - rewrite Join_Split. by apply TrimSpace_trimmed.
  - symmetry. rewrite <- (map_id (Split t nl)) at 2. apply map_ext_Forall.
    eapply Forall_impl; [exact Hl|]. intros l. apply TrimSpace_trimmed.
Qed.

Lemma length_cleanWhitespace t :
  length (cleanWhitespace t)
  <= length (squeezeNewlines (squeeze cls_blank [sp] t)).
Proof.
  rewrite cleanWhitespace_eq. etrans; [apply length_TrimSpace|].
  unfold cleanedLines.
  set (u := squeezeNewlines (squeeze cls_blank [sp] t)).
  rewrite <- (Join_Split u) at 2. apply length_Join_le.
  induction (Split u nl) as [|l ls IH]; constructor; [apply length_TrimSpace|done].
Qed.

Lemma cleanWhitespace_shrinks t :
  blanksSqueezed t = true -> hasBlankRun t = true ->
  length (cleanWhitespace t) < length t.
Proof.
  intros Hb Hr. pose proof (length_cleanWhitespace t) as Hlen.
  rewrite (squeeze_squeezed _ _ _ Hb) in Hlen.
  pose proof (squeezeNewlines_shorter t Hr). lia.
Qed.

(** Cleaning twice is cleaning once exactly when the cleaned text holds no
    three newlines in a row. *)
Lemma cleanWhitespace_twice s :
  cleanWhitespace (cleanWhitespace s) = cleanWhitespace s
  <-> hasBlankRun (cleanWhitespace s) = false.
Proof.
  destruct (cleanWhitespace_shape s) as (Hb & Hl & Ht). split.
  - intros Heq. destruct (hasBlankRun (cleanWhitespace s)) eqn:Hr; [|done].
    pose proof (cleanWhitespace_shrinks _ Hb Hr) as Hlt.
    rewrite Heq in Hlt. lia.
  - by apply cleanWhitespace_fix.
Qed.

End CleanWhitespace.

Section BlankLines.
Local Open Scope nat_scope.

Lemma blankPair_head l l' ls : blankPair (l :: ls) = blankPair (l' :: ls).
Proof. reflexivity. Qed.

Lemma startsWith_Split s :
  startsWith isNewline s && startsWith isNewline (tail s) =
  match Split s nl with
  | l1 :: l2 :: _ :: _ => isEmpty l1 && isEmpty l2
  | _ => false
  end.
Proof.
  destruct s as [|a s]; [done|]. rewrite Split_cons. cbn [startsWith tail].
  unfold isNewline, only. rewrite (N.eqb_sym nl a).
  destruct (a =? nl)%N.
  - destruct s as [|b s]; [done|]. rewrite Split_cons. cbn [startsWith].
    rewrite (N.eqb_sym nl b). destruct (b =? nl)%N.
    + pose proof (Split_not_nil s). by destruct (Split s nl).
    + pose proof (Split_not_nil s). destruct (Split s nl) as [|l [|l' ls]]; done.
  - pose proof (Split_not_nil s). destruct (Split s nl) as [|l [|l' [|l'' ls]]]; done.
Qed.

Lemma hasBlankRun_lines s : hasBlankRun s = blankPair (Split s nl).
Proof.
  induction s as [|c s IH]; [done|]. rewrite hasBlankRun_cons, Split_cons.
  unfold isNewline at 1, only. rewrite (N.eqb_sym nl c).
  destruct (c =? nl)%N.
  - cbn [blankPair andb]. by rewrite <- IH, startsWith_Split.
  - cbn [andb orb]. rewrite IH. pose proof (Split_not_nil s).
    destruct (Split s nl) as [|l ls]; [done|]. apply blankPair_head.
Qed.

Lemma TrimSpace_nil_iff l : TrimSpace l = [] <-> forallb IsSpace l = true.
Proof.
  unfold TrimSpace. rewrite TrimRight_nil_iff. unfold TrimLeft.
  induction l as [|x l IH]; [done|]. simpl. destruct (IsSpace x) eqn:Hx; [done|].
  simpl. by rewrite Hx.
Qed.

Lemma blankLinesEmpty_spec s :
  blankLinesEmpty s = true <-> Forall emptyIfBlank (Split s nl).
Proof.
  unfold blankLinesEmpty. rewrite forallb_forall, Forall_forall.
  split; intros H l Hl.
  - apply list_elem_of_In, H in Hl. intros Hb%TrimSpace_nil_iff.
    rewrite Hb in Hl. by destruct l.
  - apply list_elem_of_In, H in Hl. unfold emptyIfBlank in Hl.
    rewrite TrimSpace_nil_iff in Hl.
    destruct (forallb IsSpace l); [|done]. by rewrite Hl.
Qed.

Lemma blankPair_TrimSpace ls :
  Forall emptyIfBlank ls ->
  blankPair (map TrimSpace ls) = true -> blankPair ls = true.
Proof.
  induction 1 as [|l ls Hl Hls IH]; [done|]. cbn [map blankPair].
  intros [Hhere|Hrest]%orb_prop; [|by rewrite (IH Hrest), orb_true_r].
  destruct Hls as [|l1 ? Hl1 Hls]; [done|]. cbn [map] in Hhere.
  destruct Hls as [|l2 ? Hl2 Hls]; [done|]. cbn [map] in Hhere.
  destruct Hls as [|l3 ? Hl3 Hls]; [done|]. cbn [map] in Hhere.
  apply andb_prop in Hhere as [H1 H2].
  assert (l1 = []) as -> by (apply Hl1; by destruct (TrimSpace l1)).
  assert (l2 = []) as -> by (apply Hl2; by destruct (TrimSpace l2)).
  done.
Qed.

(** Squeezing blanks works line by line. *)
Lemma startsWith_first_line (p : N -> bool) s :
  p nl = false ->
  startsWith p (hd [] (Split s nl)) = startsWith p s.
Proof.
  intros Hp. destruct s as [|x s]; [done|]. rewrite Split_cons.
  destruct (N.eqb_spec x nl) as [->|Hx]; [by cbn; rewrite Hp|].
  by destruct (Split s nl).
Qed.

Lemma Split_squeeze (p : N -> bool) c s :
  p nl = false -> c <> nl ->
  Split (squeeze p [c] s) nl = map (squeeze p [c]) (Split s nl).
Proof.
  intros Hp Hc. induction s as [|x s IH]; [done|].
  rewrite squeeze_cons, (Split_cons x).
  pose proof (Split_not_nil s) as Hne.
  pose proof (startsWith_first_line p s Hp) as Hhd.
  destruct (N.eqb_spec x nl) as [->|Hx].
  - rewrite Hp, Split_cons, N.eqb_refl, IH. done.
  - destruct (Split s nl) as [|l0 ls0]; [done|]. cbn [hd] in Hhd.
    cbn [map]. rewrite squeeze_cons, Hhd. destruct (p x).
    + destruct (startsWith p s); [exact IH|].
      cbn [app]. rewrite Split_cons, IH.
      destruct (N.eqb_spec c nl); [done|]. done.
    + rewrite Split_cons, IH. destruct (N.eqb_spec x nl); [done|]. done.
Qed.

Lemma forallb_squeeze s :
  forallb IsSpace (squeeze cls_blank [sp] s) = true -> forallb IsSpace s = true.
Proof.
  induction s as [|x s IH]; [done|]. rewrite squeeze_cons. cbn [forallb].
  destruct (cls_blank x) eqn:Hx.
  - assert (IsSpace x = true) as ->.
    { unfold cls_blank in Hx. apply orb_prop in Hx as [->%N.eqb_eq| ->%N.eqb_eq]; done. }
    destruct (startsWith cls_blank s); [exact IH|].
    cbn [app forallb]. intros [_ H]%andb_prop. by apply IH.
  - cbn [forallb]. intros [-> H]%andb_prop. by apply IH.
Qed.

Lemma emptyIfBlank_squeeze l :
  emptyIfBlank l -> emptyIfBlank (squeeze cls_blank [sp] l).
Proof.
  unfold emptyIfBlank. rewrite !TrimSpace_nil_iff. intros Hl Hb.
  apply forallb_squeeze in Hb. by rewrite (Hl Hb).
Qed.

(** Dropping newlines keeps the first line, and adds no line. *)
Lemma Split_squeezeNewlines s :
  exists l ls ls', Split s nl = l :: ls /\
                   Split (squeezeNewlines s) nl = l :: ls' /\ ls' ⊆ ls.
Proof.
  induction s as [|x s (l0 & ls0 & ls0' & Hs & Hs' & Hsub)].
  - by exists [], [], [].
  - rewrite squeezeNewlines_cons, (Split_cons x), Hs.
    destruct (isNewline x && startsWith isNewline s
              && startsWith isNewline (tail s)) eqn:Hrun.
    + apply andb_prop in Hrun as [Hrun _]. apply andb_prop in Hrun as [Hx H1].
      apply N.eqb_eq in Hx as <-. rewrite N.eqb_refl.
      destruct s as [|y s]; [done|]. cbn [startsWith] in H1.
      apply N.eqb_eq in H1 as <-. rewrite Split_cons, N.eqb_refl in Hs.
      injection Hs as <- <-.
      exists [], ([] :: Split s nl), ls0'. split; [done|]. split; [done|].
      set_solver.
    + rewrite Split_cons, Hs'. destruct (x =? nl)%N.
      * exists [], (l0 :: ls0), (l0 :: ls0'). split; [done|]. split; [done|].
        set_solver.
      * by exists (x :: l0), ls0, ls0'.
Qed.

Lemma emptyIfBlank_squeezeNewlines s :
  Forall emptyIfBlank (Split s nl) ->
  Forall emptyIfBlank (Split (squeezeNewlines s) nl).
Proof.
  destruct (Split_squeezeNewlines s) as (l & ls & ls' & -> & -> & Hsub).
  rewrite !Forall_forall. intros H x Hx. apply H. set_solver.
Qed.

Lemma cleanWhitespace_no_blank_run s :
  blankLinesEmpty s = true -> hasBlankRun (cleanWhitespace s) = false.
Proof.
  intros Hs%blankLinesEmpty_spec. rewrite cleanWhitespace_eq.
  apply hasBlankRun_TrimSpace.
  destruct (cleanedLines_facts s) as (Hne & _ & Hn & _).
  rewrite hasBlankRun_lines, Split_Join by done.
  destruct (blankPair (cleanedLines s)) eqn:Hpair; [|done].
  unfold cleanedLines in Hpair. apply blankPair_TrimSpace in Hpair.
  - rewrite <- hasBlankRun_lines, hasBlankRun_squeezeNewlines in Hpair. done.
  - apply emptyIfBlank_squeezeNewlines. rewrite Split_squeeze by done.
    apply Forall_map. eapply Forall_impl; [exact Hs|].
    intros l. apply emptyIfBlank_squeeze.
Qed.

End BlankLines.

(** C8 as stated fails: a line of blanks between two line breaks leaves
    three newlines in a row, which a second cleanup collapses. *)
Lemma cleanWhitespace_not_idempotent :
  cleanWhitespace (str "a\n \n\nb") = str "a\n\n\nb"
  /\ cleanWhitespace (cleanWhitespace (str "a\n \n\nb")) = str "a\n\nb"
  /\ stripHTMLRegex (str "a<br> <br><br>b") = str "a\n\n\nb".
Proof. repeat split; vm_compute; reflexivity. Qed.

Section Cleanup.
Variable html_Parse : list N -> option Node.

Lemma stripHTMLRegex_cleaned s : exists t, stripHTMLRegex s = cleanWhitespace t.
Proof. unfold stripHTMLRegex. eauto. Qed.

Lemma htmlToTextWithOptions_cleaned s stripQuotes :
  exists t, htmlToTextWithOptions html_Parse s stripQuotes = cleanWhitespace t.
Proof.
  unfold htmlToTextWithOptions. destruct (html_Parse _); [eauto|].
  apply stripHTMLRegex_cleaned.
Qed.

End Cleanup.

(** C8 (amended): a second cleanup leaves cleaned text as it is exactly when
    the cleaned text has no three newlines in a row, which is the case
    whenever no line of the input is made of whitespace only unless it is
    empty; both extraction paths return cleaned text. *)
Theorem cleanWhitespace_stable (s : list N) :
  (cleanWhitespace (cleanWhitespace s) = cleanWhitespace s
   <-> hasBlankRun (cleanWhitespace s) = false)
  /\ (blankLinesEmpty s = true ->
      cleanWhitespace (cleanWhitespace s) = cleanWhitespace s)
  /\ (forall html_Parse stripQuotes, exists t,
        htmlToTextWithOptions html_Parse s stripQuotes = cleanWhitespace t).
Proof.
  split; [apply cleanWhitespace_twice|]. split.
  - intros H. by apply cleanWhitespace_twice, cleanWhitespace_no_blank_run.
  - intros. apply htmlToTextWithOptions_cleaned.
Qed.

(** ** [extractText] *)

Lemma Node_induction (P : Node -> Prop) :
  (forall ty data kids, Forall P kids -> P (MkNode ty data kids)) ->
  forall n, P n.
Proof.
  intros step. fix IH 1. intros [ty data kids]. apply step.
  induction kids as [|kid kids IHkids]; constructor; [apply IH|exact IHkids].
Qed.

Lemma extractText_kids (kids : list Node) :
  Forall (fun kid => forall sb, extractText kid sb = sb ++ textOf kid) kids ->
  forall sb,
    fold_left (fun sb c => extractText c sb) kids sb
    = sb ++ concat (map textOf kids).
Proof.
  induction 1 as [|kid kids Hkid _ IH]; intros sb; simpl.
  - by rewrite app_nil_r.
  - by rewrite Hkid, IH, <- app_assoc.
Qed.

Lemma extractText_textOf (n : Node) (sb : list N) :
  extractText n sb = sb ++ textOf n.
Proof.
  revert sb. induction n as [ty data kids IH] using Node_induction.
  intros sb. cbn [extractText textOf].
  unfold leadingNewline, trailingNewline.
  rewrite (extractText_kids kids IH).
  destruct (isText ty), (isElement ty); cbn [andb];
    repeat match goal with |- context [tagIn ?d ?t] => destruct (tagIn d t) end;
    cbn [orb]; rewrite <- ?app_assoc, ?app_nil_r; cbn [app]; try reflexivity.
Qed.

(** C7 as stated fails: a list item gets its newline on entry only. *)
Lemma extractText_li_no_trailing_newline :
  extractText (element "li" [text "x"]) [] = str "\nx"
  /\ textOf_spec (element "li" [text "x"]) = str "\nx\n"
  /\ extractText (element "tr" [text "x"]) [] = str "\nx"
  /\ extractText (element "ul" [text "x"]) [] = str "x\n".
Proof. repeat split; vm_compute; reflexivity. Qed.

(** C7 (amended): the extractor appends the text of the tree, in which a
    newline is written on entry into and after the children of [p], [div]
    and [h1]-[h6]; on entry only for [li] and [tr]; after the children only
    for [ul], [ol] and [table]; and [br] yields one newline on entry. *)
Theorem extractText_newlines :
  (forall n sb, extractText n sb = sb ++ textOf n)
  /\ Forall (fun tag => forall kids sb,
       extractText (element tag kids) sb
       = sb ++ str "\n" ++ concat (map textOf kids) ++ str "\n")
     ["p"; "div"; "h1"; "h2"; "h3"; "h4"; "h5"; "h6"]%string
  /\ Forall (fun tag => forall kids sb,
       extractText (element tag kids) sb
       = sb ++ str "\n" ++ concat (map textOf kids))
     ["li"; "tr"; "br"]%string
  /\ Forall (fun tag => forall kids sb,
       extractText (element tag kids) sb
       = sb ++ concat (map textOf kids) ++ str "\n")
     ["ul"; "ol"; "table"]%string.
Proof.
  split; [apply extractText_textOf|].
  repeat split; repeat (apply Forall_cons; split); try apply Forall_nil_2;
    intros kids sb; rewrite extractText_textOf; cbn [textOf element];
    by rewrite ?app_nil_r.
Qed.

(** ** [GetBodyText] *)

Lemma firstBodyValue_none parts vals :
  Forall (fun part => vals !! BodyPart.PartID part = None) parts ->
  firstBodyValue parts vals = None.
Proof. induction 1 as [|part parts Hpart _ IH]; cbn; [done|by rewrite Hpart]. Qed.

(** C9 (amended): a message none of whose listed body parts has a fetched
    body value yields its preview as body text, which is the empty string
    only when the preview is empty. *)
Theorem GetBodyText_unfetched (e : Email.t) :
  noBodyValue e -> GetBodyText e = Email.Preview e.
Proof.
  intros [Htext Hhtml]%Forall_app. unfold GetBodyText.
  by rewrite !firstBodyValue_none.
Qed.

Lemma GetBodyText_unfetched_witness :
  noBodyValue unfetched /\ GetBodyText unfetched = Email.Preview unfetched.
Proof.
  assert (noBodyValue unfetched) as H by (repeat constructor).
  split; [exact H|apply (GetBodyText_unfetched unfetched H)].
Defined.

(** C9 as stated fails: both body variants of this message are unfetched
    and its body text is the preview, not the empty string. *)
Lemma GetBodyText_unfetched_not_empty :
  noBodyValue unfetched /\ GetBodyText unfetched = str "Hello there"
  /\ GetBodyText unfetched <> [].
Proof. split; [repeat constructor|split; [reflexivity|discriminate]]. Qed.

(** ** The reply and forward prefix *)

Section RunEquations.
Context {A : Type}.
Implicit Types (k : option N -> list N -> option A).

Lemma run_Cat r1 r2 prev s k :
  run (Cat r1 r2) prev s k = run r1 prev s (fun p' s' => run r2 p' s' k).
Proof. reflexivity. Qed.

Lemma run_Alt r1 r2 prev s k :
  run (Alt r1 r2) prev s k = orElse (run r1 prev s k) (fun _ => run r2 prev s k).
Proof. reflexivity. Qed.

Lemma run_Char_cons p prev c s k :
  run (Char p) prev (c :: s) k = if p c then k (Some c) s else None.
Proof. reflexivity. Qed.

Lemma run_Char_nil p prev k : run (Char p) prev [] k = None.
Proof. reflexivity. Qed.

Lemma run_BeginText_start s k : run BeginText None s k = k None s.
Proof. reflexivity. Qed.

Lemma run_BeginText_later c s k : run BeginText (Some c) s k = None.
Proof. reflexivity. Qed.

End RunEquations.

Lemma run_Many_class p prev s :
  run (Star true (Char p)) prev s (fun p' s' => Some (p', s'))
  = Some (lastRune prev (takeWhile p s), dropWhile p s).
Proof.
  change (run (Star true (Char p)) prev s (fun p' s' => Some (p', s')))
    with (classLoop p (length s) prev s).
  by apply classLoop_longest.
Qed.

Lemma rePrefix_eq :
  rePrefix =
  Cat BeginText
    (Cat (Alt (Cat (Char (foldIs 114)) (Char (foldIs 101)))
           (Alt (Cat (Char (foldIs 102)) (Cat (Char (foldIs 119)) (Char (foldIs 100))))
                (Cat (Char (foldIs 102)) (Char (foldIs 119)))))
         (Cat (Char (foldIs 58)) (Star true (Char cls_s)))).
Proof. reflexivity. Qed.

Lemma matchHere_rePrefix s :
  matchHere rePrefix None s =
  match prefixLength s with
  | Some n => Some (lastRune (last (take n s)) (takeWhile cls_s (drop n s)),
                    dropWhile cls_s (drop n s))
  | None => None
  end.
Proof.
  unfold matchHere, prefixLength. rewrite rePrefix_eq.
  change (classesOf "re:") with [foldIs 114; foldIs 101; foldIs 58].
  change (classesOf "fwd:") with [foldIs 102; foldIs 119; foldIs 100; foldIs 58].
  change (classesOf "fw:") with [foldIs 102; foldIs 119; foldIs 58].
  rewrite run_Cat, run_BeginText_start.
  destruct s as [|a [|b [|c [|d s]]]];
  cbn [startsWithClasses];
  repeat first
    [ reflexivity
    | progress rewrite ?run_Cat, ?run_Alt, ?run_Char_cons, ?run_Char_nil, ?run_Many_class
    | progress cbn [andb orElse]
    | match goal with
      | |- context [foldIs ?k ?x] => destruct (foldIs k x) eqn:?
      end ].
Qed.

Section Prefix.
Local Open Scope nat_scope.

Lemma matchHere_rePrefix_later c s : matchHere rePrefix (Some c) s = None.
Proof. reflexivity. Qed.

Lemma findFrom_rePrefix_later s : forall c i, findFrom rePrefix (Some c) s i = None.
Proof.
  induction s as [|d s IH]; intros c i; cbn [findFrom];
    rewrite matchHere_rePrefix_later; [done|apply IH].
Qed.

Lemma MatchString_rePrefix s :
  MatchString rePrefix s = bool_decide (is_Some (prefixLength s)).
Proof.
  unfold MatchString, FindStringIndex.
  destruct s as [|c s]; cbn [findFrom]; rewrite matchHere_rePrefix;
    destruct (prefixLength _) as [n|]; try done.
  by rewrite findFrom_rePrefix_later.
Qed.

Lemma startsWithClasses_length ps : forall s,
  startsWithClasses ps s = true -> length ps <= length s.
Proof.
  induction ps as [|p ps IH]; intros [|c s]; cbn; try done; try lia.
  intros [_ H]%andb_prop. apply IH in H. lia.
Qed.

Lemma prefixLength_bound s n :
  prefixLength s = Some n -> 3 <= n <= length s.
Proof.
  unfold prefixLength.
  destruct (startsWithClasses (classesOf "re:") s) eqn:H1;
    [apply startsWithClasses_length in H1; cbn in H1; intros [= <-]; lia|].
  destruct (startsWithClasses (classesOf "fwd:") s) eqn:H2;
    [apply startsWithClasses_length in H2; cbn in H2; intros [= <-]; lia|].
  destruct (startsWithClasses (classesOf "fw:") s) eqn:H3;
    [apply startsWithClasses_length in H3; cbn in H3; intros [= <-]; lia|].
  done.
Qed.

Lemma length_stripOnce s n :
  prefixLength s = Some n -> length (stripOnce s) < length s.
Proof.
  intros H. unfold stripOnce. rewrite H. apply prefixLength_bound in H.
  pose proof (length_dropWhile cls_s (drop n s)). rewrite length_drop in *. lia.
Qed.

Lemma lastRune_Some prev l : is_Some prev -> is_Some (lastRune prev l).
Proof. unfold lastRune. by destruct (last l). Qed.

Lemma ReplaceAllString_rePrefix s : ReplaceAllString rePrefix s [] = stripOnce s.
Proof.
  unfold ReplaceAllString. cbn [replaceFrom]. rewrite matchHere_rePrefix.
  pose proof (length_stripOnce s) as Hlen. unfold stripOnce in *.
  destruct (prefixLength s) as [n|] eqn:Hn.
  - specialize (Hlen n eq_refl). apply Nat.ltb_lt in Hlen as ->.
    cbn [app].
    destruct (lastRune_Some (last (take n s)) (takeWhile cls_s (drop n s)))
      as [c ->].
    { apply prefixLength_bound in Hn. apply last_is_Some.
      intros E. apply (f_equal length) in E. rewrite length_take in E.
      simpl in E. lia. }
    apply (replaceFrom_no_match _ _ _ _ 0), findFrom_rePrefix_later.
  - destruct s as [|c s]; [done|]. f_equal.
    apply (replaceFrom_no_match _ _ _ _ 0), findFrom_rePrefix_later.
Qed.

Lemma stripPrefixes_S fuel s :
  stripPrefixes (S fuel) s =
  match prefixLength s with
  | Some _ => stripPrefixes fuel (stripOnce s)
  | None => s
  end.
Proof.
  cbn [stripPrefixes]. rewrite ReplaceAllString_rePrefix.
  destruct (prefixLength s) as [n|] eqn:Hn.
  - apply length_stripOnce in Hn. rewrite bool_decide_eq_false_2; [done|].
    intros E. rewrite E in Hn. lia.
  - unfold stripOnce. rewrite Hn. by rewrite bool_decide_eq_true_2.
Qed.

Lemma stripPrefixes_done fuel : forall s,
  length s < fuel -> prefixLength (stripPrefixes fuel s) = None.
Proof.
  induction fuel as [|fuel IH]; intros s Hlen; [lia|].
  rewrite stripPrefixes_S. destruct (prefixLength s) as [n|] eqn:Hn; [|done].
  apply IH. apply length_stripOnce in Hn. lia.
Qed.

Lemma stripPrefixes_fix fuel s :
  prefixLength s = None -> stripPrefixes fuel s = s.
Proof. intros H. destruct fuel; [done|]. by rewrite stripPrefixes_S, H. Qed.

Lemma length_stripPrefixes fuel : forall s,
  length (stripPrefixes fuel s) <= length s.
Proof.
  induction fuel as [|fuel IH]; intros s; [done|].
  rewrite stripPrefixes_S. destruct (prefixLength s) as [n|] eqn:Hn; [|done].
  apply length_stripOnce in Hn. specialize (IH (stripOnce s)). lia.
Qed.

Lemma stripPrefixes_shorter fuel s n :
  prefixLength s = Some n -> length (stripPrefixes (S fuel) s) < length s.
Proof.
  intros Hn. rewrite stripPrefixes_S, Hn. apply length_stripOnce in Hn.
  pose proof (length_stripPrefixes fuel (stripOnce s)). lia.
Qed.

Lemma startsWithClasses_app ps : forall s post,
  startsWithClasses ps s = true -> startsWithClasses ps (s ++ post) = true.
Proof.
  induction ps as [|p ps IH]; intros [|c s] post; cbn; try done.
  intros [-> H]%andb_prop. by rewrite (IH _ _ H).
Qed.

Lemma startsWithClasses_squeeze ps :
  Forall (fun p : N -> bool => forall c, cls_s c = true -> p c = false) ps ->
  forall t, startsWithClasses ps (squeeze cls_s [sp] t) = startsWithClasses ps t.
Proof.
  induction 1 as [|p ps Hp _ IH]; intros t; [done|].
  destruct t as [|c t]; [done|].
  destruct (cls_s c) eqn:Hc.
  - rewrite squeeze_run by done. cbn. by rewrite (Hp sp), (Hp c).
  - rewrite squeeze_cons, Hc. cbn. by rewrite IH.
Qed.

Lemma startsWithClasses_map (f : N -> N) ps :
  Forall (fun p : N -> bool => forall c, p (f c) = p c) ps ->
  forall x, startsWithClasses ps (map f x) = startsWithClasses ps x.
Proof.
  induction 1 as [|p ps Hp _ IH]; intros x; [done|].
  destruct x as [|c x]; [done|]. cbn. by rewrite Hp, IH.
Qed.

Lemma TrimRight_fix s : TrimRight s = s <-> endsWith IsSpace s = false.
Proof.
  unfold endsWith. induction s as [|c s IH]; [done|].
  rewrite TrimRight_cons. destruct s as [|d s].
  - cbn. destruct (IsSpace c); naive_solver.
  - change (last (c :: d :: s)) with (last (d :: s)). rewrite <- IH.
    destruct (TrimRight (d :: s)) as [|e t] eqn:E.
    + destruct (IsSpace c); naive_solver.
    + naive_solver.
Qed.

Lemma trimmed_ends s :
  trimmed s <-> startsWith IsSpace s = false /\ endsWith IsSpace s = false.
Proof. unfold trimmed. by rewrite TrimLeft_fix, TrimRight_fix. Qed.

Lemma squeeze_snoc p repl c : forall t,
  p c = false -> squeeze p repl (t ++ [c]) = squeeze p repl t ++ [c].
Proof.
  intros t Hc. induction t as [|x t IH]; cbn [app].
  - by rewrite squeeze_cons, Hc.
  - rewrite !squeeze_cons, IH.
    replace (startsWith p (t ++ [c])) with (startsWith p t)
      by (destruct t; cbn; congruence).
    destruct (p x); [|done]. destruct (startsWith p t); [done|].
    by rewrite app_assoc.
Qed.

Lemma length_squeeze p c s : length (squeeze p [c] s) <= length s.
Proof.
  induction s as [|x s IH]; [done|]. rewrite squeeze_cons.
  destruct (p x); [destruct (startsWith p s)|]; simpl; lia.
Qed.

Lemma cls_s_IsSpace c : cls_s c = true -> IsSpace c = true.
Proof.
  unfold cls_s, IsSpace. intros H.
  repeat (apply orb_prop in H as [H|H]); apply N.eqb_eq in H as ->; done.
Qed.

Lemma trimmed_squeeze t :
  trimmed t -> trimmed (squeeze cls_s [sp] t).
Proof.
  rewrite !trimmed_ends. intros [Hl Hr]. split.
  - destruct t as [|c t]; [done|]. cbn in Hl. rewrite squeeze_cons.
    destruct (cls_s c) eqn:Hc; [|done].
    apply cls_s_IsSpace in Hc. congruence.
  - destruct t as [|c t _] using rev_ind; [done|].
    unfold endsWith in *. rewrite last_snoc in Hr.
    rewrite squeeze_snoc, last_snoc; [done|].
    destruct (cls_s c) eqn:Hc; [|done].
    apply cls_s_IsSpace in Hc. congruence.
Qed.

End Prefix.

(** ** [NormalizeSubject] *)

Ltac plain_rune a :=
  lazymatch a with
  | context [if _ then _ else _] => fail
  | _ => idtac
  end.

Ltac compare_runes :=
  repeat (cbn [andb orb negb];
    match goal with
    | |- context [(?a =? ?b)%N] =>
        plain_rune a; plain_rune b; destruct (N.eqb_spec a b); try lia
    | |- context [(?a <=? ?b)%N] =>
        plain_rune a; plain_rune b; destruct (N.leb_spec a b); try lia
    | |- context [(?a <? ?b)%N] =>
        plain_rune a; plain_rune b; destruct (N.ltb_spec a b); try lia
    end);
  cbn [andb orb negb].

Lemma foldIs_lower (tbl : N -> N) :
  (forall r, 128 <= r -> tbl r < 128 -> tbl r = 105 \/ tbl r = 107) ->
  Forall (fun k => forall c, foldIs k (ToLowerRune tbl c) = foldIs k c)
    [114; 101; 102; 119; 100; 58].
Proof.
  intros tbl_ascii.
  repeat (apply Forall_cons; split); [..|apply Forall_nil_2];
    intros c; pose proof (tbl_ascii c) as Ha;
    unfold ToLowerRune, foldIs, lowerOf, upperOf; compare_runes; try done; lia.
Qed.

Section Lower.
Variable tbl : N -> N.
Hypothesis tbl_lower : forall r, 128 <= r -> ToLowerRune tbl (tbl r) = tbl r.
Hypothesis tbl_space : forall r, 128 <= r -> IsSpace r = false -> IsSpace (tbl r) = false.
Hypothesis tbl_ascii : forall r, 128 <= r -> tbl r < 128 -> tbl r = 105 \/ tbl r = 107.

Lemma ToLowerRune_idem c :
  ToLowerRune tbl (ToLowerRune tbl c) = ToLowerRune tbl c.
Proof using tbl_lower.
  unfold ToLowerRune at 2 3. destruct (N.ltb_spec c 128); [|by apply tbl_lower].
  unfold ToLowerRune. compare_runes; try done; lia.
Qed.

Lemma ToLower_idem s : ToLower tbl (ToLower tbl s) = ToLower tbl s.
Proof using tbl_lower.
  unfold ToLower. rewrite map_map. apply map_ext. intros c. apply ToLowerRune_idem.
Qed.

Lemma cls_s_lower c : cls_s (ToLowerRune tbl c) = cls_s c.
Proof using tbl_ascii.
  unfold ToLowerRune. destruct (N.ltb_spec c 128).
  - unfold cls_s. compare_runes; simpl; try done; lia.
  - pose proof (tbl_ascii c). unfold cls_s. compare_runes; simpl; try done; lia.
Qed.

Lemma lower_cls_s c : cls_s c = true -> ToLowerRune tbl c = c.
Proof.
  unfold cls_s, ToLowerRune. intros H.
  repeat (apply orb_prop in H as [H|H]); apply N.eqb_eq in H as ->; done.
Qed.

Lemma IsSpace_lower c : IsSpace c = false -> IsSpace (ToLowerRune tbl c) = false.
Proof using tbl_space.
  unfold ToLowerRune. destruct (N.ltb_spec c 128); [|by apply tbl_space].
  destruct (_ && _) eqn:E; [|done].
  intros _. apply andb_prop in E as [?%N.leb_le ?%N.leb_le].
  unfold IsSpace. compare_runes; simpl; done.
Qed.

Lemma prefixLength_lower x : prefixLength (ToLower tbl x) = prefixLength x.
Proof using tbl_ascii.
  unfold prefixLength, ToLower.
  rewrite !startsWithClasses_map; [done|..];
    pose proof (foldIs_lower tbl tbl_ascii) as H; rewrite Forall_forall in H;
    repeat (apply Forall_cons; split; [apply H; repeat constructor|]);
    apply Forall_nil_2.
Qed.

Lemma prefixLength_squeeze t :
  prefixLength (squeeze cls_s [sp] t) = prefixLength t.
Proof.
  unfold prefixLength.
  rewrite !startsWithClasses_squeeze; [done|..];
    repeat (apply Forall_cons; split;
            [intros c Hc; unfold cls_s in Hc;
             repeat (apply orb_prop in Hc as [Hc|Hc]); apply N.eqb_eq in Hc as ->; done|]);
    apply Forall_nil_2.
Qed.

Lemma startsWith_lower x :
  startsWith cls_s (ToLower tbl x) = startsWith cls_s x.
Proof using tbl_ascii. destruct x; [done|]. apply cls_s_lower. Qed.

Lemma squeezed_lower x :
  squeezed cls_s sp x = true -> squeezed cls_s sp (ToLower tbl x) = true.
Proof using tbl_ascii.
  induction x as [|c x IH]; [done|].
  change (ToLower tbl (c :: x)) with (ToLowerRune tbl c :: ToLower tbl x).
  rewrite !squeezed_cons. intros [Hc Hx]%andb_prop.
  rewrite (IH Hx), startsWith_lower, cls_s_lower, andb_true_r.
  destruct (cls_s c) eqn:E; [|done].
  by rewrite (lower_cls_s c E).
Qed.

Lemma last_ToLower x : last (ToLower tbl x) = ToLowerRune tbl <$> last x.
Proof.
  induction x as [|c [|d x] IH]; [done..|].
  change (last (ToLower tbl (c :: d :: x))) with (last (ToLower tbl (d :: x))).
  by rewrite IH.
Qed.

Lemma trimmed_lower x : trimmed x -> trimmed (ToLower tbl x).
Proof using tbl_space.
  rewrite !trimmed_ends. intros [Hl Hr]. split.
  - destruct x as [|c x]; [done|]. by apply IsSpace_lower.
  - unfold endsWith in *. rewrite last_ToLower.
    destruct (last x) as [c|]; [|done]. by apply IsSpace_lower.
Qed.

Lemma ReplaceAllString_reWhitespace t :
  ReplaceAllString reWhitespace t (str " ") = squeeze cls_s [sp] t.
Proof. apply ReplaceAllString_Plus. Qed.

Lemma NormalizeSubject_eq s :
  NormalizeSubject tbl s =
  ToLower tbl (squeeze cls_s [sp] (TrimSpace (stripPrefixes (S (length s)) s))).
Proof. unfold NormalizeSubject. by rewrite ReplaceAllString_reWhitespace. Qed.

Lemma NormalizeSubject_fix y :
  prefixLength y = None -> trimmed y -> squeezed cls_s sp y = true ->
  ToLower tbl y = y -> NormalizeSubject tbl y = y.
Proof.
  intros Hp Ht Hs Hl. rewrite NormalizeSubject_eq.
  by rewrite stripPrefixes_fix, TrimSpace_trimmed, squeeze_squeezed.
Qed.

Lemma length_NormalizeSubject s :
  (length (NormalizeSubject tbl s) <= length (stripPrefixes (S (length s)) s))%nat.
Proof.
  rewrite NormalizeSubject_eq. unfold ToLower. rewrite length_map.
  etrans; [apply length_squeeze|]. apply length_TrimSpace.
Qed.

Lemma NormalizeSubject_twice s :
  NormalizeSubject tbl (NormalizeSubject tbl s) = NormalizeSubject tbl s
  <-> MatchString rePrefix (TrimSpace (stripPrefixes (S (length s)) s)) = false.
Proof using tbl_lower tbl_space tbl_ascii.
  rewrite MatchString_rePrefix.
  set (t := TrimSpace (stripPrefixes (S (length s)) s)).
  assert (prefixLength (NormalizeSubject tbl s) = prefixLength t) as Hp.
  { by rewrite NormalizeSubject_eq, prefixLength_lower, prefixLength_squeeze. }
  split.
  - intros Hfix. apply bool_decide_eq_false_2. intros [n Hn].
    rewrite <- Hp in Hn.
    pose proof (stripPrefixes_shorter (length (NormalizeSubject tbl s)) _ _ Hn).
    pose proof (length_NormalizeSubject (NormalizeSubject tbl s)).
    rewrite Hfix in *. lia.
  - intros Hn%bool_decide_eq_false_1.
    apply NormalizeSubject_fix.
    + rewrite Hp. destruct (prefixLength t); [|done]. by destruct Hn.
    + rewrite NormalizeSubject_eq. apply trimmed_lower, trimmed_squeeze.
      apply trimmed_TrimSpace.
    + rewrite NormalizeSubject_eq. by apply squeezed_lower, squeezed_squeeze.
    + rewrite NormalizeSubject_eq. apply ToLower_idem.
Qed.

Lemma prefixLength_prefix s post :
  prefixLength (s ++ post) = None -> prefixLength s = None.
Proof.
  unfold prefixLength. intros H.
  destruct (startsWithClasses (classesOf "re:") s) eqn:H1;
    [by rewrite (startsWithClasses_app _ _ post H1) in H|].
  destruct (startsWithClasses (classesOf "fwd:") s) eqn:H2;
    [rewrite (startsWithClasses_app _ _ post H2) in H; by destruct (startsWithClasses _ _)|].
  destruct (startsWithClasses (classesOf "fw:") s) eqn:H3;
    [rewrite (startsWithClasses_app _ _ post H3) in H;
     by repeat destruct (startsWithClasses _ _)|].
  done.
Qed.

Lemma NormalizeSubject_no_leading_space s :
  startsWith IsSpace (stripPrefixes (S (length s)) s) = false ->
  MatchString rePrefix (TrimSpace (stripPrefixes (S (length s)) s)) = false.
Proof.
  intros Hl. rewrite MatchString_rePrefix. apply bool_decide_eq_false_2.
  unfold TrimSpace. rewrite (proj2 (TrimLeft_fix _) Hl).
  destruct (TrimRight_prefix (stripPrefixes (S (length s)) s)) as [post E].
  pose proof (stripPrefixes_done (S (length s)) s (Nat.lt_succ_diag_r _)) as Hn.
  rewrite E in Hn. apply prefixLength_prefix in Hn. rewrite Hn. by intros [? ?].
Qed.

End Lower.

(** C4 as stated fails: whitespace before a prefix hides it from the first
    normalisation, whose trimming then exposes it to the second. *)
Lemma NormalizeSubject_not_idempotent :
  NormalizeSubject latin1Lower (str " Re: hello") = str "re: hello"
  /\ NormalizeSubject latin1Lower (str "re: hello") = str "hello".
Proof. split; vm_compute; reflexivity. Qed.

(** C4 (amended): the prefix loop ends with no prefix left at the start of
    the subject. For case tables that map into lower case, keep non-spaces
    non-spaces and reach ASCII only at i and k, normalising twice gives
    what normalising once gives exactly when that subject, once trimmed,
    does not begin with a reply or forward prefix; this is so whenever it
    has no leading whitespace. [RE: Re: Hello] and [hello] both normalise
    to [hello]. *)
Theorem NormalizeSubject_idempotent (tbl : N -> N) :
  (forall r, 128 <= r -> ToLowerRune tbl (tbl r) = tbl r) ->
  (forall r, 128 <= r -> IsSpace r = false -> IsSpace (tbl r) = false) ->
  (forall r, 128 <= r -> tbl r < 128 -> tbl r = 105 \/ tbl r = 107) ->
  forall s,
    MatchString rePrefix (stripPrefixes (S (length s)) s) = false
    /\ (NormalizeSubject tbl (NormalizeSubject tbl s) = NormalizeSubject tbl s
        <-> MatchString rePrefix (TrimSpace (stripPrefixes (S (length s)) s)) = false)
    /\ (startsWith IsSpace (stripPrefixes (S (length s)) s) = false ->
        NormalizeSubject tbl (NormalizeSubject tbl s) = NormalizeSubject tbl s)
    /\ NormalizeSubject tbl (str "RE: Re: Hello") = str "hello"
    /\ NormalizeSubject tbl (str "hello") = str "hello".
Proof.
  intros Hlower Hspace Hascii s.
  split.
  { rewrite MatchString_rePrefix, stripPrefixes_done by lia.
    apply bool_decide_eq_false_2. by intros [? ?]. }
  split; [by apply NormalizeSubject_twice|].
  split; [|split; vm_compute; reflexivity].
  intros Hs. apply NormalizeSubject_twice; try done.
  by apply NormalizeSubject_no_leading_space.
Qed.

Lemma latin1Lower_lower r :
  128 <= r -> ToLowerRune latin1Lower (latin1Lower r) = latin1Lower r.
Proof. intros H. unfold ToLowerRune, latin1Lower. compare_runes; try done; lia. Qed.

Lemma latin1Lower_space r :
  128 <= r -> IsSpace r = false -> IsSpace (latin1Lower r) = false.
Proof.
  intros H. unfold latin1Lower.
  destruct ((192 <=? r) && (r <=? 222) && negb (r =? 215)) eqn:E; [|done].
  intros _. apply andb_prop in E as [E _]. apply andb_prop in E as [H1 H2].
  apply N.leb_le in H1, H2. unfold IsSpace. compare_runes; try done; lia.
Qed.

Lemma latin1Lower_ascii r :
  128 <= r -> latin1Lower r < 128 -> latin1Lower r = 105 \/ latin1Lower r = 107.
Proof. unfold latin1Lower. intros H. compare_runes; lia. Qed.

Lemma NormalizeSubject_idempotent_witness :
  NormalizeSubject latin1Lower
    (NormalizeSubject latin1Lower (str "Fwd: RE:  Lunch  on Friday "))
  = NormalizeSubject latin1Lower (str "Fwd: RE:  Lunch  on Friday ").
Proof.
  apply (proj2 (NormalizeSubject_idempotent latin1Lower latin1Lower_lower
                  latin1Lower_space latin1Lower_ascii
                  (str "Fwd: RE:  Lunch  on Friday "))).
  vm_compute; reflexivity.
Defined.

(** ** Quoted lines *)

Section Quoted.
Local Open Scope nat_scope.

Lemma run_Star_loop {A} p prev s (k : option N -> list N -> option A) :
  run (Star true (Char p)) prev s k = starLoop p k (length s) prev s.
Proof. reflexivity. Qed.

(** Where the continuation accepts the longest run, that is the match. *)
Lemma starLoop_longest {A} p (k : option N -> list N -> option A) fuel :
  forall prev s r,
  length s <= fuel ->
  k (lastRune prev (takeWhile p s)) (dropWhile p s) = Some r ->
  starLoop p k fuel prev s = Some r.
Proof.
  induction fuel as [|fuel IH]; intros prev s r Hlen Hk.
  - destruct s; [|simpl in Hlen; lia]. cbn in *. done.
  - destruct s as [|c s]; [cbn in *; done|]. simpl in Hlen.
    cbn [starLoop run takeWhile dropWhile] in *. fold (starLoop p k).
    destruct (p c) eqn:Hc; [|cbn; done].
    replace (length s <? length (c :: s)) with true
      by (symmetry; apply Nat.ltb_lt; simpl; lia).
    rewrite lastRune_cons in Hk.
    by rewrite (IH _ _ r) by (done || lia).
Qed.

Lemma run_Star_longest {A} p (k : option N -> list N -> option A) prev s r :
  k (lastRune prev (takeWhile p s)) (dropWhile p s) = Some r ->
  run (Star true (Char p)) prev s k = Some r.
Proof. rewrite run_Star_loop. by apply starLoop_longest. Qed.

Lemma at_eol_dropWhile_dot s : at_eol (dropWhile cls_dot s) = true.
Proof.
  induction s as [|c s IH]; [done|]. cbn [dropWhile]. unfold cls_dot at 1.
  destruct (c =? nl)%N eqn:E; [|done]. cbn. done.
Qed.

Lemma quotedLinePattern_eq :
  quotedLinePattern =
  Cat BeginLine (Cat (Cat (Char isQuoteMark) (Star true (Char isQuoteMark)))
                     (Cat (Star true (Char cls_dot)) EndLine)).
Proof. reflexivity. Qed.

Lemma run_EndLine {A} prev s (k : option N -> list N -> option A) :
  run EndLine prev s k = if at_eol s then k prev s else None.
Proof. reflexivity. Qed.

Lemma run_BeginLine {A} prev s (k : option N -> list N -> option A) :
  run BeginLine prev s k = if at_bol prev then k prev s else None.
Proof. reflexivity. Qed.

Lemma matchHere_quotedLine prev s :
  matchHere quotedLinePattern prev s =
  match s with
  | c :: s' =>
      if at_bol prev && isQuoteMark c
      then Some (lastRune (lastRune (Some c) (takeWhile isQuoteMark s'))
                          (takeWhile cls_dot (dropWhile isQuoteMark s')),
                 dropWhile cls_dot (dropWhile isQuoteMark s'))
      else None
  | [] => None
  end.
Proof.
  unfold matchHere. rewrite quotedLinePattern_eq, run_Cat, run_BeginLine.
  destruct (at_bol prev); [|by destruct s].
  rewrite !run_Cat. destruct s as [|c s]; [done|].
  rewrite run_Char_cons. cbn [andb]. destruct (isQuoteMark c); [|done].
  apply run_Star_longest. rewrite run_Cat.
  apply run_Star_longest. rewrite run_EndLine.
  by rewrite at_eol_dropWhile_dot.
Qed.

Lemma isQuoteMark_eq c : isQuoteMark c = true -> c = 62%N.
Proof. unfold isQuoteMark, only. by intros <-%N.eqb_eq. Qed.

Lemma dropWhile_dot_quote s :
  dropWhile cls_dot (dropWhile isQuoteMark s) = dropWhile cls_dot s.
Proof.
  induction s as [|c s IH]; [done|]. cbn [dropWhile].
  destruct (isQuoteMark c) eqn:E; [|done].
  apply isQuoteMark_eq in E as ->. by rewrite IH.
Qed.

Lemma unquote_cons st c s :
  unquote st (c :: s) =
  if (c =? nl)%N then nl :: unquote LineStart s
  else match st with
       | LineStart =>
           if isQuoteMark c then unquote Quoted s else c :: unquote Kept s
       | Kept => c :: unquote Kept s
       | Quoted => unquote Quoted s
       end.
Proof. reflexivity. Qed.

Lemma unquote_at_eol st st' s : at_eol s = true -> unquote st s = unquote st' s.
Proof. destruct s as [|c s]; [done|]. cbn [at_eol]. intros H. by rewrite !unquote_cons, H. Qed.

Lemma unquote_Quoted s : unquote Quoted s = unquote Quoted (dropWhile cls_dot s).
Proof.
  induction s as [|c s IH]; [done|]. cbn [dropWhile]. unfold cls_dot at 1.
  rewrite unquote_cons. destruct (c =? nl)%N eqn:E; cbn [negb]; [|done].
  by rewrite unquote_cons, E.
Qed.

Lemma at_bol_lastRune_dot prev s :
  at_bol prev = false -> at_bol (lastRune prev (takeWhile cls_dot s)) = false.
Proof.
  revert prev. induction s as [|c s IH]; intros prev H; [done|].
  cbn [takeWhile]. destruct (cls_dot c) eqn:E; [|done].
  rewrite lastRune_cons. apply IH. cbn. unfold cls_dot in E.
  by apply negb_true_iff in E.
Qed.

Lemma at_bol_lastRune_quote prev s :
  at_bol prev = false -> at_bol (lastRune prev (takeWhile isQuoteMark s)) = false.
Proof.
  revert prev. induction s as [|c s IH]; intros prev H; [done|].
  cbn [takeWhile]. destruct (isQuoteMark c) eqn:E; [|done].
  rewrite lastRune_cons. apply IH. apply isQuoteMark_eq in E as ->. done.
Qed.

Lemma replaceFrom_quotedLine fuel : forall prev s adj,
  length s < fuel ->
  replaceFrom fuel quotedLinePattern [] prev s adj
  = unquote (if at_bol prev then LineStart else Kept) s.
Proof.
  induction fuel as [|fuel IH]; intros prev s adj Hlen; [lia|].
  cbn [replaceFrom]. rewrite matchHere_quotedLine.
  destruct s as [|c s]; [done|]. simpl in Hlen.
  assert (c :: replaceFrom fuel quotedLinePattern [] (Some c) s false
          = if (c =? nl)%N then nl :: unquote LineStart s
            else c :: unquote Kept s) as Hstep.
  { rewrite IH by lia. cbn [at_bol].
    destruct (c =? nl)%N eqn:E; [|done]. by apply N.eqb_eq in E as ->. }
  destruct (at_bol prev) eqn:Hbol; cbn [andb].
  - destruct (isQuoteMark c) eqn:Hq.
    + pose proof (length_dropWhile cls_dot (dropWhile isQuoteMark s)).
      pose proof (length_dropWhile isQuoteMark s).
      replace (length (dropWhile cls_dot (dropWhile isQuoteMark s))
               <? length (c :: s)) with true
        by (symmetry; apply Nat.ltb_lt; simpl; lia).
      rewrite IH by lia. cbn [app].
      rewrite at_bol_lastRune_dot.
      2:{ apply at_bol_lastRune_quote. apply isQuoteMark_eq in Hq as ->. done. }
      rewrite unquote_cons, Hq.
      apply isQuoteMark_eq in Hq as ->. cbn [N.eqb Pos.eqb nl].
      rewrite (unquote_Quoted s), dropWhile_dot_quote.
      apply unquote_at_eol, at_eol_dropWhile_dot.
    + cbn [app]. rewrite Hstep, unquote_cons, Hq. done.
  - rewrite Hstep, unquote_cons. done.
Qed.

Lemma ReplaceAllString_quotedLine s :
  ReplaceAllString quotedLinePattern s [] = unquote LineStart s.
Proof. unfold ReplaceAllString. by rewrite replaceFrom_quotedLine by lia. Qed.

Lemma Join_otherLines l ls :
  Join (map emptyIfQuoted (l :: ls)) (str "\n") = emptyIfQuoted l ++ otherLines ls.
Proof. destruct ls; cbn [map Join otherLines]; by rewrite ?app_nil_r. Qed.

Lemma unquote_lines s : forall st,
  match Split s nl with
  | l :: ls => unquote st s = keptHead st l ++ otherLines ls
  | [] => False
  end.
Proof.
  induction s as [|c s IH]; intros st; [by destruct st|].
  rewrite Split_cons, unquote_cons.
  destruct (c =? nl)%N eqn:E.
  - specialize (IH LineStart). destruct (Split s nl) as [|l ls]; [done|].
    rewrite IH. rewrite <- Join_otherLines.
    assert (keptHead st [] = []) as -> by (by destruct st). done.
  - pose proof (IH Kept) as HK. pose proof (IH Quoted) as HQ.
    destruct (Split s nl) as [|l ls]; [done|].
    destruct st; cbn [keptHead] in *.
    + unfold emptyIfQuoted. cbn [startsWith].
      destruct (isQuoteMark c); [by rewrite HQ|by rewrite HK].
    + by rewrite HK.
    + by rewrite HQ.
Qed.

Lemma unquote_emptyQuotedLines s : unquote LineStart s = emptyQuotedLines s.
Proof.
  unfold emptyQuotedLines. pose proof (unquote_lines s LineStart) as H.
  destruct (Split s nl) as [|l ls]; [done|]. by rewrite Join_otherLines.
Qed.

End Quoted.

(** ** [StripQuotes] and [StripSignature] *)

Section Leftmost.
Local Open Scope nat_scope.

Lemma findFrom_leftmost r s : forall prev i loc,
  findFrom r prev s i = Some loc ->
  exists k, fst loc = i + k /\ k <= length s
    /\ is_Some (matchHere r (match k with O => prev | S k' => s !! k' end)
                          (drop k s))
    /\ forall j, j < k ->
         matchHere r (match j with O => prev | S j' => s !! j' end)
                   (drop j s) = None.
Proof.
  induction s as [|c s IH]; intros prev i loc; cbn [findFrom].
  - destruct (matchHere r prev []) as [[p' s']|] eqn:E; [|done].
    intros [= <-]. exists 0. cbn. rewrite E, Nat.add_0_r.
    repeat split; eauto; lia.
  - destruct (matchHere r prev (c :: s)) as [[p' s']|] eqn:E.
    + intros [= <-]. exists 0. cbn [fst drop]. rewrite E, Nat.add_0_r.
      repeat split; eauto; lia.
    + intros (k & -> & Hk & Hm & Hn)%IH. exists (S k).
      split; [lia|]. split; [simpl; lia|]. split.
      * destruct k; exact Hm.
      * intros [|j] Hj; [exact E|]. specialize (Hn j ltac:(lia)).
        destruct j; exact Hn.
Qed.

Lemma FindStringIndex_leftmost r s loc :
  FindStringIndex r s = Some loc ->
  fst loc <= length s /\ is_Some (matchAt r s (fst loc))
  /\ forall j, j < fst loc -> matchAt r s j = None.
Proof.
  intros (k & -> & Hk & Hm & Hn)%findFrom_leftmost. cbn [Nat.add].
  done.
Qed.

End Leftmost.

Lemma truncateAt_leftmost pattern b :
  match FindStringIndex pattern b with
  | Some loc =>
      truncateAt pattern b = TrimSpace (take (fst loc) b)
      /\ is_Some (matchAt pattern b (fst loc))
      /\ forall j, (j < fst loc)%nat -> matchAt pattern b j = None
  | None => truncateAt pattern b = b
  end.
Proof.
  unfold truncateAt. destruct (FindStringIndex pattern b) as [loc|] eqn:E; [|done].
  split; [done|]. by apply FindStringIndex_leftmost in E as (_ & ? & ?).
Qed.

Lemma StripQuotes_eq body :
  StripQuotes body
  = TrimSpace (squeezeNewlines (emptyQuotedLines
      (fold_left (fun body pattern => truncateAt pattern body)
                 truncationPatterns body))).
Proof.
  unfold StripQuotes. cbn [fold_left truncationPatterns].
  by rewrite ReplaceAllString_quotedLine, unquote_emptyQuotedLines,
    ReplaceAllString_newlines.
Qed.

(** C5 as stated fails: a quoted line is emptied, not removed; three or
    more newlines in a row become two, which leaves one blank line; and the
    result is trimmed. *)
Lemma StripQuotes_not_as_worded :
  StripQuotes (str "a\n>q\nb") = str "a\n\nb"
  /\ StripQuotes_spec (str "a\n>q\nb") = str "a\nb"
  /\ StripQuotes (str "a\n\n\n\nb") = str "a\n\nb"
  /\ StripQuotes_spec (str "a\n\n\n\nb") = str "a\n\n\nb"
  /\ StripQuotes (str "hello ") = str "hello"
  /\ StripQuotes_spec (str "hello ") = str "hello ".
Proof. repeat split; vm_compute; reflexivity. Qed.

(** C5 (amended): [StripQuotes] cuts the body at the leftmost match of the
    attribution, forwarded-message, original-message and Outlook-header
    patterns in turn, each on the text the previous one left and each
    followed by trimming; it then empties every line that starts with [>],
    leaving the line break, replaces every run of three or more newlines by
    two, and trims the result. *)
Theorem StripQuotes_steps (body : list N) :
  StripQuotes body
  = TrimSpace (squeezeNewlines (emptyQuotedLines
      (fold_left (fun body pattern => truncateAt pattern body)
                 truncationPatterns body)))
  /\ (forall pattern b,
        match FindStringIndex pattern b with
        | Some loc =>
            truncateAt pattern b = TrimSpace (take (fst loc) b)
            /\ is_Some (matchAt pattern b (fst loc))
            /\ forall j, (j < fst loc)%nat -> matchAt pattern b j = None
        | None => truncateAt pattern b = b
        end)
  /\ StripQuotes
       (str "Body text\nOn Jan 1, 2024 at 10:00 AM John <j@x.com> wrote:\n> quoted")
     = str "Body text".
Proof.
  split; [apply StripQuotes_eq|].
  split; [apply truncateAt_leftmost|vm_compute; reflexivity].
Qed.

Section Signature.
Local Open Scope nat_scope.

Lemma bool_decide_nil (l : list N) : bool_decide (l = []) = isEmpty l.
Proof. by destruct l. Qed.

Lemma sigScan_last lines body n : forall fuel,
  n <= fuel ->
  sigScan fuel lines (Z.of_nat (length lines - 5 + n) - 1)%Z body
  = match last (List.filter (fun i => isSignatureLine (nth i lines []))
                            (seq (length lines - 5) n)) with
    | Some i => TrimSpace (Join (take i lines) (str "\n"))
    | None => body
    end.
Proof.
  induction n as [|n IH]; intros fuel Hfuel.
  - destruct fuel as [|fuel]; [done|]. cbn [sigScan seq List.filter last].
    destruct (Z.leb_spec 0 (Z.of_nat (length lines - 5 + 0) - 1));
      destruct (Z.leb_spec (Z.of_nat (length lines) - 5)
                           (Z.of_nat (length lines - 5 + 0) - 1));
      cbn [andb]; try done; lia.
  - destruct fuel as [|fuel]; [lia|]. cbn [sigScan].
    destruct (Z.leb_spec 0 (Z.of_nat (length lines - 5 + S n) - 1)); [|lia].
    destruct (Z.leb_spec (Z.of_nat (length lines) - 5)
                         (Z.of_nat (length lines - 5 + S n) - 1)); [|lia].
    cbn [andb].
    replace (Z.to_nat (Z.of_nat (length lines - 5 + S n) - 1))
      with (length lines - 5 + n) by lia.
    replace (Z.of_nat (length lines - 5 + S n) - 1 - 1)%Z
      with (Z.of_nat (length lines - 5 + n) - 1)%Z by lia.
    rewrite seq_S, List.filter_app, (IH fuel) by lia.
    cbn [List.filter].
    change (isSignatureLine (nth (length lines - 5 + n) lines []))
      with (negb (isEmpty (TrimSpace (nth (length lines - 5 + n) lines [])))
            && isSignaturePhrase (TrimSpace (nth (length lines - 5 + n) lines []))).
    fold (isSignaturePhrase (TrimSpace (nth (length lines - 5 + n) lines []))).
    rewrite bool_decide_nil.
    destruct (isEmpty (TrimSpace (nth (length lines - 5 + n) lines [])));
      cbn [negb andb]; [by rewrite app_nil_r|].
    destruct (isSignaturePhrase (TrimSpace (nth (length lines - 5 + n) lines [])));
      [by rewrite last_snoc|by rewrite app_nil_r].
Qed.

Lemma StripSignature_eq body :
  StripSignature body =
  let b := truncateAt sigDelimiterPattern body in
  match lastSignatureLine (Split b nl) with
  | Some i => TrimSpace (Join (take i (Split b nl)) (str "\n"))
  | None => b
  end.
Proof.
  unfold StripSignature, lastSignatureLine, lastFive. cbn zeta.
  set (lines := Split (truncateAt sigDelimiterPattern body) nl).
  rewrite <- sigScan_last with (fuel := length lines) by lia.
  f_equal. lia.
Qed.

End Signature.

(** C6 as stated fails: the phrase scan also runs on what a delimiter
    left, and it looks at the last five lines, blank ones included. *)
Lemma StripSignature_not_as_worded :
  StripSignature (str "Hello\nSent from my iPhone\n--\nJohn") = str "Hello"
  /\ StripSignature_spec (str "Hello\nSent from my iPhone\n--\nJohn")
     = str "Hello\nSent from my iPhone"
  /\ StripSignature (str "Sent from my iPhone\n\n\n\n\n\nx")
     = str "Sent from my iPhone\n\n\n\n\n\nx"
  /\ StripSignature_spec (str "Sent from my iPhone\n\n\n\n\n\nx") = [].
Proof. repeat split; vm_compute; reflexivity. Qed.

(** C6 (amended): [StripSignature] first cuts the body at the leftmost
    match of the delimiter pattern, if any, and trims; then, in either
    case, among the last five lines of that text (blank lines count, and
    are passed over) it takes the last one that, trimmed, carries a
    signature phrase and returns the trimmed text before that line, or the
    text unchanged if there is none. *)
Theorem StripSignature_steps (body : list N) :
  (let b := truncateAt sigDelimiterPattern body in
   StripSignature body =
   match lastSignatureLine (Split b nl) with
   | Some i => TrimSpace (Join (take i (Split b nl)) (str "\n"))
   | None => b
   end)
  /\ match FindStringIndex sigDelimiterPattern body with
     | Some loc =>
         truncateAt sigDelimiterPattern body = TrimSpace (take (fst loc) body)
         /\ is_Some (matchAt sigDelimiterPattern body (fst loc))
         /\ forall j, (j < fst loc)%nat -> matchAt sigDelimiterPattern body j = None
     | None => truncateAt sigDelimiterPattern body = body
     end
  /\ StripSignature (str "Hello\n\n--\nJohn Doe") = str "Hello"
  /\ StripSignature (str "Hello\n\nSent from my iPhone") = str "Hello".
Proof.
  split; [apply StripSignature_eq|].
  split; [apply truncateAt_leftmost|].
  split; vm_compute; reflexivity.
Qed.

(** ** [CleanBody] *)

Section Stable.
Local Open Scope nat_scope.

Lemma MatchString_false r s :
  MatchString r s = false -> FindStringIndex r s = None.
Proof. unfold MatchString. by destruct (FindStringIndex r s). Qed.

Lemma truncateAt_no_match r s : MatchString r s = false -> truncateAt r s = s.
Proof. intros H%MatchString_false. unfold truncateAt. by rewrite H. Qed.

Lemma tidy_TrimSpace s : hasBlankRun s = false -> tidy (TrimSpace s).
Proof. split; [apply trimmed_TrimSpace|by apply hasBlankRun_TrimSpace]. Qed.

Lemma hasBlankRun_before a b :
  hasBlankRun (a ++ b) = false -> hasBlankRun a = false.
Proof. intros H. by apply (hasBlankRun_infix [] a b). Qed.

Lemma tidy_StripQuotes body : tidy (StripQuotes body).
Proof. rewrite StripQuotes_eq. apply tidy_TrimSpace, hasBlankRun_squeezeNewlines. Qed.

Lemma tidy_truncateAt r s : tidy s -> tidy (truncateAt r s).
Proof.
  intros Hs. unfold truncateAt. destruct (FindStringIndex r s) as [loc|]; [|done].
  apply tidy_TrimSpace. destruct Hs as [_ Hs].
  rewrite <- (take_drop (fst loc) s) in Hs. by apply hasBlankRun_before in Hs.
Qed.

Lemma Join_take ls : forall i,
  exists post, Join ls lineBreak = Join (take i ls) lineBreak ++ post.
Proof.
  induction ls as [|l ls IH]; intros i; [exists []; by destruct i|].
  destruct i as [|i]; [by eexists|].
  destruct ls as [|l' ls]; [exists []; destruct i; cbn; by rewrite app_nil_r|].
  destruct (IH i) as [post Hpost].
  destruct i as [|i].
  - cbn [take]. rewrite Join_cons. eexists. cbn [Join]. reflexivity.
  - change (take (S (S i)) (l :: l' :: ls))
      with (l :: l' :: take i ls).
    change (take (S i) (l' :: ls)) with (l' :: take i ls) in Hpost.
    rewrite !Join_cons, Hpost. exists post.
    by rewrite <- app_assoc, <- app_comm_cons.
Qed.

Lemma tidy_StripSignature s : tidy s -> tidy (StripSignature s).
Proof.
  intros Hs. rewrite StripSignature_eq. cbn zeta.
  apply (tidy_truncateAt sigDelimiterPattern) in Hs.
  set (b := truncateAt sigDelimiterPattern s) in *.
  destruct (lastSignatureLine (Split b nl)) as [i|]; [|done].
  apply tidy_TrimSpace. destruct Hs as [_ Hs].
  destruct (Join_take (Split b nl) i) as [post Hpost].
  rewrite Join_Split in Hpost. rewrite Hpost in Hs.
  by apply hasBlankRun_before in Hs.
Qed.

Lemma StripQuotes_fix out :
  tidy out -> noQuoteMarker out = true -> StripQuotes out = out.
Proof.
  intros [Ht Hr] Hm. unfold noQuoteMarker in Hm.
  cbn [forallb truncationPatterns app] in Hm.
  repeat (apply andb_prop in Hm as [?%negb_true_iff Hm]).
  unfold StripQuotes. cbn [fold_left].
  rewrite (truncateAt_no_match attributionPattern) by done.
  rewrite (truncateAt_no_match forwardedPattern) by done.
  rewrite (truncateAt_no_match originalMsgPattern) by done.
  rewrite (truncateAt_no_match outlookHeaderPattern) by done.
  rewrite (ReplaceAllString_no_match quotedLinePattern)
    by (by apply MatchString_false).
  rewrite ReplaceAllString_newlines, squeezeNewlines_fix by done.
  by apply TrimSpace_trimmed.
Qed.

Lemma StripSignature_fix out :
  noSignatureMarker out = true -> StripSignature out = out.
Proof.
  intros [Hd%negb_true_iff Hl%bool_decide_eq_true_1]%andb_prop.
  rewrite StripSignature_eq. cbn zeta.
  rewrite truncateAt_no_match by done. by rewrite Hl.
Qed.

End Stable.

Section CleanBody.
Variable html_Parse : list N -> option Node.

Lemma tidy_CleanBody body opts :
  ExportOptions.StripQuotes opts = true -> tidy (CleanBody html_Parse body opts).
Proof.
  intros Hq. unfold CleanBody. rewrite Hq.
  destruct (ExportOptions.StripSignatures opts);
    [apply tidy_StripSignature|]; apply tidy_StripQuotes.
Qed.

(** C1 (amended): cleaning its own output again changes nothing whenever
    that output does not look like markup and shows nothing more for the
    enabled passes to strip: no match of a truncation pattern and no
    quoted line when quotes are stripped, no delimiter and no signature
    phrase in the last five lines when signatures are stripped. *)
Theorem CleanBody_stable (body : list N) (opts : ExportOptions.t) :
  looksLikeHTML (CleanBody html_Parse body opts) = false ->
  (ExportOptions.StripQuotes opts = true ->
   noQuoteMarker (CleanBody html_Parse body opts) = true) ->
  (ExportOptions.StripSignatures opts = true ->
   noSignatureMarker (CleanBody html_Parse body opts) = true) ->
  CleanBody html_Parse (CleanBody html_Parse body opts) opts
  = CleanBody html_Parse body opts.
Proof.
  pose proof (tidy_CleanBody body opts) as Ht.
  generalize dependent (CleanBody html_Parse body opts).
  intros out Ht Hh Hq Hs.
  unfold CleanBody. rewrite Hh.
  destruct (ExportOptions.StripQuotes opts).
  - rewrite StripQuotes_fix by auto.
    destruct (ExportOptions.StripSignatures opts); [|done].
    by apply StripSignature_fix, Hs.
  - destruct (ExportOptions.StripSignatures opts); [|done].
    by apply StripSignature_fix, Hs.
Qed.

End CleanBody.

(** C1 as stated fails: each pass of the signature scan removes one
    signature line, and the second cleaning finds the next. *)
Lemma CleanBody_not_idempotent :
  CleanBody parseAsText (str "a\nSent via x\nSent via y") DefaultLLMOptions
  = str "a\nSent via x"
  /\ CleanBody parseAsText (str "a\nSent via x") DefaultLLMOptions = str "a".
Proof. split; vm_compute; reflexivity. Qed.

Lemma CleanBody_stable_witness :
  CleanBody parseAsText
    (CleanBody parseAsText
       (str "Body text\nOn Jan 1, 2024 at 10:00 AM John <j@x.com> wrote:\n> quoted")
       DefaultLLMOptions)
    DefaultLLMOptions
  = CleanBody parseAsText
      (str "Body text\nOn Jan 1, 2024 at 10:00 AM John <j@x.com> wrote:\n> quoted")
      DefaultLLMOptions.
Proof.
  apply (CleanBody_stable parseAsText
           (str "Body text\nOn Jan 1, 2024 at 10:00 AM John <j@x.com> wrote:\n> quoted")
           DefaultLLMOptions);
    [|intros _..]; vm_compute; reflexivity.
Defined.

(** ** [GroupEmailsBySubject] *)

Lemma elem_of_first_seen k keys : k ∈ first_seen keys <-> k ∈ keys.
Proof.
  induction keys as [|k0 keys IH]; simpl; [done|].
  rewrite !elem_of_cons, list_elem_of_filter, IH.
  destruct (decide (k = k0)); naive_solver.
Qed.

Lemma NoDup_first_seen keys : NoDup (first_seen keys).
Proof.
  induction keys as [|k0 keys IH]; simpl; [constructor|].
  constructor.
  - rewrite list_elem_of_filter. naive_solver.
  - by apply NoDup_filter.
Qed.

Lemma filter_ne_id (k : list N) (l : list (list N)) :
  k ∉ l -> filter (fun k' => k' <> k) l = l.
Proof.
  induction l as [|x l IH]; intros Hk; [done|].
  rewrite not_elem_of_cons in Hk. destruct Hk as [Hne Hk].
  rewrite filter_cons. destruct (decide (x <> k)) as [|n]; [|destruct n; congruence].
  by rewrite IH.
Qed.

Lemma first_seen_snoc keys k :
  first_seen (keys ++ [k]) =
  if decide (k ∈ keys) then first_seen keys else first_seen keys ++ [k].
Proof.
  induction keys as [|k0 keys IH].
  - destruct (decide (k ∈ [])) as [H|H]; [by apply elem_of_nil in H|done].
  - change (first_seen ((k0 :: keys) ++ [k])) with
      (k0 :: filter (fun k' => k' <> k0) (first_seen (keys ++ [k]))).
    change (first_seen (k0 :: keys)) with
      (k0 :: filter (fun k' => k' <> k0) (first_seen keys)).
    rewrite IH. destruct (decide (k = k0)) as [->|Hne].
    + destruct (decide (k0 ∈ k0 :: keys)) as [_|H]; [|destruct H; left].
      destruct (decide (k0 ∈ keys)); [done|].
      rewrite filter_app, filter_cons.
      destruct (decide (k0 <> k0)); [congruence|].
      by rewrite filter_nil, app_nil_r.
    + destruct (decide (k ∈ keys)) as [Hin|Hnin].
      * destruct (decide (k ∈ k0 :: keys)) as [_|H]; [done|].
        destruct H. by right.
      * destruct (decide (k ∈ k0 :: keys)) as [H|_].
        { apply elem_of_cons in H. naive_solver. }
        rewrite filter_app, filter_cons.
        destruct (decide (k <> k0)); [|done]. by rewrite filter_nil.
Qed.

Section Grouping.
Variable tbl : N -> N.
Variable time_Parse : list N -> option Z.
Variable sort_Slice : forall A : Type, list A -> (A -> A -> bool) -> list A.
Local Abbreviation keyOf := (keyOf tbl).
Local Abbreviation membersOf := (membersOf tbl).
Local Abbreviation receivedKey := (receivedKey time_Parse).
Local Abbreviation grouped := (grouped tbl).
Local Abbreviation itemFor := (itemFor tbl time_Parse sort_Slice).
Local Abbreviation groupStep := (groupStep tbl).
Local Abbreviation buildItem := (buildItem time_Parse sort_Slice).
Local Abbreviation buildItems := (buildItems time_Parse sort_Slice).

Lemma membersOf_absent k emails :
  k ∉ keyOf <$> emails -> membersOf k emails = [].
Proof.
  intros Hk. unfold membersOf. induction emails as [|e emails IH]; [done|].
  rewrite fmap_cons, not_elem_of_cons in Hk. destruct Hk as [Hne Hk].
  rewrite filter_cons. destruct (decide (keyOf e = k)); [congruence|].
  by apply IH.
Qed.

Lemma grouped_step emails st e :
  grouped emails st -> grouped (emails ++ [e]) (groupStep st e).
Proof.
  destruct st as [groups order]. intros [Ho Hg]. simpl in Ho, Hg.
  unfold groupStep. fold (keyOf e).
  split; cbn [fst snd].
  - rewrite fmap_app. change (keyOf <$> [e]) with [keyOf e].
    rewrite first_seen_snoc, Hg, Ho.
    destruct (decide (keyOf e ∈ keyOf <$> emails)); done.
  - intros k. rewrite fmap_app. change (keyOf <$> [e]) with [keyOf e].
    destruct (decide (keyOf e = k)) as [<-|Hne].
    + rewrite lookup_insert_eq.
      rewrite decide_True by (rewrite elem_of_app, list_elem_of_singleton; by right).
      f_equal. unfold membersOf. rewrite filter_app.
      rewrite filter_cons, decide_True by done. rewrite filter_nil.
      f_equal. rewrite Hg.
      destruct (decide (keyOf e ∈ keyOf <$> emails)); [done|].
      simpl. symmetry. by apply membersOf_absent.
    + rewrite lookup_insert_ne by done. rewrite Hg.
      unfold membersOf. rewrite filter_app, filter_cons.
      destruct (decide (keyOf e = k)); [congruence|].
      rewrite filter_nil, app_nil_r.
      destruct (decide (k ∈ keyOf <$> emails)) as [Hin|Hnin].
      * rewrite decide_True by (rewrite elem_of_app; by left). done.
      * rewrite decide_False; [done|].
        rewrite elem_of_app, list_elem_of_singleton. naive_solver.
Qed.

Lemma grouped_fold emails : forall pre st,
  grouped pre st -> grouped (pre ++ emails) (fold_left groupStep emails st).
Proof.
  induction emails as [|e emails IH]; intros pre st Hst; simpl.
  - by rewrite app_nil_r.
  - replace (pre ++ e :: emails) with ((pre ++ [e]) ++ emails)
      by (by rewrite <- app_assoc).
    apply IH. by apply grouped_step.
Qed.

Lemma grouped_init : grouped [] (∅, []).
Proof. split; [done|]. intros k. simpl. apply lookup_empty. Qed.

(** The contract of [sort.Slice]: the slice is permuted, and ends up
    in ascending order when [less] compares an integer key. *)
Hypothesis sort_Slice_permutes :
  forall (A : Type) (l : list A) (less : A -> A -> bool),
    sort_Slice A l less ≡ₚ l.

Hypothesis sort_Slice_sorts :
  forall (A : Type) (key : A -> Z) (l : list A),
    Sorted (fun a b => (key a <= key b)%Z)
           (sort_Slice A l (fun a b => (key a <? key b)%Z)).

Lemma membersOf_present k emails :
  k ∈ keyOf <$> emails -> membersOf k emails <> [].
Proof.
  intros Hk. apply list_elem_of_fmap in Hk as (e & -> & He).
  intros Hnil. assert (e ∈ membersOf (keyOf e) emails) as Hin.
  { unfold membersOf. by apply list_elem_of_filter. }
  rewrite Hnil in Hin. by apply elem_of_nil in Hin.
Qed.

Lemma buildItem_grouped emails st k :
  grouped emails st -> k ∈ keyOf <$> emails ->
  exists item, buildItem st.1 k = Some item /\ itemFor emails k item.
Proof using sort_Slice_permutes.
  intros [_ Hg] Hk. unfold buildItem. rewrite Hg.
  rewrite decide_True by done. cbn [from_option]. unfold id.
  set (sorted := sort_Slice _ (membersOf k emails) (receivedBefore time_Parse)).
  destruct (last sorted) as [newest|] eqn:Hlast.
  - eexists. split; [reflexivity|].
    repeat split; cbn; try reflexivity.
    exists newest. by repeat split.
  - apply last_None in Hlast.
    pose proof (sort_Slice_permutes _ (membersOf k emails)
                  (receivedBefore time_Parse)) as Hp.
    fold sorted in Hp. rewrite Hlast in Hp.
    apply Permutation_nil_l in Hp. by apply membersOf_present in Hk.
Qed.

Lemma buildItems_grouped emails st order :
  grouped emails st -> Forall (fun k => k ∈ keyOf <$> emails) order ->
  exists items, buildItems st.1 order = Some items /\
                Forall2 (itemFor emails) order items.
Proof using sort_Slice_permutes.
  intros Hst. induction 1 as [|k order Hk _ IH]; simpl.
  - by exists [].
  - destruct (buildItem_grouped _ _ _ Hst Hk) as (item & -> & Hitem).
    destruct IH as (items & -> & Hitems).
    exists (item :: items). split; [done|]. by constructor.
Qed.

(** The function returns, and its items are those of the first-seen
    keys. *)
Lemma GroupEmailsBySubject_items emails :
  exists items,
    GroupEmailsBySubject tbl time_Parse sort_Slice emails = Some items /\
    Forall2 (itemFor emails) (first_seen (keyOf <$> emails)) items.
Proof using sort_Slice_permutes.
  unfold GroupEmailsBySubject.
  pose proof (grouped_fold emails [] _ grouped_init) as Hst.
  rewrite app_nil_l in Hst.
  destruct (fold_left groupStep emails (∅, [])) as [groups order] eqn:Hfold.
  destruct (Hst) as [Ho _]. simpl in Ho. subst order.
  apply (buildItems_grouped emails (groups, first_seen (keyOf <$> emails))); [done|].
  apply Forall_forall. intros k. by rewrite elem_of_first_seen.
Qed.

Lemma concat_cons_one (f : list N -> list Email.t) e k0 ks :
  NoDup ks -> k0 ∈ ks ->
  concat ((fun k => if decide (k0 = k) then e :: f k else f k) <$> ks)
  ≡ₚ e :: concat (f <$> ks).
Proof.
  induction 1 as [|k ks Hk Hnd IH]; intros Hin.
  - by apply elem_of_nil in Hin.
  - rewrite !fmap_cons. cbn [concat].
    destruct (decide (k0 = k)) as [->|Hne].
    + cbn. do 2 f_equiv.
      apply reflexive_eq. f_equal. apply list_fmap_ext.
      intros _ k' Hk'%list_elem_of_lookup_2.
      destruct (decide (k = k')); [congruence|done].
    + apply elem_of_cons in Hin as [?|Hin]; [done|].
      rewrite (IH Hin). by rewrite Permutation_middle.
Qed.

Lemma membersOf_partition ks emails :
  NoDup ks -> (forall e, e ∈ emails -> keyOf e ∈ ks) ->
  concat ((fun k => membersOf k emails) <$> ks) ≡ₚ emails.
Proof.
  intros Hnd. induction emails as [|e emails IH]; intros Hks.
  - clear. induction ks as [|k ks IHk]; [done|].
    rewrite fmap_cons. cbn [concat]. exact IHk.
  - trans (e :: concat ((fun k => membersOf k emails) <$> ks));
      [|constructor; apply IH; intros; apply Hks; by right].
    rewrite <- (concat_cons_one _ e (keyOf e)); [|done|apply Hks; by left].
    apply reflexive_eq. reflexivity.
Qed.

Lemma itemFor_members emails ks items :
  Forall2 (itemFor emails) ks items ->
  concat (ThreadItem.Emails <$> items)
  ≡ₚ concat ((fun k => membersOf k emails) <$> ks).
Proof using sort_Slice_permutes.
  induction 1 as [|k item ks items (_ & He & _) _ IH]; [done|].
  rewrite !fmap_cons. cbn [concat]. by rewrite IH, He, sort_Slice_permutes.
Qed.

Lemma itemFor_keys emails ks items :
  Forall2 (itemFor emails) ks items ->
  ThreadItem.NormalizedSubject <$> items = ks.
Proof.
  induction 1 as [|k item ks items (Hk & _) _ IH]; [done|].
  rewrite fmap_cons. by rewrite IH, Hk.
Qed.

Lemma sum_counts (items : list ThreadItem.t) :
  Forall (fun item => ThreadItem.EmailCount item
                      = Z.of_nat (length (ThreadItem.Emails item))) items ->
  foldr Z.add 0%Z (ThreadItem.EmailCount <$> items)
  = Z.of_nat (length (concat (ThreadItem.Emails <$> items))).
Proof.
  induction 1 as [|item items Hc _ IH]; [done|].
  rewrite !fmap_cons. cbn [foldr concat].
  rewrite length_app, IH, Hc. lia.
Qed.

Lemma NoDup_fmap_eq {A B} (f : A -> B) (l : list A) x y :
  NoDup (f <$> l) -> x ∈ l -> y ∈ l -> f x = f y -> x = y.
Proof.
  induction l as [|a l IH]; intros Hnd Hx Hy Hf.
  - by apply elem_of_nil in Hx.
  - rewrite fmap_cons in Hnd. apply NoDup_cons in Hnd as [Ha Hnd].
    apply elem_of_cons in Hx as [->|Hx]; apply elem_of_cons in Hy as [->|Hy].
    + done.
    + destruct Ha. rewrite Hf. by apply list_elem_of_fmap_2.
    + destruct Ha. rewrite <- Hf. by apply list_elem_of_fmap_2.
    + by apply IH.
Qed.


Local Abbreviation GroupEmailsBySubject :=
  (GroupEmailsBySubject tbl time_Parse sort_Slice).

(** C2. The conversations come in the order in which each distinct
    normalized subject was first seen in the input; messages with the
    subjects A, B, A give the conversations A, B. *)
Theorem GroupEmailsBySubject_first_seen_order (emails : list Email.t) :
  (exists items,
     GroupEmailsBySubject emails = Some items /\
     ThreadItem.NormalizedSubject <$> items = first_seen (keyOf <$> emails))
  /\
  (forall a1 b a2,
     Email.Subject a1 = str "A" -> Email.Subject b = str "B" ->
     Email.Subject a2 = str "A" ->
     exists ia ib,
       GroupEmailsBySubject [a1; b; a2] = Some [ia; ib] /\
       ThreadItem.NormalizedSubject ia = str "a" /\
       ThreadItem.NormalizedSubject ib = str "b" /\
       ThreadItem.Subject ia = str "A" /\
       ThreadItem.Subject ib = str "B").
Proof using sort_Slice_permutes.
  split.
  - destruct (GroupEmailsBySubject_items emails) as (items & Hrun & Hitems).
    exists items. split; [done|]. by apply (itemFor_keys emails).
  - intros a1 b a2 Ha1 Hb Ha2.
    destruct (GroupEmailsBySubject_items [a1; b; a2]) as (items & Hrun & Hitems).
    assert (keyOf a1 = str "a") as Hk1 by (unfold keyOf; by rewrite Ha1).
    assert (keyOf b = str "b") as Hkb by (unfold keyOf; by rewrite Hb).
    assert (keyOf a2 = str "a") as Hk2 by (unfold keyOf; by rewrite Ha2).
    assert (first_seen (keyOf <$> [a1; b; a2]) = [str "a"; str "b"]) as Hfs.
    { cbn [fmap list_fmap]. rewrite Hk1, Hkb, Hk2. by vm_compute. }
    rewrite Hfs in Hitems.
    apply Forall2_cons_inv_l in Hitems as (ia & items' & Hia & Hitems & ->).
    apply Forall2_cons_inv_l in Hitems as (ib & items'' & Hib & Hitems & ->).
    apply Forall2_nil_inv_l in Hitems as ->.
    exists ia, ib. split; [done|].
    destruct Hia as (Hka & Hea & _ & na & Hla & Hsa & _).
    destruct Hib as (Hkb' & Heb & _ & nb & Hlb & Hsb & _).
    assert (str "a" <> str "b") as Hab by (by vm_compute).
    repeat split; try done.
    + rewrite Hsa. apply last_Some_elem_of in Hla.
      rewrite Hea, sort_Slice_permutes in Hla.
      apply list_elem_of_filter in Hla as [Hkey Hla].
      rewrite !elem_of_cons in Hla.
      destruct Hla as [->|[->|[->|Hla]]]; try done.
      * congruence.
      * by apply elem_of_nil in Hla.
    + rewrite Hsb. apply last_Some_elem_of in Hlb.
      rewrite Heb, sort_Slice_permutes in Hlb.
      apply list_elem_of_filter in Hlb as [Hkey Hlb].
      rewrite !elem_of_cons in Hlb.
      destruct Hlb as [->|[->|[->|Hlb]]]; try done.
      * congruence.
      * congruence.
      * by apply elem_of_nil in Hlb.
Qed.

Lemma elem_of_concat {A} (x : A) (ls : list (list A)) :
  x ∈ concat ls <-> exists l, x ∈ l /\ l ∈ ls.
Proof.
  induction ls as [|l ls IH]; cbn [concat].
  - split; [by intros ?%elem_of_nil|by intros (? & _ & ?%elem_of_nil)].
  - rewrite elem_of_app, IH. split.
    + intros [Hx|(l' & Hx & Hl')]; [exists l; split; [done|left]|].
      exists l'. split; [done|by right].
    + intros (l' & Hx & [->|Hl']%elem_of_cons); [by left|].
      right. by exists l'.
Qed.

Lemma itemFor_each emails ks items :
  Forall2 (itemFor emails) ks items ->
  Forall (fun item => exists k, k ∈ ks /\ itemFor emails k item) items.
Proof.
  induction 1 as [|k item ks items Hitem _ IH]; constructor.
  - exists k. split; [left|done].
  - eapply Forall_impl; [exact IH|].
    intros item' (k' & Hk' & Hitem'). exists k'. split; [by right|done].
Qed.



(** C10. The member lists partition the input: together they are a
    rearrangement of it, each message lies in exactly one conversation
    (the one of its normalized subject, and no two conversations share
    one), no conversation is empty, so that its last member exists,
    [EmailCount] is the length of the member list, and the counts add up
    to the number of messages. *)
Theorem GroupEmailsBySubject_partition (emails : list Email.t) :
  exists items,
    GroupEmailsBySubject emails = Some items /\
    concat (ThreadItem.Emails <$> items) ≡ₚ emails /\
    NoDup (ThreadItem.NormalizedSubject <$> items) /\
    Forall (fun item =>
      ThreadItem.Emails item <> [] /\
      is_Some (last (ThreadItem.Emails item)) /\
      ThreadItem.EmailCount item
        = Z.of_nat (length (ThreadItem.Emails item)) /\
      Forall (fun e => keyOf e = ThreadItem.NormalizedSubject item)
             (ThreadItem.Emails item)) items /\
    (forall e, e ∈ emails ->
       exists item, item ∈ items /\ e ∈ ThreadItem.Emails item /\
         forall item', item' ∈ items -> e ∈ ThreadItem.Emails item' ->
                       item' = item) /\
    foldr Z.add 0%Z (ThreadItem.EmailCount <$> items)
      = Z.of_nat (length emails).
Proof using sort_Slice_permutes.
  destruct (GroupEmailsBySubject_items emails) as (items & Hrun & Hitems).
  exists items. split; [done|].
  assert (concat (ThreadItem.Emails <$> items) ≡ₚ emails) as Hperm.
  { rewrite (itemFor_members _ _ _ Hitems).
    apply membersOf_partition; [apply NoDup_first_seen|].
    intros e He. apply elem_of_first_seen. by apply list_elem_of_fmap_2. }
  assert (NoDup (ThreadItem.NormalizedSubject <$> items)) as Hnd.
  { rewrite (itemFor_keys _ _ _ Hitems). apply NoDup_first_seen. }
  assert (Forall (fun item =>
      ThreadItem.Emails item <> [] /\
      is_Some (last (ThreadItem.Emails item)) /\
      ThreadItem.EmailCount item
        = Z.of_nat (length (ThreadItem.Emails item)) /\
      Forall (fun e => keyOf e = ThreadItem.NormalizedSubject item)
             (ThreadItem.Emails item)) items) as Heach.
  { eapply Forall_impl; [exact (itemFor_each _ _ _ Hitems)|].
    intros item (k & _ & Hk & He & Hc & newest & Hlast & _).
    split; [by intros Hnil; rewrite Hnil in Hlast|].
    split; [by exists newest|]. split; [done|].
    apply Forall_forall. intros e Hin.
    rewrite He, sort_Slice_permutes in Hin.
    apply list_elem_of_filter in Hin as [Hin _]. by rewrite Hk. }
  repeat split; try done.
  - intros e He. rewrite <- Hperm in He.
    apply elem_of_concat in He as (l & He & Hl).
    apply list_elem_of_fmap in Hl as (item & -> & Hitem).
    exists item. repeat split; try done.
    intros item' Hitem' He'.
    apply (NoDup_fmap_eq ThreadItem.NormalizedSubject items); try done.
    rewrite Forall_forall in Heach.
    destruct (Heach _ Hitem) as (_ & _ & _ & Hk).
    destruct (Heach _ Hitem') as (_ & _ & _ & Hk').
    rewrite Forall_forall in Hk, Hk'.
    by rewrite <- (Hk e He), <- (Hk' e He').
  - rewrite sum_counts.
    + by rewrite Hperm.
    + eapply Forall_impl; [exact Heach|]. by intros item (_ & _ & ? & _).
Qed.

End Grouping.

(** ** The conversations of an example *)

Lemma insertSorted_Permutation {A} (less : A -> A -> bool) x l :
  insertSorted less x l ≡ₚ x :: l.
Proof.
  induction l as [|y l IH]; simpl; [done|].
  destruct (less x y); [done|]. by rewrite IH, Permutation_swap.
Qed.

Lemma insertionSort_Permutation (A : Type) (l : list A) less :
  insertionSort A l less ≡ₚ l.
Proof.
  unfold insertionSort.
  enough (forall acc, fold_left (fun sorted x => insertSorted less x sorted) l acc
                      ≡ₚ acc ++ l) as H by apply (H []).
  induction l as [|x l IH]; intros acc; simpl.
  - by rewrite app_nil_r.
  - rewrite IH, insertSorted_Permutation. by rewrite <- Permutation_middle.
Qed.



Lemma GroupEmailsBySubject_first_seen_order_witness :
  exists items,
    GroupEmailsBySubject latin1Lower parseUTC insertionSort inbox = Some items
    /\ ThreadItem.NormalizedSubject <$> items
       = first_seen (keyOf latin1Lower <$> inbox).
Proof.
  exact (proj1 (GroupEmailsBySubject_first_seen_order latin1Lower parseUTC
                  insertionSort insertionSort_Permutation inbox)).
Defined.


Lemma GroupEmailsBySubject_partition_witness :
  exists items,
    GroupEmailsBySubject latin1Lower parseUTC insertionSort inbox = Some items
    /\ concat (ThreadItem.Emails <$> items) ≡ₚ inbox.
Proof.
  destruct (GroupEmailsBySubject_partition latin1Lower parseUTC
              insertionSort insertionSort_Permutation inbox)
    as (items & Hrun & Hperm & _).
  exists items. split; [exact Hrun|exact Hperm].
Defined.

(** * Further properties of the program *)

(** ** What the whitespace cleanup returns *)

Section CleanedText.
Local Open Scope nat_scope.

Lemma squeezed_class p c s x :
  squeezed p c s = true -> x ∈ s -> p x = true -> x = c.
Proof.
  induction s as [|y s IH]; intros Hs Hx Hp; [by apply elem_of_nil in Hx|].
  rewrite squeezed_cons in Hs. apply andb_prop in Hs as [Hy Hs].
  apply elem_of_cons in Hx as [->|Hx]; [|by apply IH].
  rewrite Hp in Hy. cbn in Hy. apply andb_prop in Hy as [Hy _].
  by apply N.eqb_eq in Hy.
Qed.

Lemma squeezed_no_pair p c s pre a b post :
  squeezed p c s = true -> s = pre ++ a :: b :: post ->
  p a = true -> p b = false.
Proof.
  intros Hs -> Ha. apply squeezed_suffix in Hs.
  rewrite squeezed_cons, Ha in Hs. cbn in Hs.
  apply andb_prop in Hs as [Hs _]. apply andb_prop in Hs as [_ Hs].
  by apply negb_true_iff in Hs.
Qed.

Lemma trimmed_blank_line l : trimmed l -> forallb IsSpace l = true -> l = [].
Proof.
  intros Ht Hl. apply TrimSpace_nil_iff in Hl.
  by rewrite (TrimSpace_trimmed _ Ht) in Hl.
Qed.

Lemma blankLinesEmpty_trimmed t :
  Forall trimmed (Split t nl) -> blankLinesEmpty t = true.
Proof.
  intros Hl. unfold blankLinesEmpty. apply forallb_forall.
  intros l Hin. rewrite Forall_forall in Hl.
  destruct (forallb IsSpace l) eqn:E; [|done].
  rewrite (trimmed_blank_line l); [done| |done].
  apply Hl. by apply list_elem_of_In.
Qed.

Lemma length_squeezeNewlines_squeeze s :
  length (squeezeNewlines (squeeze cls_blank [sp] s)) <= length s.
Proof.
  etrans; [apply length_squeezeNewlines|apply length_squeeze].
Qed.

(** X1. What [cleanWhitespace] returns holds no tab and no two blanks in a
    row, none of its lines begins or ends with whitespace, nor does the
    text itself, and it is no longer than the input. *)
Theorem cleanWhitespace_output (s : list N) :
  9%N ∉ cleanWhitespace s
  /\ (forall pre post, cleanWhitespace s <> pre ++ [sp; sp] ++ post)
  /\ Forall (fun l => startsWith IsSpace l = false /\ endsWith IsSpace l = false)
            (Split (cleanWhitespace s) nl)
  /\ startsWith IsSpace (cleanWhitespace s) = false
  /\ endsWith IsSpace (cleanWhitespace s) = false
  /\ length (cleanWhitespace s) <= length s.
Proof.
  destruct (cleanWhitespace_shape s) as (Hb & Hl & Ht). cbn zeta in *.
  repeat split.
  - intros Hin. by pose proof (squeezed_class _ _ _ _ Hb Hin eq_refl).
  - intros pre post Heq.
    by pose proof (squeezed_no_pair _ _ _ pre sp sp post Hb Heq eq_refl).
  - eapply Forall_impl; [exact Hl|]. intros l. by rewrite trimmed_ends.
  - by apply trimmed_ends in Ht as [? _].
  - by apply trimmed_ends in Ht as [_ ?].
  - etrans; [apply length_cleanWhitespace|apply length_squeezeNewlines_squeeze].
Qed.

(** X2. The cleanup is stable from its second application on. *)
Theorem cleanWhitespace_thrice (s : list N) :
  cleanWhitespace (cleanWhitespace (cleanWhitespace s))
  = cleanWhitespace (cleanWhitespace s).
Proof.
  apply cleanWhitespace_twice, cleanWhitespace_no_blank_run.
  apply blankLinesEmpty_trimmed.
  by destruct (cleanWhitespace_shape s) as (_ & Hl & _).
Qed.
End CleanedText.

(** ** Keys of subjects *)

Section Subjects.
Local Open Scope nat_scope.
Variable tbl : N -> N.

Lemma stripPrefixes_fuel fuel1 : forall fuel2 s,
  length s < fuel1 -> length s < fuel2 ->
  stripPrefixes fuel1 s = stripPrefixes fuel2 s.
Proof.
  induction fuel1 as [|fuel1 IH]; intros fuel2 s H1 H2; [lia|].
  destruct fuel2 as [|fuel2]; [lia|]. rewrite !stripPrefixes_S.
  destruct (prefixLength s) as [n|] eqn:Hn; [|done].
  apply length_stripOnce in Hn. apply IH; lia.
Qed.

Lemma foldIs_d_colon c : foldIs 100 c = true -> foldIs 58 c = true -> False.
Proof.
  unfold foldIs, lowerOf, upperOf. compare_runes; try done; lia.
Qed.

Lemma prefixLength_whole pre rest :
  prefixLength pre = Some (length pre) ->
  prefixLength (pre ++ rest) = Some (length pre).
Proof.
  intros H. pose proof (prefixLength_bound _ _ H) as Hb.
  revert H. unfold prefixLength.
  change (classesOf "re:") with [foldIs 114; foldIs 101; foldIs 58].
  change (classesOf "fwd:") with [foldIs 102; foldIs 119; foldIs 100; foldIs 58].
  change (classesOf "fw:") with [foldIs 102; foldIs 119; foldIs 58].
  destruct pre as [|a [|b [|c [|d [|e pre]]]]]; simpl in Hb; try lia;
    cbn [startsWithClasses app length];
    repeat (match goal with
            | |- context [foldIs ?k ?x] => destruct (foldIs k x) eqn:?
            end; cbn [andb]); try done.
  all: exfalso; eapply foldIs_d_colon; eassumption.
Qed.

Lemma dropWhile_app_all {A} (p : A -> bool) ws s :
  forallb p ws = true -> dropWhile p (ws ++ s) = dropWhile p s.
Proof.
  induction ws as [|w ws IH]; [done|]. cbn.
  intros [-> H]%andb_prop. by apply IH.
Qed.

Lemma stripPrefixes_reply pre ws s :
  prefixLength pre = Some (length pre) -> forallb cls_s ws = true ->
  startsWith cls_s s = false ->
  stripPrefixes (S (length (pre ++ ws ++ s))) (pre ++ ws ++ s)
  = stripPrefixes (S (length s)) s.
Proof.
  intros Hpre Hws Hs. rewrite stripPrefixes_S.
  rewrite (prefixLength_whole _ _ Hpre). unfold stripOnce.
  rewrite (prefixLength_whole _ _ Hpre), drop_app_length.
  rewrite dropWhile_app_all by done.
  assert (dropWhile cls_s s = s) as ->.
  { destruct s as [|c s]; [done|]. cbn in *. by rewrite Hs. }
  pose proof (prefixLength_bound _ _ Hpre).
  apply stripPrefixes_fuel; rewrite ?length_app; lia.
Qed.

(** X3. A reply or forward prefix in front of a subject, with the whitespace
    after it, does not change the key of the subject, when the subject
    itself does not begin with whitespace: a reply is grouped with the
    message it answers. *)
Theorem NormalizeSubject_reply (pre ws s : list N) :
  prefixLength pre = Some (length pre) -> forallb cls_s ws = true ->
  startsWith cls_s s = false ->
  NormalizeSubject tbl (pre ++ ws ++ s) = NormalizeSubject tbl s.
Proof.
  intros Hpre Hws Hs. unfold NormalizeSubject.
  by rewrite stripPrefixes_reply.
Qed.

Hypothesis tbl_lower : forall r, (128 <= r)%N -> ToLowerRune tbl (tbl r) = tbl r.
Hypothesis tbl_space : forall r, (128 <= r)%N -> IsSpace (tbl r) = IsSpace r.
Hypothesis tbl_ascii :
  forall r, (128 <= r)%N -> (tbl r < 128)%N -> tbl r = 105%N \/ tbl r = 107%N.

Lemma IsSpace_ToLowerRune c : IsSpace (ToLowerRune tbl c) = IsSpace c.
Proof using tbl_space.
  unfold ToLowerRune. destruct (N.ltb_spec c 128); [|by apply tbl_space].
  destruct ((65 <=? c)%N && (c <=? 90)%N) eqn:E; [|done].
  apply andb_prop in E as [H1%N.leb_le H2%N.leb_le].
  unfold IsSpace. compare_runes; try done; lia.
Qed.

Lemma dropWhile_map {A} (f : A -> A) (p : A -> bool) l :
  (forall x, p (f x) = p x) -> dropWhile p (map f l) = map f (dropWhile p l).
Proof.
  intros Hp. induction l as [|x l IH]; [done|]. cbn. rewrite Hp.
  by destruct (p x).
Qed.

Lemma TrimRight_map (f : N -> N) l :
  (forall x, IsSpace (f x) = IsSpace x) -> TrimRight (map f l) = map f (TrimRight l).
Proof.
  intros Hp. induction l as [|x l IH]; [done|].
  cbn [map]. rewrite !TrimRight_cons, IH, Hp.
  destruct (TrimRight l); [by destruct (IsSpace x)|done].
Qed.

Lemma TrimSpace_ToLower s :
  TrimSpace (ToLower tbl s) = ToLower tbl (TrimSpace s).
Proof using tbl_space.
  unfold TrimSpace, TrimLeft, ToLower.
  rewrite dropWhile_map by apply IsSpace_ToLowerRune.
  apply TrimRight_map, IsSpace_ToLowerRune.
Qed.

Lemma squeeze_ToLower s :
  squeeze cls_s [sp] (ToLower tbl s) = ToLower tbl (squeeze cls_s [sp] s).
Proof using tbl_ascii.
  induction s as [|c s IH]; [done|].
  change (ToLower tbl (c :: s)) with (ToLowerRune tbl c :: ToLower tbl s).
  rewrite !squeeze_cons, (cls_s_lower tbl tbl_ascii),
    (startsWith_lower tbl tbl_ascii), IH.
  destruct (cls_s c); [|done]. by destruct (startsWith cls_s s).
Qed.

Lemma stripOnce_ToLower s :
  stripOnce (ToLower tbl s) = ToLower tbl (stripOnce s).
Proof using tbl_ascii.
  unfold stripOnce. rewrite (prefixLength_lower tbl tbl_ascii).
  destruct (prefixLength s) as [n|]; [|done].
  unfold ToLower. rewrite skipn_map.
  apply dropWhile_map, (cls_s_lower tbl tbl_ascii).
Qed.

Lemma stripPrefixes_ToLower fuel : forall s,
  stripPrefixes fuel (ToLower tbl s) = ToLower tbl (stripPrefixes fuel s).
Proof using tbl_ascii.
  induction fuel as [|fuel IH]; intros s; [done|].
  rewrite !stripPrefixes_S, (prefixLength_lower tbl tbl_ascii).
  destruct (prefixLength s); [|done]. by rewrite stripOnce_ToLower, IH.
Qed.

Lemma NormalizeSubject_ToLower s :
  NormalizeSubject tbl (ToLower tbl s) = NormalizeSubject tbl s.
Proof using tbl_lower tbl_space tbl_ascii.
  rewrite !NormalizeSubject_eq.
  replace (length (ToLower tbl s)) with (length s)
    by (unfold ToLower; by rewrite length_map).
  rewrite stripPrefixes_ToLower, TrimSpace_ToLower, squeeze_ToLower.
  by apply ToLower_idem.
Qed.

(** X4. Subjects that differ only in the case of their letters have the same
    key. *)
Theorem NormalizeSubject_case_insensitive (s1 s2 : list N) :
  ToLower tbl s1 = ToLower tbl s2 ->
  NormalizeSubject tbl s1 = NormalizeSubject tbl s2.
Proof using tbl_lower tbl_space tbl_ascii.
  intros H. by rewrite <- (NormalizeSubject_ToLower s1), H, NormalizeSubject_ToLower.
Qed.

Lemma ToLowerRune_not_upper c :
  ~ (65 <= ToLowerRune tbl c <= 90)%N.
Proof using tbl_ascii.
  unfold ToLowerRune. pose proof (tbl_ascii c).
  destruct (N.ltb_spec c 128); compare_runes; lia.
Qed.

(** X5. A key holds no capital ASCII letter, is its own lower case, does not
    begin or end with whitespace, and its only whitespace of the class
    [\s] is single spaces. *)
Theorem NormalizeSubject_output (s : list N) :
  Forall (fun c => ~ (65 <= c <= 90)%N) (NormalizeSubject tbl s)
  /\ ToLower tbl (NormalizeSubject tbl s) = NormalizeSubject tbl s
  /\ startsWith IsSpace (NormalizeSubject tbl s) = false
  /\ endsWith IsSpace (NormalizeSubject tbl s) = false
  /\ (forall c, c ∈ NormalizeSubject tbl s -> cls_s c = true -> c = sp)
  /\ (forall pre post, NormalizeSubject tbl s <> pre ++ [sp; sp] ++ post).
Proof using tbl_lower tbl_space tbl_ascii.
  assert (trimmed (NormalizeSubject tbl s)) as Ht.
  { rewrite NormalizeSubject_eq. apply trimmed_lower.
    - intros r Hr Hs. by rewrite tbl_space.
    - apply trimmed_squeeze, trimmed_TrimSpace. }
  assert (squeezed cls_s sp (NormalizeSubject tbl s) = true) as Hq.
  { rewrite NormalizeSubject_eq. by apply squeezed_lower, squeezed_squeeze. }
  apply trimmed_ends in Ht as [Hl Hr].
  repeat split; try done.
  - rewrite NormalizeSubject_eq. unfold ToLower. apply Forall_map, Forall_forall.
    intros c _. apply ToLowerRune_not_upper.
  - rewrite NormalizeSubject_eq. by apply ToLower_idem.
  - intros c Hc Hs. by apply (squeezed_class cls_s sp _ c Hq).
  - intros pre post Heq.
    by pose proof (squeezed_no_pair _ _ _ pre sp sp post Hq Heq eq_refl).
Qed.
End Subjects.

(** ** The body text and its cleaning *)

Lemma firstBodyValue_first pre part post vals val :
  Forall (fun p => vals !! BodyPart.PartID p = None) pre ->
  vals !! BodyPart.PartID part = Some val ->
  firstBodyValue (pre ++ part :: post) vals = Some (BodyValue.Value val).
Proof.
  intros Hpre Hpart. induction Hpre as [|p pre Hp _ IH]; cbn.
  - by rewrite Hpart.
  - by rewrite Hp.
Qed.

(** X6. The body text is the value of the first text part that has one,
    whatever the HTML parts hold; without any, it is the value of the
    first HTML part that has one. Parts without a value are passed over. *)
Theorem GetBodyText_precedence (e : Email.t) pre part post val :
  Forall (fun p => Email.BodyValues e !! BodyPart.PartID p = None) pre ->
  Email.BodyValues e !! BodyPart.PartID part = Some val ->
  (Email.TextBody e = pre ++ part :: post ->
   GetBodyText e = BodyValue.Value val)
  /\ (Forall (fun p => Email.BodyValues e !! BodyPart.PartID p = None)
             (Email.TextBody e) ->
      Email.HTMLBody e = pre ++ part :: post ->
      GetBodyText e = BodyValue.Value val).
Proof.
  intros Hpre Hpart. unfold GetBodyText. split.
  - intros ->. by rewrite (firstBodyValue_first _ _ _ _ val).
  - intros Htext ->.
    by rewrite (firstBodyValue_none _ _ Htext), (firstBodyValue_first _ _ _ _ val).
Qed.

Section OnlyDeletes.
Local Open Scope nat_scope.

Lemma sublist_TrimSpace s : TrimSpace s `sublist_of` s.
Proof.
  destruct (TrimSpace_infix s) as (pre & post & H). rewrite H at 2.
  apply sublist_inserts_l, sublist_inserts_r. done.
Qed.

Lemma sublist_truncateAt r s : truncateAt r s `sublist_of` s.
Proof.
  unfold truncateAt. destruct (FindStringIndex r s) as [loc|]; [|done].
  etrans; [apply sublist_TrimSpace|apply sublist_take].
Qed.

Lemma sublist_unquote s : forall st, unquote st s `sublist_of` s.
Proof.
  induction s as [|c s IH]; intros st; [done|]. rewrite unquote_cons.
  destruct (c =? nl)%N eqn:E.
  - apply N.eqb_eq in E as ->. by apply sublist_skip.
  - destruct st; [destruct (isQuoteMark c)|..];
      (by apply sublist_skip) || (by apply sublist_cons).
Qed.

Lemma sublist_squeezeNewlines s : squeezeNewlines s `sublist_of` s.
Proof.
  induction s as [|c s IH]; [done|]. rewrite squeezeNewlines_cons.
  destruct (_ && _); [by apply sublist_cons|by apply sublist_skip].
Qed.

Lemma sublist_StripQuotes s : StripQuotes s `sublist_of` s.
Proof.
  rewrite StripQuotes_eq, <- unquote_emptyQuotedLines.
  etrans; [apply sublist_TrimSpace|].
  etrans; [apply sublist_squeezeNewlines|].
  etrans; [apply sublist_unquote|].
  cbn [fold_left truncationPatterns].
  repeat (etrans; [apply sublist_truncateAt|]). done.
Qed.

Lemma sublist_StripSignature s : StripSignature s `sublist_of` s.
Proof.
  rewrite StripSignature_eq. cbn zeta.
  set (b := truncateAt sigDelimiterPattern s).
  assert (b `sublist_of` s) as Hb by apply sublist_truncateAt.
  destruct (lastSignatureLine (Split b nl)) as [i|]; [|done].
  etrans; [apply sublist_TrimSpace|]. etrans; [|exact Hb].
  destruct (Join_take (Split b nl) i) as [post Hpost].
  rewrite Join_Split in Hpost. rewrite Hpost at 2.
  by apply sublist_inserts_r.
Qed.
End OnlyDeletes.

Section PlainText.
Variable html_Parse : list N -> option Node.

(** X7. On a body that does not look like markup, cleaning only deletes: what
    it returns is the body with some runes left out, in the same order. *)
Theorem CleanBody_only_deletes (body : list N) (opts : ExportOptions.t) :
  looksLikeHTML body = false ->
  CleanBody html_Parse body opts `sublist_of` body.
Proof.
  intros Hh. unfold CleanBody. rewrite Hh.
  destruct (ExportOptions.StripQuotes opts), (ExportOptions.StripSignatures opts);
    try done.
  - etrans; [apply sublist_StripSignature|apply sublist_StripQuotes].
  - apply sublist_StripQuotes.
  - apply sublist_StripSignature.
Qed.
End PlainText.

(** ** The cursor of the list of conversations *)

Section ThreadList.
Local Open Scope Z_scope.

Lemma wrap64_small z : - 2 ^ 63 <= z < 2 ^ 63 -> wrap64 z = z.
Proof. intros H. unfold wrap64. rewrite Z.mod_small; lia. Qed.

Lemma wrap64_range z : - 2 ^ 63 <= wrap64 z < 2 ^ 63.
Proof.
  unfold wrap64. pose proof (Z.mod_pos_bound (z + 2 ^ 63) (2 ^ 64)). lia.
Qed.

Ltac fields :=
  cbn [call modest isMove]; unfold SetItems, SetHeight, MoveUp, MoveDown;
  cbn [threadListModel.items threadListModel.cursor threadListModel.height
       threadListModel.offset].

Lemma cursorOnItem_new : cursorOnItem newThreadListModel.
Proof. unfold cursorOnItem. cbn. lia. Qed.

Lemma cursorOnItem_call m c :
  modest c -> cursorOnItem m -> cursorOnItem (call m c).
Proof.
  unfold cursorOnItem. destruct m as [items cursor height offset].
  destruct c as [items'|h| |]; fields; intros Hc (Ho & Hc' & Hl & Hh).
  - lia.
  - rewrite wrap64_small by lia.
    destruct (Z.ltb_spec (h - 4) 3); lia.
  - destruct (Z.ltb_spec 0 cursor); fields; [|lia].
    rewrite wrap64_small by lia.
    destruct (Z.ltb_spec (cursor - 1) offset); lia.
  - destruct (Z.ltb_spec cursor (Z.of_nat (length items) - 1)); fields; [|lia].
    rewrite !(wrap64_small (cursor + 1)), (wrap64_small (offset + height)) by lia.
    destruct (Z.leb_spec (offset + height) (cursor + 1)); [|lia].
    rewrite (wrap64_small (cursor + 1 - height)) by lia.
    rewrite wrap64_small by lia. lia.
Qed.

Lemma cursorOnItem_calls cs : forall m,
  Forall modest cs -> cursorOnItem m -> cursorOnItem (calls m cs).
Proof.
  induction cs as [|c cs IH]; intros m Hcs Hm; [done|].
  inversion Hcs; subst. apply IH; [done|]. by apply cursorOnItem_call.
Qed.

Lemma Selected_cursorOnItem m :
  cursorOnItem m ->
  match threadListModel.items m with
  | [] => threadListModel.cursor m = 0 /\ Selected m = Some None
  | _ :: _ =>
      exists item,
        Selected m = Some (Some item)
        /\ threadListModel.items m !! Z.to_nat (threadListModel.cursor m)
           = Some item
  end.
Proof.
  unfold cursorOnItem, Selected. destruct m as [items cursor height offset].
  fields. intros (Ho & Hc & _). destruct items as [|item items].
  - split; [|reflexivity]. change (Z.of_nat (length [])) with 0 in Hc. lia.
  - set (l := item :: items) in *.
    assert (0 < length l)%nat as Hl by (subst l; simpl; lia).
    destruct (Nat.eqb_spec (length l) 0); [lia|].
    destruct (Z.leb_spec 0 cursor); [|lia].
    destruct (Z.ltb_spec cursor (Z.of_nat (length l))); [|lia].
    cbn [andb].
    destruct (lookup_lt_is_Some_2 l (Z.to_nat cursor)) as [it Hit]; [lia|].
    exists it. by rewrite Hit.
Qed.

(** X8. Whatever a client calls on a new list, with modest sizes, the offset
    is not negative and not beyond the cursor, the height is 3 at least,
    and [Selected] does not panic: it returns nil over no item and the
    item under the cursor otherwise. *)
Theorem Selected_never_panics (cs : list listCall) :
  Forall modest cs ->
  let m := calls newThreadListModel cs in
  0 <= threadListModel.offset m <= threadListModel.cursor m
  /\ 3 <= threadListModel.height m
  /\ match threadListModel.items m with
     | [] => threadListModel.cursor m = 0 /\ Selected m = Some None
     | _ :: _ =>
         exists item,
           Selected m = Some (Some item)
           /\ threadListModel.items m !! Z.to_nat (threadListModel.cursor m)
              = Some item
     end.
Proof.
  intros Hcs m.
  assert (cursorOnItem m) as Hm
    by (by apply cursorOnItem_calls; [|apply cursorOnItem_new]).
  split; [apply Hm|]. split; [apply Hm|]. by apply Selected_cursorOnItem.
Qed.

Lemma cursorVisible_move m c :
  isMove c -> cursorOnItem m -> cursorVisible m -> cursorVisible (call m c).
Proof.
  unfold cursorOnItem, cursorVisible. destruct m as [items cursor height offset].
  destruct c as [items'|h| |]; fields; intros Hc (Ho & Hc' & Hl & Hh) Hv; try done.
  - destruct (Z.ltb_spec 0 cursor); fields; [|lia].
    rewrite wrap64_small by lia.
    destruct (Z.ltb_spec (cursor - 1) offset); lia.
  - destruct (Z.ltb_spec cursor (Z.of_nat (length items) - 1)); fields; [|lia].
    rewrite !(wrap64_small (cursor + 1)), (wrap64_small (offset + height)) by lia.
    destruct (Z.leb_spec (offset + height) (cursor + 1)); [|lia].
    rewrite (wrap64_small (cursor + 1 - height)) by lia.
    rewrite wrap64_small by lia. lia.
Qed.

Lemma modest_move c : isMove c -> modest c.
Proof. by destruct c. Qed.

(** X9. After [SetItems], and as long as the client only moves the cursor, the
    cursor stays among the rows from the offset on that [View] draws. *)
Theorem cursor_stays_visible (cs0 cs : list listCall)
    (items : list ThreadItem.t) :
  Forall modest cs0 -> Z.of_nat (length items) <= 2 ^ 62 ->
  Forall isMove cs ->
  cursorVisible
    (calls (SetItems (calls newThreadListModel cs0) items) cs).
Proof.
  intros Hcs0 Hitems Hcs.
  assert (cursorOnItem (calls newThreadListModel cs0)) as Hm0
    by (by apply cursorOnItem_calls; [|apply cursorOnItem_new]).
  assert (cursorOnItem (SetItems (calls newThreadListModel cs0) items)
          /\ cursorVisible (SetItems (calls newThreadListModel cs0) items))
    as Hm.
  { split; [by apply (cursorOnItem_call _ (CallSetItems items))|].
    unfold cursorVisible. cbn. destruct Hm0 as (_ & _ & _ & ?). lia. }
  revert Hm. generalize (SetItems (calls newThreadListModel cs0) items).
  induction Hcs as [|c cs Hc _ IH]; intros m [Hm Hv]; [done|].
  apply IH. split.
  - apply cursorOnItem_call; [by apply modest_move|done].
  - by apply cursorVisible_move.
Qed.
End ThreadList.

(** ** File names *)

Section Bytes.
Local Open Scope nat_scope.

Lemma utf8_ascii r b : b ∈ utf8 r -> (b < 0x80)%N -> (r < 0x80)%N /\ b = r.
Proof.
  unfold utf8. intros Hb Hlt.
  destruct (N.ltb_spec r 0x80).
  { apply list_elem_of_singleton in Hb. by subst. }
  exfalso.
  repeat match goal with
         | H : _ ∈ (if ?c then _ else _) |- _ => destruct c
         end;
    repeat (apply elem_of_cons in Hb as [->|Hb]);
    try (by apply elem_of_nil in Hb);
    repeat match goal with
           | H : context [N.div ?a ?b] |- _ => generalize dependent (N.div a b); intros
           | H : context [N.modulo ?a ?b] |- _ =>
               generalize dependent (N.modulo a b); intros
           end; lia.
Qed.

Lemma utf8_not_nil r : utf8 r <> [].
Proof.
  unfold utf8.
  repeat match goal with |- context [if ?c then _ else _] => destruct c end; done.
Qed.

Lemma bytes_nil s : bytes s = [] -> s = [].
Proof.
  destruct s as [|c s]; [done|]. unfold bytes. cbn.
  pose proof (utf8_not_nil c). by destruct (utf8 c).
Qed.

Lemma bytes_Forall (P : N -> Prop) s :
  Forall P s -> (forall b, (0x80 <= b)%N -> P b) -> Forall P (bytes s).
Proof.
  intros Hs Hhigh. unfold bytes. induction Hs as [|c s Hc _ IH]; cbn; [done|].
  apply Forall_app. split; [|done].
  apply Forall_forall. intros b Hb.
  destruct (N.lt_ge_cases b 0x80) as [Hlt|Hge]; [|by apply Hhigh].
  by destruct (utf8_ascii _ _ Hb Hlt) as [_ ->].
Qed.

Lemma bytes_ascii s : Forall (fun c => (c < 0x80)%N) s -> bytes s = s.
Proof.
  unfold bytes. induction 1 as [|c s Hc _ IH]; cbn; [done|].
  rewrite IH. unfold utf8. by apply N.ltb_lt in Hc as ->.
Qed.

Lemma matchHere_Char p prev s :
  matchHere (Char p) prev s =
  match s with
  | c :: s' => if p c then Some (Some c, s') else None
  | [] => None
  end.
Proof. reflexivity. Qed.

Lemma replaceFrom_Char p repl fuel : forall prev s adj,
  length s < fuel ->
  replaceFrom fuel (Char p) repl prev s adj = replaceEach p repl s.
Proof.
  induction fuel as [|fuel IH]; intros prev s adj Hlen; [lia|].
  cbn [replaceFrom]. rewrite matchHere_Char.
  destruct s as [|c s]; [done|]. simpl in Hlen.
  unfold replaceEach. cbn [map concat]. fold (replaceEach p repl s).
  destruct (p c).
  - replace (length s <? length (c :: s)) with true
      by (symmetry; apply Nat.ltb_lt; simpl; lia).
    by rewrite IH by lia.
  - by rewrite IH by lia.
Qed.

Lemma ReplaceAllString_Char p s repl :
  ReplaceAllString (Char p) s repl = replaceEach p repl s.
Proof. unfold ReplaceAllString. apply replaceFrom_Char. lia. Qed.

Lemma replaceEach_Forall (P : N -> Prop) p repl s :
  Forall P repl -> (forall c, p c = false -> P c) ->
  Forall P (replaceEach p repl s).
Proof.
  intros Hrepl Hp. unfold replaceEach. induction s as [|c s IH]; cbn; [done|].
  apply Forall_app. split; [|done].
  destruct (p c) eqn:E; [done|]. constructor; [by apply Hp|done].
Qed.

Lemma replaceEach_none p repl s :
  Forall (fun c => p c = false) s -> replaceEach p repl s = s.
Proof.
  unfold replaceEach. induction 1 as [|c s Hc _ IH]; cbn; [done|].
  by rewrite Hc, IH.
Qed.

Lemma Forall_TrimSpace (P : N -> Prop) s : Forall P s -> Forall P (TrimSpace s).
Proof.
  destruct (TrimSpace_infix s) as (pre & post & H). intros Hs.
  rewrite H in Hs. by apply Forall_app in Hs as [_ [? _]%Forall_app].
Qed.

(** X10. The file name [sanitizeFilename] returns is not empty, is 50 bytes
    long at most and holds none of the characters of its class (the angle brackets,
    the colon, the double quote, the slashes, the bar, the question mark and
    the star); a name that
    is ASCII, trimmed, not empty, of 50 runes at most and free of these
    characters is returned as it is. *)
Theorem sanitizeFilename_safe (name : list N) :
  sanitizeFilename name <> []
  /\ length (sanitizeFilename name) <= 50
  /\ Forall (fun b => b ∉ invalidChars) (sanitizeFilename name)
  /\ (Forall (fun c => (c < 0x80)%N /\ c ∉ invalidChars) name ->
      TrimSpace name = name -> name <> [] -> length name <= 50 ->
      sanitizeFilename name = name).
Proof.
  assert (forall c, cls_invalid c = false <-> c ∉ invalidChars) as Hcls.
  { intros c. unfold cls_invalid. rewrite <- not_true_iff_false, existsb_exists.
    split.
    - intros Hn Hin. apply Hn. exists c. split; [by apply list_elem_of_In|].
      apply N.eqb_refl.
    - intros Hn (x & Hin & ->%N.eqb_eq). by apply Hn, list_elem_of_In. }
  unfold sanitizeFilename. cbn zeta.
  set (t := TrimSpace (ReplaceAllString reInvalid name (str "_"))).
  assert (Forall (fun b => b ∉ invalidChars) (bytes t)) as Ht.
  { apply bytes_Forall.
    - apply Forall_TrimSpace. unfold reInvalid.
      rewrite ReplaceAllString_Char. apply replaceEach_Forall.
      + repeat constructor. vm_compute. set_solver.
      + intros c. apply Hcls.
    - intros b Hb Hin. unfold invalidChars in Hin.
      repeat (apply elem_of_cons in Hin as [->|Hin]; [lia|]).
      by apply elem_of_nil in Hin. }
  repeat split.
  - destruct (bool_decide _) eqn:E; [done|]. by apply bool_decide_eq_false_1 in E.
  - destruct (bool_decide _); [vm_compute; lia|].
    destruct (Nat.ltb_spec 50 (length (bytes t))); [|lia].
    rewrite length_take. lia.
  - destruct (bool_decide _).
    { repeat constructor; vm_compute; set_solver. }
    destruct (50 <? length (bytes t)); [|done]. by apply Forall_take.
  - intros Hname Htrim Hne Hlen. subst t. unfold reInvalid.
    rewrite ReplaceAllString_Char, replaceEach_none.
    2:{ eapply Forall_impl; [exact Hname|]. intros c [_ Hc]. by apply Hcls. }
    rewrite Htrim, bytes_ascii.
    2:{ eapply Forall_impl; [exact Hname|]. by intros c [? _]. }
    destruct (Nat.ltb_spec 50 (length name)); [lia|].
    by rewrite bool_decide_eq_false_2.
Qed.
End Bytes.

(** ** Attachments of the same name *)

Section FilenamesFacts.
Local Open Scope nat_scope.
Variable filepath_Ext : gostring -> gostring.

Lemma to_int_digits z d : d = Decimal.Pos Decimal.Nil \/ d = Decimal.Neg Decimal.Nil ->
  Z.to_int z <> d.
Proof.
  intros Hd E.
  assert (z = 0%Z) as ->.
  { apply (f_equal Z.of_int) in E. rewrite DecimalZ.of_to in E.
    by destruct Hd as [-> | ->]. }
  by destruct Hd as [-> | ->].
Qed.

Lemma Itoa_inj a b : Itoa a = Itoa b -> a = b.
Proof.
  unfold Itoa. intros H.
  assert (list_ascii_of_string (NilZero.string_of_int (Z.to_int a))
          = list_ascii_of_string (NilZero.string_of_int (Z.to_int b))) as H1.
  { revert H.
    generalize (list_ascii_of_string (NilZero.string_of_int (Z.to_int a))).
    generalize (list_ascii_of_string (NilZero.string_of_int (Z.to_int b))).
    intros l2 l1. revert l2.
    induction l1 as [|x l1 IH]; intros [|y l2] E; try done.
    simpl in E. injection E as E1 E2.
    f_equal; [|by apply IH].
    rewrite <- (ascii_N_embedding x), <- (ascii_N_embedding y). by rewrite E1. }
  apply (f_equal string_of_list_ascii) in H1.
  rewrite !string_of_list_ascii_of_string in H1.
  apply (f_equal NilZero.int_of_string) in H1.
  rewrite !NilZero.isi in H1 by (apply to_int_digits; auto).
  injection H1 as H1.
  apply (f_equal Z.of_int) in H1.
  by rewrite !DecimalZ.of_to in H1.
Qed.

Lemma length_TrimSuffix s suffix :
  length s <= length (TrimSuffix s suffix) + length suffix.
Proof.
  unfold TrimSuffix. destruct (HasSuffix s suffix); [|lia].
  rewrite length_take. lia.
Qed.

Lemma numbered_inj name j k : numbered filepath_Ext name j = numbered filepath_Ext name k -> j = k.
Proof.
  unfold numbered. intros H.
  pose proof (length_TrimSuffix name (filepath_Ext name)) as Hlen.
  destruct j as [|j], k as [|k]; [done| | |].
  - apply (f_equal length) in H. rewrite !length_app in H. simpl in H. lia.
  - apply (f_equal length) in H. rewrite !length_app in H. simpl in H. lia.
  - apply app_inv_head in H. apply app_inv_head in H.
    apply app_inv_tail in H. apply Itoa_inj in H. lia.
Qed.

Lemma occurrences_cons name n names :
  occurrences name (n :: names) =
  (if bool_decide (n = name) then 1 else 0) + occurrences name names.
Proof. unfold occurrences. cbn [List.filter]. by destruct (bool_decide _). Qed.

Lemma occurrences_app name l1 l2 :
  occurrences name (l1 ++ l2) = occurrences name l1 + occurrences name l2.
Proof. unfold occurrences. by rewrite List.filter_app, length_app. Qed.

Lemma occurrences_le name names : occurrences name names <= length names.
Proof. unfold occurrences. apply List.filter_length_le. Qed.

Lemma deduplicateFilename_counted seen name usedNames :
  counted seen usedNames -> (Z.of_nat (length seen) < 2 ^ 62)%Z ->
  deduplicateFilename filepath_Ext name usedNames
  = (numbered filepath_Ext name (occurrences name seen),
     snd (deduplicateFilename filepath_Ext name usedNames))
  /\ counted (seen ++ [name]) (snd (deduplicateFilename filepath_Ext name usedNames)).
Proof.
  intros Hc Hlen. unfold deduplicateFilename.
  pose proof (Hc name) as Hname.
  pose proof (occurrences_le name seen) as Hle.
  assert (forall n, occurrences n (seen ++ [name])
                    = occurrences n seen + if bool_decide (name = n) then 1 else 0)
    as Happ.
  { intros n. rewrite occurrences_app, occurrences_cons.
    change (occurrences n []) with 0. destruct (bool_decide _); lia. }
  destruct (occurrences name seen) as [|k] eqn:Hk; rewrite Hname; cbn zeta.
  - split; [done|]. intros n. cbn [snd]. rewrite Happ.
    destruct (decide (name = n)) as [<-|Hne].
    + rewrite lookup_insert_eq, Hk, bool_decide_eq_true_2 by done. done.
    + rewrite lookup_insert_ne, bool_decide_eq_false_2 by done.
      rewrite Nat.add_0_r. apply Hc.
  - split; [done|]. intros n. cbn [snd]. rewrite Happ.
    destruct (decide (name = n)) as [<-|Hne].
    + rewrite lookup_insert_eq, Hk, bool_decide_eq_true_2 by done.
      rewrite wrap64_small by lia.
      replace (S k + 1) with (S (S k)) by lia. f_equal. lia.
    + rewrite lookup_insert_ne, bool_decide_eq_false_2 by done.
      rewrite Nat.add_0_r. apply Hc.
Qed.

Lemma savedNames_counted names : forall seen usedNames,
  counted seen usedNames -> (Z.of_nat (length (seen ++ names)) < 2 ^ 62)%Z ->
  length (savedNames filepath_Ext names usedNames).1 = length names
  /\ (forall i name, names !! i = Some name ->
        (savedNames filepath_Ext names usedNames).1 !! i
        = Some (numbered filepath_Ext name (occurrences name (seen ++ take i names))))
  /\ counted (seen ++ names) (savedNames filepath_Ext names usedNames).2.
Proof.
  induction names as [|n names IH]; intros seen usedNames Hc Hlen.
  - cbn. rewrite app_nil_r. by repeat split.
  - rewrite length_app in Hlen. simpl in Hlen.
    destruct (deduplicateFilename_counted seen n usedNames Hc) as [Hd Hc']; [lia|].
    cbn [savedNames fst snd].
    destruct (deduplicateFilename filepath_Ext n usedNames) as [filename used1] eqn:E1.
    apply (f_equal fst) in Hd. cbn [fst snd] in Hd, Hc'.
    destruct (IH (seen ++ [n]) used1 Hc') as (IH1 & IH2 & IH3).
    { rewrite !length_app. simpl. lia. }
    destruct (savedNames filepath_Ext names used1) as [filenames used2] eqn:E2.
    cbn [fst snd] in *. repeat split.
    + cbn [length]. by rewrite IH1.
    + intros [|i] name Hi.
      * injection Hi as <-. cbn [take]. by rewrite app_nil_r, Hd.
      * change (names !! i = Some name) in Hi.
        change (filenames !! i
                = Some (numbered filepath_Ext name (occurrences name (seen ++ n :: take i names)))).
        rewrite (IH2 i name Hi). by rewrite <- app_assoc.
    + by rewrite <- app_assoc in IH3.
Qed.

(** X11. When [ExportToFolder] saves attachments called [names], the i-th file
    name is the attachment's own name if no earlier attachment has that
    name, and base_k.ext if k earlier ones have it; two attachments of the
    same name never get the same file name; and the map ends with the number
    of occurrences of every name seen. *)
Theorem deduplicateFilename_numbers (names : list gostring) :
  (Z.of_nat (length names) < 2 ^ 62)%Z ->
  length (savedNames filepath_Ext names ∅).1 = length names
  /\ (forall i name, names !! i = Some name ->
        (savedNames filepath_Ext names ∅).1 !! i
        = Some (numbered filepath_Ext name (occurrences name (take i names))))
  /\ (forall i j name, i < j -> names !! i = Some name -> names !! j = Some name ->
        (savedNames filepath_Ext names ∅).1 !! i <> (savedNames filepath_Ext names ∅).1 !! j)
  /\ counted names (savedNames filepath_Ext names ∅).2.
Proof.
  intros Hlen.
  destruct (savedNames_counted names [] ∅) as (H1 & H2 & H3); [done|done|].
  simpl in H2, H3. split; [done|]. split; [done|]. split; [|done].
  intros i j name Hij Hi Hj. rewrite (H2 i name Hi), (H2 j name Hj).
  intros [= E]. apply numbered_inj in E.
  assert (take j names = take i names ++ name :: take (j - S i) (drop (S i) names)) as Ht.
  { rewrite <- (take_drop_middle _ _ _ Hi) at 1.
    assert (length (take i names) = i) as Hl
      by (rewrite length_take; apply lookup_lt_Some in Hi; lia).
    replace j with (length (take i names) + (S (j - S i))) at 1 by lia.
    rewrite take_app_add. simpl. done. }
  rewrite Ht, occurrences_app, occurrences_cons, bool_decide_eq_true_2 in E by done.
  lia.
Qed.
End FilenamesFacts.

(** ** The threads of the command line *)

Section TruncateFacts.
Local Open Scope Z_scope.

(** X12. [truncate] returns its text when that has at most [max] bytes. For a
    longer text it panics when [max] is below 3, and for [max] from 3 on it
    returns exactly [max] bytes: the first [max - 3] bytes of the text and
    three dots. ([max - 3] is taken not to overflow.) *)
Theorem truncate_length (s : list N) (max : Z) :
  - 2 ^ 63 + 3 <= max < 2 ^ 63 ->
  (Z.of_nat (length s) <= max -> truncate s max = Some s)
  /\ (max < Z.of_nat (length s) -> max < 3 -> truncate s max = None)
  /\ (max < Z.of_nat (length s) -> 3 <= max ->
      truncate s max = Some (take (Z.to_nat (max - 3)) s ++ [46; 46; 46]%N)
      /\ Z.of_nat (length (take (Z.to_nat (max - 3)) s ++ [46; 46; 46]%N)) = max).
Proof.
  intros Hmax. unfold truncate. split; [|split].
  - intros H. by apply Z.leb_le in H as ->.
  - intros H1 H2. apply Z.leb_gt in H1 as ->. cbn zeta.
    rewrite wrap64_small by lia.
    replace (0 <=? max - 3) with false by (symmetry; apply Z.leb_gt; lia).
    done.
  - intros H1 H2. rewrite (proj2 (Z.leb_gt _ _) H1). cbn zeta.
    rewrite wrap64_small by lia.
    replace (0 <=? max - 3) with true by (symmetry; apply Z.leb_le; lia).
    replace (max - 3 <=? Z.of_nat (length s)) with true
      by (symmetry; apply Z.leb_le; lia).
    split; [done|]. rewrite length_app, length_take. simpl. lia.
Qed.
End TruncateFacts.

Lemma truncate_100 s :
  exists preview, truncate s 100 = Some preview /\ (length preview <= 100)%nat.
Proof.
  unfold truncate. destruct (Z.leb_spec (Z.of_nat (length s)) 100) as [Hle|Hgt].
  - exists s. split; [done|lia].
  - cbn zeta. rewrite wrap64_small by lia.
    replace (100 - 3 <=? Z.of_nat (length s))%Z with true
      by (symmetry; apply Z.leb_le; lia).
    eexists. split; [reflexivity|].
    rewrite length_app, length_take.
    change (length (bytes (str "..."))) with 3%nat. lia.
Qed.

Lemma length_first_seen keys : (length (first_seen keys) <= length keys)%nat.
Proof.
  induction keys as [|k keys IH]; [done|]. cbn [first_seen length].
  pose proof (length_filter (fun k' => k' <> k) (first_seen keys)). lia.
Qed.

Section MainFacts.
Local Open Scope nat_scope.
Variable tbl : N -> N.
Variable time_Parse : list N -> option Z.
Variable sort_Slice : forall A : Type, list A -> (A -> A -> bool) -> list A.
Variable time_Format : Z -> list N.

Lemma threadInfos_fields threads : forall i,
  (Z.of_nat (i + length threads) < 2 ^ 62)%Z ->
  exists infos,
    threadInfos time_Format i threads = Some infos
    /\ ThreadInfo.ID <$> infos = Z.of_nat <$> seq (S i) (length threads)
    /\ ThreadInfo.EmailIDs <$> infos
       = (fun t => Email.ID <$> ThreadItem.Emails t) <$> threads
    /\ ThreadInfo.EmailCount <$> infos = ThreadItem.EmailCount <$> threads
    /\ ThreadInfo.Subject <$> infos = ThreadItem.Subject <$> threads
    /\ Forall (fun info => length (ThreadInfo.Preview info) <= 100) infos.
Proof.
  induction threads as [|t threads IH]; intros i Hi.
  - exists []. by repeat split.
  - simpl in Hi. destruct (IH (S i)) as (infos & E & H1 & H2 & H3 & H4 & H5); [lia|].
    cbn [threadInfos]. unfold threadInfo.
    destruct (truncate_100 (bytes (ThreadItem.Preview t))) as (preview & -> & Hp).
    cbn zeta. rewrite E. eexists. split; [reflexivity|].
    rewrite !fmap_cons. cbn [ThreadInfo.ID ThreadInfo.EmailIDs ThreadInfo.EmailCount
                             ThreadInfo.Subject length seq].
    rewrite H1, H2, H3, H4, wrap64_small by lia.
    repeat split; try done.
    + rewrite fmap_cons. f_equal. lia.
    + by constructor.
Qed.

Hypothesis sort_Slice_permutes :
  forall (A : Type) (l : list A) (less : A -> A -> bool),
    sort_Slice A l less ≡ₚ l.

(** X13. [groupEmailsBySubject] of the command line never panics: it returns one
    entry per conversation, numbered 1, 2, ... in order of first appearance;
    the message ids of the entries together are the ids of the input
    messages, each once; every entry counts its ids, and its preview has 100
    bytes at most. *)
Theorem groupEmailsBySubject_entries (emails : list Email.t) :
  (Z.of_nat (length emails) < 2 ^ 62)%Z ->
  exists infos,
    groupEmailsBySubject tbl time_Parse sort_Slice time_Format emails = Some infos
    /\ length infos = length (first_seen (keyOf tbl <$> emails))
    /\ ThreadInfo.ID <$> infos = Z.of_nat <$> seq 1 (length infos)
    /\ concat (ThreadInfo.EmailIDs <$> infos) ≡ₚ Email.ID <$> emails
    /\ Forall (fun info =>
                 ThreadInfo.EmailCount info
                 = Z.of_nat (length (ThreadInfo.EmailIDs info))
                 /\ length (ThreadInfo.Preview info) <= 100) infos.
Proof.
  intros Hlen. unfold groupEmailsBySubject.
  destruct (GroupEmailsBySubject_items tbl time_Parse sort_Slice
              sort_Slice_permutes emails) as (items & -> & Hitems).
  pose proof (Forall2_length _ _ _ Hitems) as Hl.
  pose proof (length_first_seen (keyOf tbl <$> emails)) as Hfs.
  rewrite length_fmap in Hfs.
  destruct (threadInfos_fields items 0%nat) as (infos & -> & H1 & H2 & H3 & _ & H5);
    [lia|].
  assert (length infos = length items) as Hli.
  { apply (f_equal length) in H3. by rewrite !length_fmap in H3. }
  exists infos. split; [done|]. split; [lia|]. split; [by rewrite Hli|]. split.
  - rewrite H2.
    trans (Email.ID <$> concat (ThreadItem.Emails <$> items)).
    { clear. induction items as [|t items IH]; [done|].
      rewrite !fmap_cons. cbn [concat]. by rewrite fmap_app, IH. }
    apply fmap_Permutation.
    rewrite (itemFor_members tbl time_Parse sort_Slice sort_Slice_permutes
               _ _ _ Hitems).
    apply membersOf_partition; [apply NoDup_first_seen|].
    intros e He. apply elem_of_first_seen. by apply list_elem_of_fmap_2.
  - apply Forall_forall. intros info Hin.
    split; [|by eapply (proj1 (Forall_forall _ _) H5)].
    apply list_elem_of_lookup in Hin as (j & Hj).
    assert (exists t, items !! j = Some t
                      /\ ThreadInfo.EmailCount info = ThreadItem.EmailCount t
                      /\ ThreadInfo.EmailIDs info = Email.ID <$> ThreadItem.Emails t)
      as (t & Ht & E1 & E2).
    { apply (f_equal (fun l => l !! j)) in H2. apply (f_equal (fun l => l !! j)) in H3.
      cbv beta in H2, H3.
      rewrite !list_lookup_fmap, Hj in H2. rewrite !list_lookup_fmap, Hj in H3.
      simpl in H2, H3.
      destruct (items !! j) as [t|]; [|done]. exists t.
      simpl in H2, H3. by injection H2 as ->; injection H3 as ->. }
    rewrite E1, E2, length_fmap.
    pose proof (Forall2_lookup_r _ _ _ _ _ Hitems Ht) as (k & _ & Hk).
    by destruct Hk as (_ & _ & ? & _).
Qed.
End MainFacts.

(** ** The attachment list *)

Section AttachmentsFacts.
Local Open Scope Z_scope.
Variable fmt_1f : Z -> Z -> gostring.




End AttachmentsFacts.

(** ** Method responses *)

Section ResponsesFacts.
Local Open Scope nat_scope.
Variable unmarshalArray : list N -> option (list (list N)).
Variable unmarshalString : list N -> option (list N).

(** X15. When the raw response decodes to an array, [ParseMethodResponse] panics
    exactly when the array has fewer than three elements and its first
    element, if there is one, decodes to a string; it never returns a
    response for such an array. For an array of three or more elements it
    returns a response exactly when the first and third decode to strings;
    the response holds these and the second element as it is, and elements
    after the third are ignored. *)
Theorem ParseMethodResponse_array (raw : list N) (arr : list (list N)) :
  unmarshalArray raw = Some arr ->
  (ParseMethodResponse unmarshalArray unmarshalString raw = Panicked
   <-> length arr < 3
       /\ forall arr0, arr !! 0 = Some arr0 -> unmarshalString arr0 <> None)
  /\ (forall r,
        ParseMethodResponse unmarshalArray unmarshalString raw = Returned r
        <-> exists arr0 arr1 arr2 rest,
              arr = arr0 :: arr1 :: arr2 :: rest
              /\ unmarshalString arr0 = Some (MethodResponse.Method r)
              /\ MethodResponse.Args r = arr1
              /\ unmarshalString arr2 = Some (MethodResponse.CallID r)).
Proof.
  intros Harr. unfold ParseMethodResponse. rewrite Harr.
  destruct arr as [|arr0 [|arr1 [|arr2 rest]]]; cbn [lookup list_lookup length].
  - split.
    + split; [intros _; split; [lia|done]|done].
    + intros r. split; [done|]. by intros (? & ? & ? & ? & ? & _).
  - destruct (unmarshalString arr0) as [method|] eqn:E0.
    + split.
      * split; [intros _; split; [lia|]|done]. intros ? [= <-]. by rewrite E0.
      * intros r. split; [done|]. by intros (? & ? & ? & ? & ? & _).
    + split.
      * split; [done|]. intros [_ H]. by destruct (H arr0 eq_refl).
      * intros r. split; [done|]. by intros (? & ? & ? & ? & ? & _).
  - destruct (unmarshalString arr0) as [method|] eqn:E0.
    + split.
      * split; [intros _; split; [lia|]|done]. intros ? [= <-]. by rewrite E0.
      * intros r. split; [done|]. by intros (? & ? & ? & ? & ? & _).
    + split.
      * split; [done|]. intros [_ H]. by destruct (H arr0 eq_refl).
      * intros r. split; [done|]. by intros (? & ? & ? & ? & ? & _).
  - destruct (unmarshalString arr0) as [method|] eqn:E0;
      [destruct (unmarshalString arr2) as [callID|] eqn:E2|].
    + split; [split; [done|intros [? _]; lia]|].
      intros r. split.
      * intros [= <-]. by exists arr0, arr1, arr2, rest.
      * intros (? & ? & ? & ? & [= <- <- <- <-] & H0 & H1 & H2).
        rewrite E0 in H0. rewrite E2 in H2. destruct r. cbn in *. congruence.
    + split; [split; [done|intros [? _]; lia]|].
      intros r. split; [done|].
      intros (? & ? & ? & ? & [= <- <- <- <-] & _ & _ & H2). congruence.
    + split; [split; [done|intros [? _]; lia]|].
      intros r. split; [done|].
      intros (? & ? & ? & ? & [= <- <- <- <-] & H0 & _). congruence.
Qed.
End ResponsesFacts.

(** ** The examples *)

Lemma latin1Lower_IsSpace r : 128 <= r -> IsSpace (latin1Lower r) = IsSpace r.
Proof.
  intros H. unfold latin1Lower.
  destruct ((192 <=? r) && (r <=? 222) && negb (r =? 215)) eqn:E; [|done].
  apply andb_prop in E as [E _]. apply andb_prop in E as [H1 H2].
  apply N.leb_le in H1, H2. unfold IsSpace. compare_runes; try done; lia.
Qed.

Lemma NormalizeSubject_reply_witness :
  NormalizeSubject latin1Lower (str "Fwd:" ++ str "  " ++ str "Lunch")
  = NormalizeSubject latin1Lower (str "Lunch").
Proof.
  apply (NormalizeSubject_reply latin1Lower (str "Fwd:") (str "  ") (str "Lunch"));
    vm_compute; reflexivity.
Defined.

Lemma NormalizeSubject_case_insensitive_witness :
  NormalizeSubject latin1Lower (str "RE: LUNCH on Friday")
  = NormalizeSubject latin1Lower (str "Re: Lunch On FRIDAY").
Proof.
  apply (NormalizeSubject_case_insensitive latin1Lower latin1Lower_lower
           latin1Lower_IsSpace latin1Lower_ascii).
  vm_compute; reflexivity.
Defined.

Lemma NormalizeSubject_output_witness :
  startsWith IsSpace (NormalizeSubject latin1Lower (str " Re:  Lunch  on Friday "))
  = false
  /\ endsWith IsSpace (NormalizeSubject latin1Lower (str " Re:  Lunch  on Friday "))
     = false.
Proof.
  pose proof (NormalizeSubject_output latin1Lower latin1Lower_lower
                latin1Lower_IsSpace latin1Lower_ascii
                (str " Re:  Lunch  on Friday ")) as (_ & _ & H1 & H2 & _).
  exact (conj H1 H2).
Defined.

Lemma GetBodyText_precedence_witness :
  GetBodyText fetched = str "Hello there, Bob".
Proof.
  refine (proj1 (GetBodyText_precedence fetched
                   [ {| BodyPart.PartID := str "1"; BodyPart.Type_ := str "text/plain" |} ]
                   {| BodyPart.PartID := str "2"; BodyPart.Type_ := str "text/plain" |}
                   []
                   {| BodyValue.Value := str "Hello there, Bob" |} _ _) _).
  - repeat constructor.
  - vm_compute; reflexivity.
  - reflexivity.
Defined.

Lemma CleanBody_only_deletes_witness :
  CleanBody parseAsText (str "Thanks!\n\n> earlier text\n\n--\nBob") DefaultLLMOptions
  `sublist_of` str "Thanks!\n\n> earlier text\n\n--\nBob".
Proof.
  apply (CleanBody_only_deletes parseAsText). vm_compute; reflexivity.
Defined.

Lemma sanitizeFilename_safe_witness :
  sanitizeFilename (str "Q3 report.pdf") = str "Q3 report.pdf".
Proof.
  apply (proj2 (proj2 (proj2 (sanitizeFilename_safe (str "Q3 report.pdf"))))).
  - repeat constructor; vm_compute; try reflexivity; set_solver.
  - vm_compute; reflexivity.
  - discriminate.
  - vm_compute; lia.
Defined.

Lemma session_modest : Forall modest session.
Proof. repeat constructor; cbn; lia. Qed.

Lemma Selected_never_panics_witness :
  exists item,
    Selected (calls newThreadListModel session) = Some (Some item)
    /\ threadListModel.items (calls newThreadListModel session)
         !! Z.to_nat (threadListModel.cursor (calls newThreadListModel session))
       = Some item.
Proof.
  exact (proj2 (proj2 (Selected_never_panics session session_modest))).
Defined.

Lemma cursor_stays_visible_witness :
  cursorVisible (calls (SetItems (calls newThreadListModel resized) rows) moves).
Proof.
  apply (cursor_stays_visible resized moves rows).
  - repeat constructor; cbn; lia.
  - cbn; lia.
  - repeat constructor.
Defined.

Lemma deduplicateFilename_numbers_witness :
  (savedNames unixExt downloads ∅).1 !! 2%nat
  <> (savedNames unixExt downloads ∅).1 !! 3%nat.
Proof.
  refine (proj1 (proj2 (proj2 (deduplicateFilename_numbers unixExt downloads _)))
            2%nat 3%nat (str "a.txt") _ _ _).
  - cbn; lia.
  - lia.
  - reflexivity.
  - reflexivity.
Defined.

Lemma truncate_length_witness :
  truncate (bytes (str "hello, world")) 8
  = Some (take (Z.to_nat (8 - 3)) (bytes (str "hello, world")) ++ [46; 46; 46]).
Proof.
  refine (proj1 (proj2 (proj2 (truncate_length (bytes (str "hello, world")) 8 _))
                   _ _)).
  - lia.
  - vm_compute; reflexivity.
  - lia.
Defined.

Lemma groupEmailsBySubject_entries_witness :
  exists infos,
    groupEmailsBySubject latin1Lower parseUTC insertionSort instant inbox
    = Some infos
    /\ concat (ThreadInfo.EmailIDs <$> infos) ≡ₚ Email.ID <$> inbox.
Proof.
  destruct (groupEmailsBySubject_entries latin1Lower parseUTC insertionSort
              instant insertionSort_Permutation inbox)
    as (infos & Hrun & _ & _ & Hids & _).
  - cbn; lia.
  - exists infos. split; [exact Hrun|exact Hids].
Defined.


Lemma ParseMethodResponse_array_witness :
  ParseMethodResponse commaArray quotedString (quoted "error" ++ str ",{}")
  = Panicked.
Proof.
  refine (proj2 (proj1 (ParseMethodResponse_array commaArray quotedString
                          (quoted "error" ++ str ",{}")
                          [quoted "error"; str "{}"] _)) _).
  - vm_compute; reflexivity.
  - split; [cbn; lia|]. intros arr0 [= <-]. discriminate.
Defined.
